(** * tg-save-as-bot: the download orchestration core, embedded and verified

    The development follows the TypeScript sources:
    - [services/access.ts]      the allow-list ([Access]),
    - [utils/url.ts]            link extraction ([Url]),
    - [utils/temp.ts]           request workspaces ([Temp]),
    - [services/downloader.ts]  the yt-dlp driver ([Downloader]),
    - [bot/bot.ts]              the message handler ([Bot]).

    Part I holds the embedding, Part II the properties. *)

From stdpp Require Import base strings list gmap sets.
From Stdlib Require Import ZArith Lia.

Local Open Scope Z_scope.

(** * Part I: the embedding *)

(** ** JavaScript strings

    A JavaScript string is a sequence of UTF-16 code units; [length],
    [substring], [includes] and the regular expression engine (without the
    [u] flag) all work on code units.  A code unit is a [Z]. *)
Module JsString.

Definition unit_of_ascii (a : Ascii.ascii) : Z := Z.of_N (Ascii.N_of_ascii a).

(** An ASCII literal of the source as a sequence of code units. *)
Definition lit (s : string) : list Z :=
  unit_of_ascii <$> String.list_ascii_of_string s.

Fixpoint str_eqb (a b : list Z) : bool :=
  match a, b with
  | [], [] => true
  | c :: a', d :: b' => (c =? d) && str_eqb a' b'
  | _, _ => false
  end.

(** [s.startsWith(p)] *)
Fixpoint startsWith (s p : list Z) {struct p} : bool :=
  match p, s with
  | [], _ => true
  | c :: p', d :: s' => (c =? d) && startsWith s' p'
  | _ :: _, [] => false
  end.

(** [s.includes(needle)] *)
Fixpoint includes (s needle : list Z) : bool :=
  startsWith s needle
  || match s with
     | [] => false
     | _ :: s' => includes s' needle
     end.

(** [a <= b] as strings: the order of code units, a prefix first. *)
Fixpoint str_leb (a b : list Z) : bool :=
  match a, b with
  | [], _ => true
  | _ :: _, [] => false
  | x :: a', y :: b' =>
      if x <? y then true
      else if y <? x then false
      else str_leb a' b'
  end.

Fixpoint sortedInsert (x : list Z) (names : list (list Z)) : list (list Z) :=
  match names with
  | [] => [x]
  | y :: names' => if str_leb x y then x :: names else y :: sortedInsert x names'
  end.

(** [names.sort()] on an array of strings, without a comparator: ascending
    by code units. *)
Definition Array_sort (names : list (list Z)) : list (list Z) :=
  foldr sortedInsert [] names.

(** [s.endsWith(suffix)] *)
Definition endsWith (s suffix : list Z) : bool :=
  startsWith (rev s) (rev suffix).

Definition isUpperAscii (c : Z) : bool := (65 <=? c) && (c <=? 90).
Definition isLowerAscii (c : Z) : bool := (97 <=? c) && (c <=? 122).
Definition isDigit (c : Z) : bool := (48 <=? c) && (c <=? 57).

(** The lower case of one code unit.  [A-Z] go to [a-z].  Two code points
    outside ASCII have a lower case with an ASCII unit in it: U+0130 (capital
    I with dot) becomes [i] followed by U+0307, and U+212A (the Kelvin sign)
    becomes [k].  Every other unit outside ASCII is sent by the Unicode tables
    to units outside ASCII again; they are left in place, which no ASCII
    needle can tell apart. *)
Definition lowerUnit (c : Z) : list Z :=
  if isUpperAscii c then [c + 32]
  else if c =? 304 then [105; 775]
  else if c =? 8490 then [107]
  else [c].

(** [s.toLowerCase()] *)
Definition toLowerCase (s : list Z) : list Z := flat_map lowerUnit s.

(** White space of [String.prototype.trim] and of [parseInt]: the ASCII
    white space and line terminators, the no-break space, the byte order
    mark, the line and paragraph separators and the space separators. *)
Definition isWhiteSpace (c : Z) : bool :=
  ((9 <=? c) && (c <=? 13)) || (c =? 32) || (c =? 160) || (c =? 5760)
  || ((8192 <=? c) && (c <=? 8202)) || (c =? 8232) || (c =? 8233)
  || (c =? 8239) || (c =? 8287) || (c =? 12288) || (c =? 65279).

Fixpoint trimStart (s : list Z) : list Z :=
  match s with
  | c :: s' => if isWhiteSpace c then trimStart s' else s
  | [] => []
  end.

Definition trimEnd (s : list Z) : list Z := rev (trimStart (rev s)).

(** [s.trim()] *)
Definition trim (s : list Z) : list Z := trimEnd (trimStart s).

(** [s.split(sep)] for a separator of one code unit: the pieces between the
    separators, empty pieces included; the empty string gives one empty
    piece. *)
Fixpoint split (sep : Z) (s : list Z) : list (list Z) :=
  match s with
  | [] => [[]]
  | c :: s' =>
      if c =? sep then [] :: split sep s'
      else match split sep s' with
           | piece :: pieces => (c :: piece) :: pieces
           | [] => [[c]]
           end
  end.

(** [s.replace(/c/g, by)] for a pattern of one literal code unit and a
    replacement without [$]. *)
Definition replaceAll (c : Z) (by_ : list Z) (s : list Z) : list Z :=
  flat_map (fun d => if d =? c then by_ else [d]) s.

(** [s.substring(0, n)] *)
Definition substring0 (n : nat) (s : list Z) : list Z := take n s.

(** [needle] stands somewhere inside [s]. *)
Definition isSubstring (needle s : list Z) : Prop :=
  exists pre post, s = pre ++ needle ++ post.

End JsString.

(** ** utils/url.ts: link extraction *)
Module Url.
Import JsString.

(** The fragment of regular expressions that [URL_REGEX] is written in.
    Quantifiers are greedy and range over a character class. *)
Inductive Regex : Type :=
  | Chr (c : Z)
  | Class (ranges : list (Z * Z))
  | Rep (ranges : list (Z * Z)) (min : nat) (max : option nat)
  | Opt (r : Regex)
  | Seq (r1 r2 : Regex)
  | WordBoundary.

Definition inRanges (ranges : list (Z * Z)) (c : Z) : bool :=
  existsb (fun '(lo, hi) => (lo <=? c) && (c <=? hi)) ranges.

(** Flag [i] without flag [u]: two units match when their canonical forms
    agree.  The canonical form of a unit is its upper case unless that would
    take a unit outside ASCII into ASCII, so an ASCII letter agrees with
    itself and with its other case, and with nothing else. *)
Definition caseVariants (c : Z) : list Z :=
  if isUpperAscii c then [c; c + 32]
  else if isLowerAscii c then [c; c - 32]
  else [c].

Definition chrMatches (pattern c : Z) : bool :=
  existsb (Z.eqb pattern) (caseVariants c).

Definition classMatches (ranges : list (Z * Z)) (c : Z) : bool :=
  existsb (inRanges ranges) (caseVariants c).

(** [\w] *)
Definition isWordChar (c : Z) : bool :=
  isUpperAscii c || isLowerAscii c || isDigit c || (c =? 95).

Definition isWordCharOpt (c : option Z) : bool :=
  match c with
  | Some c => isWordChar c
  | None => false
  end.

(** A matcher state is the unit before the current position, if any, and the
    text from the current position on.  A continuation receives the state
    after its predecessor and answers with the text left after the whole
    match, or fails, which makes the predecessor backtrack. *)
Definition Cont : Type := option Z -> list Z -> option (list Z).

(** A greedy quantifier over a class: take one more unit first, and fall
    back to stopping here when the rest cannot match. *)
Fixpoint matchRep (ranges : list (Z * Z)) (min : nat) (max : option nat)
    (prev : option Z) (s : list Z) (k : Cont) {struct s} : option (list Z) :=
  let stop := match min with
              | O => k prev s
              | S _ => None
              end in
  match s with
  | c :: s' =>
      if classMatches ranges c
         && match max with
            | Some O => false
            | _ => true
            end
      then match matchRep ranges (Nat.pred min) (Nat.pred <$> max) (Some c) s' k with
           | Some rest => Some rest
           | None => stop
           end
      else stop
  | [] => stop
  end.

Fixpoint matchRegex (r : Regex) (prev : option Z) (s : list Z) (k : Cont)
    : option (list Z) :=
  match r with
  | Chr p =>
      match s with
      | c :: s' => if chrMatches p c then k (Some c) s' else None
      | [] => None
      end
  | Class ranges =>
      match s with
      | c :: s' => if classMatches ranges c then k (Some c) s' else None
      | [] => None
      end
  | Rep ranges min max => matchRep ranges min max prev s k
  | Opt r' =>
      match matchRegex r' prev s k with
      | Some rest => Some rest
      | None => k prev s
      end
  | Seq r1 r2 => matchRegex r1 prev s (fun prev' s' => matchRegex r2 prev' s' k)
  | WordBoundary =>
      if xorb (isWordCharOpt prev) (isWordCharOpt (head s)) then k prev s else None
  end.

Definition seqOf (rs : list Regex) (last : Regex) : Regex :=
  foldr Seq last rs.

Definition chars (s : string) : list Regex := Chr <$> lit s.

(** [[-a-zA-Z0-9@:%._+~#=]] *)
Definition hostClass : list (Z * Z) :=
  [(45, 45); (97, 122); (65, 90); (48, 57); (64, 64); (58, 58); (37, 37);
   (46, 46); (95, 95); (43, 43); (126, 126); (35, 35); (61, 61)].

(** [[a-zA-Z0-9()]] *)
Definition tldClass : list (Z * Z) :=
  [(97, 122); (65, 90); (48, 57); (40, 40); (41, 41)].

(** [[-a-zA-Z0-9()@:%_+.~#?&/=]] *)
Definition tailClass : list (Z * Z) :=
  [(45, 45); (97, 122); (65, 90); (48, 57); (40, 40); (41, 41); (64, 64);
   (58, 58); (37, 37); (95, 95); (43, 43); (46, 46); (126, 126); (35, 35);
   (63, 63); (38, 38); (47, 47); (61, 61)].

(** The source's [URL_REGEX], flags [g] and [i]: the scheme [https?], then
    [://], an optional [www.], 1 to 256 units of the host class, a dot, 1 to 6
    units of the top-level class, a word boundary, and any number of units of
    the tail class. *)
Definition URL_REGEX : Regex :=
  seqOf (chars "http"
         ++ [Opt (Chr 115)]
         ++ chars "://"
         ++ [Opt (seqOf (chars "www") (Chr 46));
             Rep hostClass 1 (Some 256%nat);
             Chr 46;
             Rep tldClass 1 (Some 6%nat);
             WordBoundary])
        (Rep tailClass 0 None).

(** Every unit that the expression can consume satisfies [P]. *)
Fixpoint regexUnits (P : Z -> Prop) (r : Regex) : Prop :=
  match r with
  | Chr p => forall c, chrMatches p c = true -> P c
  | Class ranges => forall c, classMatches ranges c = true -> P c
  | Rep ranges _ _ => forall c, classMatches ranges c = true -> P c
  | Opt r' => regexUnits P r'
  | Seq r1 r2 => regexUnits P r1 /\ regexUnits P r2
  | WordBoundary => True
  end.

(** One attempt of the expression at the current position: the text left
    after the match. *)
Definition matchHere (r : Regex) (prev : option Z) (s : list Z) : option (list Z) :=
  matchRegex r prev s (fun _ rest => Some rest).

(** The successive matches of a global expression, left to right: after a
    match the search resumes where the match ended ([skip] counts the units
    of the last match still to be passed over). *)
Fixpoint scan (r : Regex) (prev : option Z) (s : list Z) (skip : nat)
    : list (list Z) :=
  match s with
  | [] => []
  | c :: s' =>
      match skip with
      | S n => scan r (Some c) s' n
      | O =>
          match matchHere r prev s with
          | Some rest =>
              let len := (length s - length rest)%nat in
              take len s :: scan r (Some c) s' (len - 1)
          | None => scan r (Some c) s' O
          end
      end
  end.

(** [text.match(re)] for a global [re]: [null] when nothing matches. *)
Definition String_match (r : Regex) (text : list Z) : option (list (list Z)) :=
  match scan r None text O with
  | [] => None
  | matches => Some matches
  end.

(** A JavaScript [Set] of strings: its elements in insertion order, without
    duplicates; adding an element that is there changes nothing. *)
Definition Set_add (s : list (list Z)) (x : list Z) : list (list Z) :=
  if existsb (str_eqb x) s then s else s ++ [x].

(** [new Set(items)] *)
Definition Set_new (items : list (list Z)) : list (list Z) :=
  foldl Set_add [] items.

Definition extractUrls (text : list Z) : list (list Z) :=
  match String_match URL_REGEX text with
  | None => []
  | Some matches => Set_new matches
  end.

(** [u] opens with [http://] or [https://], in any mix of cases. *)
Definition startsWithScheme (u : list Z) : Prop :=
  exists scheme tail_,
    u = scheme ++ tail_
    /\ (toLowerCase scheme = lit "http://" \/ toLowerCase scheme = lit "https://").

End Url.

(** ** services/access.ts: the allow-list *)
Module Access.
Import JsString.

Fixpoint takeDigits (s : list Z) : list Z :=
  match s with
  | c :: s' => if isDigit c then c :: takeDigits s' else []
  | [] => []
  end.

Definition digitsValue (ds : list Z) : Z :=
  foldl (fun acc d => acc * 10 + (d - 48)) 0 ds.

(** A JavaScript number as far as this program meets one: not-a-number, an
    infinity, or a finite double whose value is the integer [z].  Minus zero
    is [Finite 0], which is how a [Set] sees it. *)
Inductive Number : Type :=
  | NaN
  | Infinity (negative : bool)
  | Finite (z : Z).

Definition Number_encode (n : Number) : option (bool + Z) :=
  match n with
  | NaN => None
  | Infinity negative => Some (inl negative)
  | Finite z => Some (inr z)
  end.

Definition Number_decode (code : option (bool + Z)) : Number :=
  match code with
  | None => NaN
  | Some (inl negative) => Infinity negative
  | Some (inr z) => Finite z
  end.

#[global] Instance Number_eq_dec : EqDecision Number.
Proof. solve_decision. Defined.

#[global] Instance Number_countable : Countable Number :=
  inj_countable' Number_encode Number_decode
    (fun n => match n with
              | NaN => eq_refl
              | Infinity _ => eq_refl
              | Finite _ => eq_refl
              end).

(** The Number value for the integer [z]: [z] itself up to 2^53 in absolute
    value; beyond, the nearest double, which keeps the 53 leading bits and
    rounds what is cut off to the nearest, a tie going to the even
    significand; and an infinity when that reaches 2^1024. *)
Definition toNumber (z : Z) : Number :=
  let m := Z.abs z in
  if m <? 2 ^ 53 then Finite z
  else
    let shift := Z.log2 m - 52 in
    let q := Z.shiftr m shift in
    let r := Z.land m (Z.ones shift) in
    let half := Z.shiftl 1 (shift - 1) in
    let q' := if (half <? r) || ((r =? half) && Z.odd q) then q + 1 else q in
    let v := Z.shiftl q' shift in
    if 2 ^ 1024 <=? v then Infinity (z <? 0) else Finite (Z.sgn z * v).

Definition isNaN (n : Number) : bool :=
  match n with
  | NaN => true
  | _ => false
  end.

(** The integer that [parseInt(input, 10)] reads, before it is made a
    Number: skip leading white space, read an optional sign, then the longest
    run of decimal digits; none when that run is empty.  Whatever follows the
    digits is ignored. *)
Definition mathInt (input : list Z) : option Z :=
  let s := trimStart input in
  let '(sign, s1) :=
    match s with
    | c :: r => if c =? 45 then (-1, r) else if c =? 43 then (1, r) else (1, s)
    | [] => (1, s)
    end in
  match takeDigits s1 with
  | [] => None
  | ds => Some (sign * digitsValue ds)
  end.

(** [parseInt(input, 10)]: [NaN] without digits, else the Number for the
    integer read. *)
Definition parseInt (input : list Z) : Number :=
  match mathInt input with
  | None => NaN
  | Some z => toNumber z
  end.

Record AccessControl : Type := { allowedUserIds : gset Number }.

(** [new AccessControl(allowedUserIdsEnv)] *)
Definition newAccessControl (allowedUserIdsEnv : list Z) : AccessControl :=
  {| allowedUserIds :=
       list_to_set
         (filter (fun id => negb (isNaN id))
            ((fun id => parseInt (trim id)) <$> split 44 allowedUserIdsEnv)) |}.

(** [this.allowedUserIds.has(userId)] for a user identifier, a Number of
    integer value. *)
Definition isAllowed (ac : AccessControl) (userId : Z) : bool :=
  bool_decide (Finite userId ∈ allowedUserIds ac).

(** The reading of a token that the specification has in mind: white space
    around it aside, an optional sign followed by decimal digits and nothing
    else. *)
Definition spec_integerToken (token : list Z) : option Z :=
  let t := trim token in
  let '(sign, body) :=
    match t with
    | c :: r => if c =? 45 then (-1, r) else if c =? 43 then (1, r) else (1, t)
    | [] => (1, t)
    end in
  match body with
  | [] => None
  | _ => if forallb isDigit body then Some (sign * digitsValue body) else None
  end.

(** The allow-list as the specification describes it: the identifiers of
    the integer tokens. *)
Definition spec_isAllowed (allowedUserIdsEnv : list Z) (userId : Z) : bool :=
  existsb
    (fun token =>
       match spec_integerToken token with
       | Some z => z =? userId
       | None => false
       end)
    (split 44 allowedUserIdsEnv).

(** What the class makes of a token: after leading white space, an optional
    sign and a longest run of at least one decimal digit, whose signed value
    is [z]; the rest of the token is not looked at. *)
Definition leadingInteger (token : list Z) (z : Z) : Prop :=
  exists ws sign ds rest,
    token = ws ++ sign ++ ds ++ rest
    /\ Forall (fun c => isWhiteSpace c = true) ws
    /\ ((sign = [] /\ z = digitsValue ds)
        \/ (sign = [43] /\ z = digitsValue ds)
        \/ (sign = [45] /\ z = - digitsValue ds))
    /\ ds <> []
    /\ Forall (fun c => isDigit c = true) ds
    /\ match rest with
       | c :: _ => isDigit c = false
       | [] => True
       end.

End Access.

(** ** The runtime: state, exceptions and promises that never settle

    An asynchronous function is a computation over the state of the process
    and of the file system.  Awaiting it yields a value, throws, or never
    settles.  The answers of the outside world (identifiers, the clock, the
    file system refusing a directory, the child process, the chat service)
    come from an environment, indexed by the number of outside calls made so
    far. *)
Module Runtime.
Import JsString.

Inductive Exn : Type :=
  | JsError (message : list Z)
  | NonError.

(** [error instanceof Error ? error.message : 'Unknown error'] *)
Definition errorMessage (e : Exn) : list Z :=
  match e with
  | JsError m => m
  | NonError => lit "Unknown error"
  end.

Inductive Outcome (A : Type) : Type :=
  | Ok (a : A)
  | Throw (e : Exn)
  | Pending.
Arguments Ok {A} a.
Arguments Throw {A} e.
Arguments Pending {A}.

(** A path is the list of its segments below the root; [path.join(dir, name)]
    adds one segment. *)
Definition path_join (dir : list (list Z)) (name : list Z) : list (list Z) :=
  dir ++ [name].

(** The path as the string handed to the child. *)
Definition path_string (p : list (list Z)) : list Z :=
  flat_map (fun segment => 47 :: segment) p.

Inductive Node : Type :=
  | Dir
  | File (size : Z).

Inductive ChildEvent : Type :=
  | StdoutData (data : list Z)
  | StderrData (data : list Z)
  | Close (code : option Z)
  | SpawnError (message : list Z).

(** What a spawned child does when left alone: its events, each with the
    delay in milliseconds since the one before (the first since the spawn),
    and the files it leaves in its output directory, name and size in
    bytes. *)
Record Child : Type := {
  child_events : list (N * ChildEvent);
  child_files : list (list Z * Z)
}.

Record Env : Type := {
  cwd : list (list Z);
  uuid_at : nat -> list Z;
  now_at : nat -> Z;
  ensureDir_refused : nat -> option (list Z);
  child_at : nat -> list (list Z) -> Child;
  telegram_refused : nat -> option (list Z)
}.

Record SessionData : Type := {
  isProcessing : bool;
  lastRequestTime : Z
}.

(** What the process did to the outside, oldest first. *)
Inductive Event : Type :=
  | EvSpawn (args : list (list Z))
  | EvKill
  | EvReply (text : list Z)
  | EvEditMessageText (chatId messageId : Z) (text : list Z)
  | EvDeleteMessage (chatId messageId : Z)
  | EvVideo (source : list (list Z)) (caption : list Z)
  | EvDocument (source : list (list Z)) (caption : list Z).

Record World : Type := {
  fs : list (list (list Z) * Node);
  userSessions : gmap Z SessionData;
  tick : nat;
  trace : list Event
}.

Definition M (A : Type) : Type := World -> Outcome A * World.

#[global] Instance M_ret : MRet M := fun A a w => (Ok a, w).

#[global] Instance M_bind : MBind M := fun A B k m w =>
  match m w with
  | (Ok a, w') => k a w'
  | (Throw e, w') => (Throw e, w')
  | (Pending, w') => (Pending, w')
  end.

#[global] Instance M_fmap : FMap M := fun A B f m w =>
  match m w with
  | (Ok a, w') => (Ok (f a), w')
  | (Throw e, w') => (Throw e, w')
  | (Pending, w') => (Pending, w')
  end.

Definition throw {A : Type} (e : Exn) : M A := fun w => (Throw e, w).

(** Awaiting a promise that nobody resolves. *)
Definition pending {A : Type} : M A := fun w => (Pending, w).

(** [try { body } catch (error) { handler }]: a body that never settles is
    not caught. *)
Definition try_catch {A : Type} (body : M A) (handler : Exn -> M A) : M A :=
  fun w =>
    match body w with
    | (Throw e, w') => handler e w'
    | other => other
    end.

(** [try { body } finally { cleanup }]: the cleanup runs after a body that
    returned or threw, and its own exception replaces the body's outcome. *)
Definition try_finally {A : Type} (body : M A) (cleanup : M unit) : M A :=
  fun w =>
    match body w with
    | (Pending, w') => (Pending, w')
    | (r, w') =>
        match cleanup w' with
        | (Ok _, w'') => (r, w'')
        | (Throw e, w'') => (Throw e, w'')
        | (Pending, w'') => (Pending, w'')
        end
    end.

(** [promise.catch(() => {})] *)
Definition catch_ignore (body : M unit) : M unit :=
  try_catch body (fun _ => mret tt).

(** A computation settles when awaiting it comes back, with a value or an
    exception, from every state. *)
Definition settles {A : Type} (m : M A) : Prop :=
  forall w, fst (m w) <> Pending.

(** A computation preserves an aspect [f] of the world when that aspect is
    the same after it as before, whatever the outcome. *)
Definition preserves {X A : Type} (f : World -> X) (m : M A) : Prop :=
  forall w, f (snd (m w)) = f w.

(** The argument vectors of the children spawned so far, oldest first. *)
Definition spawnsOf (events : list Event) : list (list (list Z)) :=
  omap (fun ev =>
          match ev with
          | EvSpawn args => Some args
          | _ => None
          end) events.

Definition bump (w : World) : World :=
  {| fs := fs w; userSessions := userSessions w; tick := S (tick w); trace := trace w |}.

Definition record (ev : Event) (w : World) : World :=
  {| fs := fs w; userSessions := userSessions w; tick := tick w; trace := trace w ++ [ev] |}.

Definition with_fs (f : list (list (list Z) * Node)) (w : World) : World :=
  {| fs := f; userSessions := userSessions w; tick := tick w; trace := trace w |}.

Definition with_sessions (s : gmap Z SessionData) (w : World) : World :=
  {| fs := fs w; userSessions := s; tick := tick w; trace := trace w |}.

Fixpoint path_eqb (p q : list (list Z)) : bool :=
  match p, q with
  | [], [] => true
  | a :: p', b :: q' => str_eqb a b && path_eqb p' q'
  | _, _ => false
  end.

(** [p] is [q] or an ancestor of [q]. *)
Fixpoint path_within (p q : list (list Z)) : bool :=
  match p, q with
  | [], _ => true
  | a :: p', b :: q' => str_eqb a b && path_within p' q'
  | _ :: _, [] => false
  end.

Definition fs_lookup (f : list (list (list Z) * Node)) (p : list (list Z)) : option Node :=
  snd <$> find (fun entry => path_eqb (fst entry) p) f.

(** The ancestors of a path and the path itself, outermost first. *)
Definition path_chain (p : list (list Z)) : list (list (list Z)) :=
  (fun n => take n p) <$> seq 1 (length p).

Definition fs_mkdir (f : list (list (list Z) * Node)) (p : list (list Z))
    : list (list (list Z) * Node) :=
  match fs_lookup f p with
  | Some _ => f
  | None => f ++ [(p, Dir)]
  end.

Definition fs_children (f : list (list (list Z) * Node)) (p : list (list Z))
    : list (list Z) :=
  omap (fun entry =>
          match drop (length p) (fst entry) with
          | [name] => if path_within p (fst entry) then Some name else None
          | _ => None
          end) f.

(** The directory [dir] and all that was below it are gone. *)
Definition workspaceGone (dir : list (list Z)) (w : World) : Prop :=
  forall entry, entry ∈ fs w -> path_within dir (fst entry) = false.

Section WithEnv.
Variable env : Env.

(** [uuidv4()] *)
Definition uuidv4 : M (list Z) :=
  fun w => (Ok (uuid_at env (tick w)), bump w).

(** [Date.now()] *)
Definition Date_now : M Z :=
  fun w => (Ok (now_at env (tick w)), bump w).

(** [fs.ensureDir(p)]: creates the directory and its missing ancestors,
    unless the file system refuses. *)
Definition fs_ensureDir (p : list (list Z)) : M unit :=
  fun w =>
    match ensureDir_refused env (tick w) with
    | Some message => (Throw (JsError message), bump w)
    | None => (Ok tt, bump (with_fs (foldl fs_mkdir (fs w) (path_chain p)) w))
    end.

(** [fs.remove(p)]: deletes the path and everything below it; a missing path
    is no error, and the file system of this model refuses no removal. *)
Definition fs_remove (p : list (list Z)) : M unit :=
  fun w =>
    (Ok tt, with_fs (filter (fun entry => negb (path_within p (fst entry))) (fs w)) w).

(** [fs.readdir(p)] of fs-extra, which reads through graceful-fs: the names
    come back sorted. *)
Definition fs_readdir (p : list (list Z)) : M (list (list Z)) :=
  fun w =>
    match fs_lookup (fs w) p with
    | Some Dir => (Ok (Array_sort (fs_children (fs w) p)), w)
    | Some (File _) => (Throw (JsError (lit "ENOTDIR: not a directory")), w)
    | None => (Throw (JsError (lit "ENOENT: no such file or directory")), w)
    end.

(** [fs.stat(p)], of which the callers read the size; a directory reports
    the size of its own entry, which nothing here depends on. *)
Definition fs_stat (p : list (list Z)) : M Z :=
  fun w =>
    match fs_lookup (fs w) p with
    | Some (File size) => (Ok size, w)
    | Some Dir => (Ok 4096, w)
    | None => (Throw (JsError (lit "ENOENT: no such file or directory")), w)
    end.

(** [spawn('yt-dlp', args, ...)]: the child of the environment starts and
    its files appear in the output directory. *)
Definition spawn (args : list (list Z)) (outDir : list (list Z)) : M Child :=
  fun w =>
    let child := child_at env (tick w) args in
    let written :=
      (fun '(name, size) => (path_join outDir name, File size)) <$> child_files child in
    (Ok child,
     bump (record (EvSpawn args)
       (with_fs (filter (fun entry =>
                           negb (existsb (fun wr => path_eqb (fst wr) (fst entry)) written))
                        (fs w)
                 ++ written) w))).

(** One call of the chat service; the answer carries a message identifier. *)
Definition telegram (ev : Event) : M Z :=
  fun w =>
    match telegram_refused env (tick w) with
    | Some message => (Throw (JsError message), bump w)
    | None => (Ok (Z.of_nat (tick w)), bump (record ev w))
    end.

End WithEnv.

End Runtime.

(** ** utils/temp.ts: request workspaces *)
Module Temp.
Import JsString Runtime.

Section WithEnv.
Variable env : Env.

Definition TEMP_BASE_DIR : list (list Z) := path_join (cwd env) (lit "temp").

Definition createTempDir (requestId : list Z) : M (list (list Z)) :=
  let tempDir := path_join TEMP_BASE_DIR requestId in
  fs_ensureDir env tempDir ;;
  mret tempDir.

Definition cleanupTempDir (tempDir : list (list Z)) : M unit :=
  try_catch (fs_remove tempDir) (fun _ => mret tt).

End WithEnv.

End Temp.

(** ** services/downloader.ts: the yt-dlp driver *)
Module Downloader.
Import JsString Runtime Temp.

Record DownloadResult : Type := {
  success : bool;
  filePath : option (list (list Z));
  title : option (list Z);
  error : option (list Z);
  fileSize : option Z
}.

Record DownloaderConfig : Type := {
  downloadTimeout : Z;
  maxFileSizeMB : Z
}.

(** [{ success: false, error }] *)
Definition failure (message : list Z) : DownloadResult :=
  {| success := false; filePath := None; title := None;
     error := Some message; fileSize := None |}.

Definition MSG_PRIVATE : list Z :=
  lit "This content is private or requires authentication".
Definition MSG_REGION : list Z :=
  lit "This content is not available in your region".
Definition MSG_GONE : list Z :=
  lit "This content is no longer available".
Definition MSG_UNSUPPORTED : list Z :=
  lit "This URL is not supported".
Definition MSG_AUTH : list Z :=
  lit "Authentication required to access this content".
Definition MSG_GENERIC : list Z :=
  lit "Failed to download content".

Definition parseYtDlpError (errorOutput : list Z) : list Z :=
  let lowerError := toLowerCase errorOutput in
  if includes lowerError (lit "private") then MSG_PRIVATE
  else if includes lowerError (lit "geo") || includes lowerError (lit "blocked")
  then MSG_REGION
  else if includes lowerError (lit "unavailable") || includes lowerError (lit "deleted")
  then MSG_GONE
  else if includes lowerError (lit "unsupported") then MSG_UNSUPPORTED
  else if includes lowerError (lit "sign in") || includes lowerError (lit "login")
  then MSG_AUTH
  else MSG_GENERIC.

(** The classifier as the specification lays it out: an ordered table of
    rules, each a list of needles and a message.  A needle occurs in a text
    when the lower-cased text has it as a substring; the first rule with a
    needle that occurs decides, and the generic message is left when none
    does. *)
Definition spec_rules : list (list (list Z) * list Z) :=
  [ ([lit "private"], MSG_PRIVATE);
    ([lit "geo"; lit "blocked"], MSG_REGION);
    ([lit "unavailable"; lit "deleted"], MSG_GONE);
    ([lit "unsupported"], MSG_UNSUPPORTED);
    ([lit "sign in"; lit "login"], MSG_AUTH) ].

Definition occursIn (needle text : list Z) : Prop :=
  exists pre post, toLowerCase text = pre ++ needle ++ post.

Inductive firstMatch (text : list Z)
    : list (list (list Z) * list Z) -> list Z -> Prop :=
  | fm_none : firstMatch text [] MSG_GENERIC
  | fm_here needles message rest needle :
      needle ∈ needles ->
      occursIn needle text ->
      firstMatch text ((needles, message) :: rest) message
  | fm_later needles message rest m :
      (forall needle, needle ∈ needles -> ~ occursIn needle text) ->
      firstMatch text rest m ->
      firstMatch text ((needles, message) :: rest) m.

(** The table run as a program. *)
Definition spec_classify (rules : list (list (list Z) * list Z)) (text : list Z)
    : list Z :=
  match find (fun rule => existsb (includes (toLowerCase text)) (fst rule)) rules with
  | Some rule => snd rule
  | None => MSG_GENERIC
  end.

(** [mid] is [needle] up to the case of its ASCII letters. *)
Definition sameUpToCase (mid needle : list Z) : Prop :=
  Forall2 (fun c d => c = d \/ (isLowerAscii d = true /\ c = d - 32)) mid needle.

(** *** The argument vectors *)

Definition isInstagramUrl (url : list Z) : bool :=
  includes url (lit "instagram.com").

Definition OUTPUT_TEMPLATE : list Z := lit "%(title)s.%(ext)s".

Definition INSTAGRAM_CODEC_ARGS : list (list Z) :=
  [lit "--postprocessor-args";
   lit "ffmpeg:-c:v libx264 -c:a aac -pix_fmt yuv420p -movflags +faststart"].

Definition GENERIC_REMUX_ARGS : list (list Z) :=
  [lit "--remux-video"; lit "mp4"].

(** The vector of [runYtDlp] and of [runYtDlpLowerQuality], which differ in
    the two format selectors only. *)
Definition ytDlpArgs (instagramFormat genericFormat : list Z)
    (url : list Z) (tempDir : list (list Z)) : list (list Z) :=
  let outputPath := path_string (path_join tempDir OUTPUT_TEMPLATE) in
  let isInstagram := isInstagramUrl url in
  [lit "--no-playlist"; lit "--no-progress"]
  ++ (if isInstagram
      then [lit "-f"; instagramFormat; lit "--merge-output-format"; lit "mp4"]
           ++ INSTAGRAM_CODEC_ARGS
      else [lit "-f"; genericFormat; lit "--merge-output-format"; lit "mp4"]
           ++ GENERIC_REMUX_ARGS)
  ++ [lit "-o"; outputPath; url].

Definition runYtDlp_args : list Z -> list (list Z) -> list (list Z) :=
  ytDlpArgs (lit "bestvideo[ext=mp4]+bestaudio[ext=m4a]/best[ext=mp4]/best")
            (lit "bestvideo+bestaudio/best").

Definition runYtDlpLowerQuality_args : list Z -> list (list Z) -> list (list Z) :=
  ytDlpArgs
    (lit "bestvideo[height<=480][ext=mp4]+bestaudio[ext=m4a]/best[height<=480][ext=mp4]/best")
    (lit "bestvideo[height<=480]+bestaudio/best[height<=480]/best").

(** The host of a URL as the specification speaks of it: what stands between
    [://] and the next [/], [?] or [#]. *)
Fixpoint spec_afterScheme (url : list Z) : list Z :=
  match url with
  | [] => []
  | _ :: rest => if startsWith url (lit "://") then drop 3 url else spec_afterScheme rest
  end.

Fixpoint spec_untilPath (s : list Z) : list Z :=
  match s with
  | [] => []
  | c :: rest =>
      if (c =? 47) || (c =? 63) || (c =? 35) then [] else c :: spec_untilPath rest
  end.

Definition spec_urlHost (url : list Z) : list Z :=
  spec_untilPath (spec_afterScheme url).

(** *** One run of the child *)

Inductive Timer : Type :=
  | Armed (due : Z)
  | Cleared
  | Fired.

(** The state of one [new Promise(...)] of [runYtDlp]: its timer, the value
    it was resolved with, and the two buffers. *)
Record Attempt : Type := {
  timer : Timer;
  settled : option DownloadResult;
  output : list Z;
  errorOutput : list Z
}.

(** [setTimeout(f, ms)]: a delay below 1 or above 2^31 - 1 is taken as 1. *)
Definition timerDelay (ms : Z) : Z :=
  if (ms <? 1) || (2147483647 <? ms) then 1 else ms.

(** [resolve(r)]: only the first call settles the promise. *)
Definition resolve (r : DownloadResult) (a : Attempt) : Attempt :=
  match settled a with
  | Some _ => a
  | None => {| timer := timer a; settled := Some r;
               output := output a; errorOutput := errorOutput a |}
  end.

(** [clearTimeout(timeout)]: a timer that has fired stays fired. *)
Definition clearTimeout (a : Attempt) : Attempt :=
  match timer a with
  | Armed _ => {| timer := Cleared; settled := settled a;
                  output := output a; errorOutput := errorOutput a |}
  | _ => a
  end.

Definition isVideoFile (f : list Z) : bool :=
  endsWith f (lit ".mp4") || endsWith f (lit ".mkv")
  || endsWith f (lit ".webm") || endsWith f (lit ".mov").

(** The four extensions [isVideoFile] accepts. *)
Definition isVideoExtension (ext : list Z) : Prop :=
  ext = lit ".mp4" \/ ext = lit ".mkv" \/ ext = lit ".webm" \/ ext = lit ".mov".

(** [path.extname(name)] for a name without separators: from the last dot
    on, or empty when there is no dot or the only dot leads the name. *)
Fixpoint lastDot (s : list Z) (i : nat) : option nat :=
  match s with
  | [] => None
  | c :: s' =>
      match lastDot s' (S i) with
      | Some j => Some j
      | None => if c =? 46 then Some i else None
      end
  end.

Definition extname (name : list Z) : list Z :=
  match lastDot name 0 with
  | Some (S i) => drop (S i) name
  | _ => []
  end.

(** [path.basename(name, ext)] for a name without separators. *)
Definition basename (name ext : list Z) : list Z :=
  match ext with
  | [] => name
  | _ => if endsWith name ext && negb (str_eqb name ext)
         then take (length name - length ext) name
         else name
  end.

(** [title || 'Unknown'] *)
Definition orUnknown (t : list Z) : list Z :=
  match t with
  | [] => lit "Unknown"
  | _ => t
  end.

(** The child is over with [close] and with [error]. *)
Definition isExit (ev : ChildEvent) : bool :=
  match ev with
  | Close _ | SpawnError _ => true
  | StdoutData _ | StderrData _ => false
  end.

(** The time of the first [close] or [error] among events that follow time
    [t], in milliseconds since the spawn. *)
Fixpoint firstExit (evs : list (N * ChildEvent)) (t : Z) : option Z :=
  match evs with
  | [] => None
  | (delay, ev) :: evs' =>
      let t' := t + Z.of_N delay in
      if isExit ev then Some t' else firstExit evs' t'
  end.

(** The first [close] or [error] of the child, if it ever ends. *)
Fixpoint firstExitEvent (evs : list (N * ChildEvent)) : option ChildEvent :=
  match evs with
  | [] => None
  | (_, ev) :: evs' => if isExit ev then Some ev else firstExitEvent evs'
  end.

(** What the child wrote to its error stream before it ended, chunk after
    chunk. *)
Fixpoint stderrBefore (evs : list (N * ChildEvent)) : list Z :=
  match evs with
  | [] => []
  | (_, StderrData data) :: evs' => data ++ stderrBefore evs'
  | (_, StdoutData _) :: evs' => stderrBefore evs'
  | (_, (Close _ | SpawnError _)) :: _ => []
  end.

(** The same for its output stream. *)
Fixpoint stdoutBefore (evs : list (N * ChildEvent)) : list Z :=
  match evs with
  | [] => []
  | (_, StdoutData data) :: evs' => data ++ stdoutBefore evs'
  | (_, StderrData _) :: evs' => stdoutBefore evs'
  | (_, (Close _ | SpawnError _)) :: _ => []
  end.

(** A result of a run in [tempDir] is in good form when it is a success that
    points at a video file right below [tempDir] and carries a title that is
    not empty, or a failure that carries a message and points nowhere. *)
Definition goodResult (tempDir : list (list Z)) (r : DownloadResult) : Prop :=
  (success r = true
   /\ (exists videoFile,
         isVideoFile videoFile = true
         /\ filePath r = Some (path_join tempDir videoFile))
   /\ (exists t, title r = Some t /\ t <> [])
   /\ error r = None)
  \/ (success r = false
      /\ filePath r = None
      /\ (exists message, error r = Some message)).

(** What [download] hands back is complete when a success has, besides, the
    size of its file. *)
Definition completeResult (tempDir : list (list Z)) (r : DownloadResult) : Prop :=
  (success r = true
   /\ (exists videoFile size,
         isVideoFile videoFile = true
         /\ filePath r = Some (path_join tempDir videoFile)
         /\ fileSize r = Some size)
   /\ (exists t, title r = Some t /\ t <> [])
   /\ error r = None)
  \/ (success r = false
      /\ filePath r = None
      /\ (exists message, error r = Some message)).

Section WithEnv.
Variable env : Env.
Variable config : DownloaderConfig.

(** The callback of [setTimeout]. *)
Definition onTimeout (a : Attempt) : M Attempt :=
  fun w =>
    (Ok (resolve (failure (lit "Download timeout"))
           {| timer := Fired; settled := settled a;
              output := output a; errorOutput := errorOutput a |}),
     record EvKill w).

(** The listener of [close]. *)
Definition onClose (tempDir : list (list Z)) (code : option Z) (a : Attempt)
    : M Attempt :=
  let a := clearTimeout a in
  match code with
  | Some 0 =>
      try_catch
        (files ← fs_readdir tempDir;
         match find isVideoFile files with
         | Some videoFile =>
             let title := basename videoFile (extname videoFile) in
             mret (resolve
                     {| success := true;
                        filePath := Some (path_join tempDir videoFile);
                        title := Some (orUnknown title);
                        error := None; fileSize := None |} a)
         | None => mret (resolve (failure (lit "No video file found after download")) a)
         end)
        (fun _ => mret (resolve (failure (lit "Failed to find downloaded file")) a))
  | _ => mret (resolve (failure (parseYtDlpError (errorOutput a))) a)
  end.

(** The listener of [error]. *)
Definition onError (message : list Z) (a : Attempt) : M Attempt :=
  mret (resolve (failure (lit "yt-dlp failed to start: " ++ message)) (clearTimeout a)).

Definition onEvent (tempDir : list (list Z)) (ev : ChildEvent) (a : Attempt)
    : M Attempt :=
  match ev with
  | StdoutData data =>
      mret {| timer := timer a; settled := settled a;
              output := output a ++ data; errorOutput := errorOutput a |}
  | StderrData data =>
      mret {| timer := timer a; settled := settled a;
              output := output a; errorOutput := errorOutput a ++ data |}
  | Close code => onClose tempDir code a
  | SpawnError message => onError message a
  end.

(** The event loop lets an armed timer run once its time has come: before
    an event of the child that arrives at the due time or later ([horizon] is
    the time of that event), and in any case when the child has nothing more
    to say ([horizon] is [None]). *)
Definition fireIfDue (horizon : option Z) (a : Attempt) : M Attempt :=
  match timer a with
  | Armed due =>
      match horizon with
      | Some t => if due <=? t then onTimeout a else mret a
      | None => onTimeout a
      end
  | _ => mret a
  end.

(** The events of the child in order, [t] being the time of the last one. *)
Fixpoint runEvents (tempDir : list (list Z)) (evs : list (N * ChildEvent))
    (t : Z) (a : Attempt) : M Attempt :=
  match evs with
  | [] => fireIfDue None a
  | (delay, ev) :: evs' =>
      let t' := t + Z.of_N delay in
      a1 ← fireIfDue (Some t') a;
      a2 ← onEvent tempDir ev a1;
      runEvents tempDir evs' t' a2
  end.

(** The body shared by [runYtDlp] and [runYtDlpLowerQuality]: spawn, arm the
    timer, listen, and await the promise.  The listeners that run after the
    promise has settled touch nothing but the attempt itself, so the whole
    life of the child is played before the caller goes on; the attempt that
    comes back next to the result is its state when the child is long
    over. *)
Definition runChild (args : list (list Z)) (tempDir : list (list Z))
    : M (Attempt * DownloadResult) :=
  child ← spawn env args tempDir;
  let a0 := {| timer := Armed (timerDelay (downloadTimeout config * 1000));
               settled := None; output := []; errorOutput := [] |} in
  a ← runEvents tempDir (child_events child) 0 a0;
  match settled a with
  | Some r => mret (a, r)
  | None => pending
  end.

Definition runYtDlp (url : list Z) (tempDir : list (list Z)) (requestId : list Z)
    : M DownloadResult :=
  snd <$> runChild (runYtDlp_args url tempDir) tempDir.

Definition runYtDlpLowerQuality (url : list Z) (tempDir : list (list Z))
    (requestId : list Z) : M DownloadResult :=
  snd <$> runChild (runYtDlpLowerQuality_args url tempDir) tempDir.

Definition downloadLowerQuality (url : list Z) (requestId : list Z)
    : M DownloadResult :=
  tempDir ← createTempDir env requestId;
  try_catch
    (result ← runYtDlpLowerQuality url tempDir requestId;
     if negb (success result)
     then cleanupTempDir tempDir ;; mret result
     else
       match filePath result with
       | None => throw (JsError (lit "The path argument must be of type string"))
       | Some filePath_ =>
           size ← fs_stat filePath_;
           mret {| success := true; filePath := Some filePath_;
                   title := title result; error := None; fileSize := Some size |}
       end)
    (fun error_ =>
       cleanupTempDir tempDir ;;
       mret (failure (errorMessage error_))).

(** [fileSizeMB > maxFileSizeMB] with [fileSizeMB = size / (1024 * 1024)]:
    dividing by a power of two is exact, so the test compares the size in
    bytes with the limit in bytes. *)
Definition tooLarge (size : Z) : bool :=
  maxFileSizeMB config * (1024 * 1024) <? size.

Definition download (url : list Z) : M DownloadResult :=
  requestId ← uuidv4 env;
  tempDir ← createTempDir env requestId;
  startTime ← Date_now env;
  try_catch
    (result ← runYtDlp url tempDir requestId;
     if negb (success result)
     then cleanupTempDir tempDir ;; mret result
     else
       match filePath result with
       | None => throw (JsError (lit "The path argument must be of type string"))
       | Some filePath_ =>
           size ← fs_stat filePath_;
           _ ← Date_now env;
           if tooLarge size
           then cleanupTempDir tempDir ;; downloadLowerQuality url requestId
           else mret {| success := true; filePath := Some filePath_;
                        title := title result; error := None; fileSize := Some size |}
       end)
    (fun error_ =>
       cleanupTempDir tempDir ;;
       mret (failure (errorMessage error_))).

End WithEnv.

End Downloader.

(** ** index.ts: the configuration *)
Module Index.
Import JsString Downloader.

(** [value || fallback] for a string that may be undefined *)
Definition orDefault (value : option (list Z)) (fallback : list Z) : list Z :=
  match value with
  | Some (c :: s) => c :: s
  | _ => fallback
  end.

(** [parseInt(process.env.DOWNLOAD_TIMEOUT || '120', 10)] *)
Definition downloadTimeoutOf (DOWNLOAD_TIMEOUT : option (list Z)) : Access.Number :=
  Access.parseInt (orDefault DOWNLOAD_TIMEOUT (lit "120")).

(** [parseInt(process.env.MAX_FILE_SIZE_MB || '49', 10)] *)
Definition maxFileSizeMBOf (MAX_FILE_SIZE_MB : option (list Z)) : Access.Number :=
  Access.parseInt (orDefault MAX_FILE_SIZE_MB (lit "49")).

End Index.

(** ** bot/bot.ts: the message handler *)
Module Bot.
Import JsString Runtime Temp Downloader.

(** An entity of a message, as the chat service marks it in the text. *)
Record MessageEntity : Type := {
  entity_type : list Z;
  entity_offset : Z;
  entity_length : Z
}.

(** What the handlers and the router read of the update: [ctx.from?.id],
    the text of [ctx.message] when it has one, the entities of the message
    (none when the field is absent), and [ctx.chat?.id]. *)
Record Context : Type := {
  from_id : option Z;
  message_text : option (list Z);
  message_entities : list MessageEntity;
  chat_id : option Z
}.

Definition cooldownMs : Z := 5000.

Definition TEXT_DENIED : list Z :=
  10060 :: lit " Access denied. This bot is restricted to authorized users only.".
Definition TEXT_BUSY : list Z :=
  9203 :: lit " Please wait for the current download to complete.".
Definition TEXT_TOO_SOON : list Z :=
  9203 :: lit " Please wait a few seconds before sending another request.".
Definition TEXT_NO_URL : list Z :=
  10067 :: lit " Please send a valid URL. I support Instagram, TikTok, YouTube, Twitter, and more.".
Definition TEXT_DOWNLOADING : list Z :=
  [55357; 56580] ++ lit " Downloading...".
Definition TEXT_COMPLETE : list Z :=
  9989 :: lit " Download complete! Sending video...".

(** The status messages among the events: one for each link taken up. *)
Definition statusMessages (events : list Event) : nat :=
  length (omap (fun ev =>
                  match ev with
                  | EvReply text => if str_eqb text TEXT_DOWNLOADING then Some tt else None
                  | _ => None
                  end) events).

(** A value inside a template literal. *)
Definition interpolate (v : option (list Z)) : list Z :=
  match v with
  | Some s => s
  | None => lit "undefined"
  end.

Definition escapeTitle (title_ : list Z) : list Z :=
  replaceAll 62 (lit "&gt;") (replaceAll 60 (lit "&lt;") (replaceAll 38 (lit "&amp;") title_)).

Definition buildCaption (url : list Z) (title_ : option (list Z)) : list Z :=
  let caption := [] in
  let caption :=
    match title_ with
    | Some (c :: t) =>
        if negb (str_eqb (c :: t) (lit "Unknown"))
        then caption ++ (lit "<b>" ++ escapeTitle (c :: t) ++ lit "</b>" ++ [10])
        else caption
    | _ => caption
    end in
  let caption :=
    caption ++ ([10; 55357; 56599; 32] ++ lit "<a href=" ++ [34] ++ url ++ [34]
                ++ lit ">Source</a>") in
  if (1024 <? length caption)%nat
  then substring0 1021 caption ++ lit "..."
  else caption.

(** The two lines of a caption as the specification names them. *)
Definition spec_entity (c : Z) : list Z :=
  if c =? 38 then lit "&amp;"
  else if c =? 60 then lit "&lt;"
  else if c =? 62 then lit "&gt;"
  else [c].

Definition spec_titleLine (title_ : option (list Z)) : list Z :=
  match title_ with
  | None => []
  | Some t =>
      if str_eqb t [] || str_eqb t (lit "Unknown") then []
      else lit "<b>" ++ flat_map spec_entity t ++ lit "</b>" ++ [10]
  end.

Definition spec_sourceLine (url : list Z) : list Z :=
  [10; 55357; 56599; 32] ++ lit "<a href=" ++ [34] ++ url ++ [34] ++ lit ">Source</a>".

(** [for (const x of items) { await body(x) }] *)
Fixpoint forEach {A : Type} (items : list A) (body : A -> M unit) : M unit :=
  match items with
  | [] => mret tt
  | x :: rest => body x ;; forEach rest body
  end.


Section WithEnv.
Variable env : Env.
Variable accessControl : Access.AccessControl.
Variable config : DownloaderConfig.

(** Whether Telegraf takes the update for the [/start] command.  The library
    decides that from the entities of the message and the name of the bot;
    this program only registers the handler. *)
Variable startCommand : Context -> bool.

Definition reply (text : list Z) : M Z := telegram env (EvReply text).

Definition getSession (userId : Z) : M (option SessionData) :=
  fun w => (Ok (userSessions w !! userId), w).

Definition setSession (userId : Z) (s : SessionData) : M unit :=
  fun w => (Ok tt, with_sessions (<[userId := s]> (userSessions w)) w).

Definition sendVideo (ctx : Context) (result : DownloadResult) (url : list Z)
    : M unit :=
  match filePath result with
  | None => mret tt
  | Some filePath_ =>
      let caption := buildCaption url (title result) in
      try_finally
        (try_catch
           (telegram env (EvVideo filePath_ caption) ;; mret tt)
           (fun _ =>
              try_catch
                (telegram env (EvDocument filePath_ caption) ;; mret tt)
                (fun _ =>
                   reply (10060 :: lit " Failed to send file: " ++ interpolate (title result)) ;;
                   mret tt)))
        (catch_ignore (cleanupTempDir filePath_))
  end.

Definition processUrl (ctx : Context) (url : list Z) (userId : Z) : M unit :=
  statusMessage ← reply TEXT_DOWNLOADING;
  match chat_id ctx with
  | None => mret tt
  | Some chatId =>
      try_catch
        (result ← download env config url;
         if negb (success result)
         then
           telegram env
             (EvEditMessageText chatId statusMessage
                (10060 :: lit " Error: " ++ interpolate (error result))) ;;
           mret tt
         else
           telegram env (EvEditMessageText chatId statusMessage TEXT_COMPLETE) ;;
           sendVideo ctx result url ;;
           catch_ignore (telegram env (EvDeleteMessage chatId statusMessage) ;; mret tt))
        (fun error_ =>
           telegram env
             (EvEditMessageText chatId statusMessage
                (10060 :: lit " Failed to process: " ++ errorMessage error_)) ;;
           mret tt)
  end.

(** [session && Date.now() - session.lastRequestTime < this.cooldownMs]:
    the clock is read only when there is a session. *)
Definition tooSoonAfter (session : option SessionData) : M bool :=
  match session with
  | Some s =>
      now ← Date_now env;
      mret (now - lastRequestTime s <? cooldownMs)
  | None => mret false
  end.

(** The part of the handler that runs once a batch is accepted. *)
Definition runBatch (ctx : Context) (userId : Z) (urls : list (list Z)) : M unit :=
  now ← Date_now env;
  setSession userId {| isProcessing := true; lastRequestTime := now |} ;;
  try_finally
    (forEach urls (fun url => processUrl ctx url userId))
    (now' ← Date_now env;
     setSession userId {| isProcessing := false; lastRequestTime := now' |}).

(** [this.bot.on('message', async (ctx) => ...)] *)
Definition onMessage (ctx : Context) : M unit :=
  match from_id ctx with
  | None => mret tt
  | Some userId =>
      if userId =? 0 then mret tt
      else
        match message_text ctx with
        | None | Some [] => mret tt
        | Some text =>
            if negb (Access.isAllowed accessControl userId)
            then reply TEXT_DENIED ;; mret tt
            else
              session ← getSession userId;
              if match session with
                 | Some s => isProcessing s
                 | None => false
                 end
              then reply TEXT_BUSY ;; mret tt
              else
                tooSoon ← tooSoonAfter session;
                if (tooSoon : bool)
                then reply TEXT_TOO_SOON ;; mret tt
                else
                  match Url.extractUrls text with
                  | [] => reply TEXT_NO_URL ;; mret tt
                  | urls => runBatch ctx userId urls
                  end
        end
  end.



End WithEnv.

End Bot.

(** ** Scenarios

    Concrete environments on which the embedding is run. *)
Module Scenario.
Import JsString Runtime Downloader Bot.

Definition emptyWorld : World :=
  {| fs := []; userSessions := ∅; tick := 0; trace := [] |}.

Definition config49 : DownloaderConfig :=
  {| downloadTimeout := 120; maxFileSizeMB := 49 |}.

(** The child ends well after three seconds and leaves one video of the
    given size; nothing refuses anything. *)
Definition calmEnv (size : Z) : Env :=
  {| cwd := [lit "app"];
     uuid_at := fun _ => lit "3f2b8c1e";
     now_at := fun n => 1700000000000 + 1000 * Z.of_nat n;
     ensureDir_refused := fun _ => None;
     child_at := fun _ _ =>
       {| child_events := [(3000%N, Close (Some 0))];
          child_files := [(lit "My Clip.mp4", size)] |};
     telegram_refused := fun _ => None |}.

(** The child hangs: it writes to its error stream and never ends. *)
Definition hangingEnv : Env :=
  {| cwd := [lit "app"];
     uuid_at := fun _ => lit "3f2b8c1e";
     now_at := fun n => 1700000000000 + 1000 * Z.of_nat n;
     ensureDir_refused := fun _ => None;
     child_at := fun _ _ =>
       {| child_events := [(500%N, StderrData (lit "WARNING: slow"))];
          child_files := [(lit "My Clip.mp4.part", 1000)] |};
     telegram_refused := fun _ => None |}.

(** The chat service refuses every call. *)
Definition deafEnv : Env :=
  {| cwd := [lit "app"];
     uuid_at := fun _ => lit "3f2b8c1e";
     now_at := fun n => 1700000000000 + 1000 * Z.of_nat n;
     ensureDir_refused := fun _ => None;
     child_at := fun _ _ =>
       {| child_events := [(3000%N, Close (Some 0))];
          child_files := [(lit "My Clip.mp4", 1000)] |};
     telegram_refused := fun _ => Some (lit "ETIMEDOUT") |}.

(** The child writes a complaint to its error stream, a progress line to its
    output, and exits with code 1 after two seconds. *)
Definition failingEnv : Env :=
  {| cwd := [lit "app"];
     uuid_at := fun _ => lit "3f2b8c1e";
     now_at := fun n => 1700000000000 + 1000 * Z.of_nat n;
     ensureDir_refused := fun _ => None;
     child_at := fun _ _ =>
       {| child_events :=
            [(500%N, StdoutData (lit "[youtube] geo lookup"));
             (500%N, StderrData (lit "ERROR: This video is "));
             (500%N, StderrData (lit "PRIVATE"));
             (500%N, Close (Some 1))];
          child_files := [] |};
     telegram_refused := fun _ => None |}.

(** The tool is not installed: spawning fails at once. *)
Definition missingToolEnv : Env :=
  {| cwd := [lit "app"];
     uuid_at := fun _ => lit "3f2b8c1e";
     now_at := fun n => 1700000000000 + 1000 * Z.of_nat n;
     ensureDir_refused := fun _ => None;
     child_at := fun _ _ =>
       {| child_events := [(5%N, SpawnError (lit "spawn yt-dlp ENOENT"))];
          child_files := [] |};
     telegram_refused := fun _ => None |}.

(** The child ends well but leaves a sound track only. *)
Definition soundOnlyEnv : Env :=
  {| cwd := [lit "app"];
     uuid_at := fun _ => lit "3f2b8c1e";
     now_at := fun n => 1700000000000 + 1000 * Z.of_nat n;
     ensureDir_refused := fun _ => None;
     child_at := fun _ _ =>
       {| child_events := [(3000%N, Close (Some 0))];
          child_files := [(lit "My Clip.m4a", 1000)] |};
     telegram_refused := fun _ => None |}.

(** The chat service refuses the first call made to it and no other. *)
Definition firstRefusedEnv : Env :=
  {| cwd := [lit "app"];
     uuid_at := fun _ => lit "3f2b8c1e";
     now_at := fun n => 1700000000000 + 1000 * Z.of_nat n;
     ensureDir_refused := fun _ => None;
     child_at := fun _ _ =>
       {| child_events := [(3000%N, Close (Some 0))];
          child_files := [(lit "My Clip.mp4", 1000)] |};
     telegram_refused := fun n =>
       match n with
       | O => Some (lit "Bad Request: wrong file identifier")
       | S _ => None
       end |}.

(** The child ends well and leaves two videos, written in this order. *)
Definition twoFilesEnv : Env :=
  {| cwd := [lit "app"];
     uuid_at := fun _ => lit "3f2b8c1e";
     now_at := fun n => 1700000000000 + 1000 * Z.of_nat n;
     ensureDir_refused := fun _ => None;
     child_at := fun _ _ =>
       {| child_events := [(3000%N, Close (Some 0))];
          child_files := [(lit "b.mp4", 10); (lit "a.mkv", 20)] |};
     telegram_refused := fun _ => None |}.

Definition workspace : list (list Z) :=
  [lit "app"; lit "temp"; lit "3f2b8c1e"].

Definition allowList : Access.AccessControl := Access.newAccessControl (lit "7,8").

(** A plain text message: no entities. *)
Definition message (userId : Z) (text : string) : Context :=
  {| from_id := Some userId; message_text := Some (lit text);
     message_entities := []; chat_id := Some 99 |}.



End Scenario.

(** * Part II: the properties *)

(** ** Strings *)
Module JsStringFacts.
Import JsString.

Lemma str_eqb_eq (a b : list Z) : str_eqb a b = true <-> a = b.
Proof.
  revert b. induction a as [|c a IH]; intros [|d b]; simpl; try (split; congruence).
  rewrite andb_true_iff, Z.eqb_eq, IH. split.
  - intros [-> ->]. reflexivity.
  - intros [= -> ->]. split; reflexivity.
Qed.

Lemma str_eqb_refl (a : list Z) : str_eqb a a = true.
Proof. apply str_eqb_eq. reflexivity. Qed.

Lemma str_eqb_neq (a b : list Z) : str_eqb a b = false <-> a <> b.
Proof.
  rewrite <- str_eqb_eq. destruct (str_eqb a b); split; congruence.
Qed.

Lemma startsWith_spec (s p : list Z) :
  startsWith s p = true <-> exists post, s = p ++ post.
Proof.
  revert s. induction p as [|c p IH]; intros s; simpl.
  - split; [intros _; exists s; reflexivity | reflexivity].
  - destruct s as [|d s].
    + split; [discriminate | intros [post [=]]].
    + rewrite andb_true_iff, Z.eqb_eq, IH. split.
      * intros [-> [post ->]]. exists post. reflexivity.
      * intros [post [= -> ->]]. split; [reflexivity | exists post; reflexivity].
Qed.

Lemma includes_spec (s needle : list Z) :
  includes s needle = true <-> isSubstring needle s.
Proof.
  unfold isSubstring. induction s as [|d s IH]; simpl.
  - rewrite orb_false_r, startsWith_spec. split.
    + intros [post ->]. exists [], post. reflexivity.
    + intros [[|x pre] [post E]]; [exists post; exact E | discriminate].
  - rewrite orb_true_iff, startsWith_spec, IH. split.
    + intros [[post ->] | [pre [post ->]]].
      * exists [], post. reflexivity.
      * exists (d :: pre), post. reflexivity.
    + intros [[|x pre] [post E]].
      * left. exists post. exact E.
      * right. injection E as -> ->. exists pre, post. reflexivity.
Qed.

Lemma includes_false (s needle : list Z) :
  includes s needle = false <-> ~ isSubstring needle s.
Proof.
  rewrite <- includes_spec. destruct (includes s needle); split; congruence.
Qed.

Lemma toLowerCase_app (a b : list Z) :
  toLowerCase (a ++ b) = toLowerCase a ++ toLowerCase b.
Proof. apply flat_map_app. Qed.

Lemma replaceAll_app (c : Z) (r a b : list Z) :
  replaceAll c r (a ++ b) = replaceAll c r a ++ replaceAll c r b.
Proof. apply flat_map_app. Qed.

Lemma elem_of_sortedInsert (x y : list Z) (names : list (list Z)) :
  y ∈ sortedInsert x names <-> y = x \/ y ∈ names.
Proof.
  induction names as [|z names IH]; simpl.
  - rewrite list_elem_of_singleton, elem_of_nil. tauto.
  - destruct (str_leb x z); rewrite !elem_of_cons; [tauto|]. rewrite IH. tauto.
Qed.

(** Sorting keeps the names: what is listed is what is there. *)
Lemma elem_of_Array_sort (y : list Z) (names : list (list Z)) :
  y ∈ Array_sort names <-> y ∈ names.
Proof.
  unfold Array_sort. induction names as [|x names IH]; simpl; [tauto|].
  rewrite elem_of_sortedInsert, elem_of_cons, IH. tauto.
Qed.

Lemma find_None_elem {A : Type} (P : A -> bool) (l : list A) :
  find P l = None <-> forall x, x ∈ l -> P x = false.
Proof.
  induction l as [|a l IH]; simpl.
  - split; [intros _ x H; apply elem_of_nil in H; contradiction | reflexivity].
  - destruct (P a) eqn:E.
    + split; [discriminate|]. intros H. rewrite (H a) in E by left. discriminate.
    + rewrite IH. split.
      * intros H x Hx. apply elem_of_cons in Hx as [-> | Hx]; auto.
      * intros H x Hx. apply H. right. exact Hx.
Qed.

Lemma find_Array_sort_None (P : list Z -> bool) (names : list (list Z)) :
  find P (Array_sort names) = None <-> find P names = None.
Proof.
  rewrite !find_None_elem. split; intros H x Hx; apply H, elem_of_Array_sort, Hx.
Qed.

End JsStringFacts.

(** ** The error classifier *)
Module ClassifierFacts.
Import JsString JsStringFacts Downloader.

Lemma occursIn_includes (needle text : list Z) :
  occursIn needle text <-> includes (toLowerCase text) needle = true.
Proof. symmetry. apply includes_spec. Qed.

Lemma existsb_occursIn (text : list Z) (needles : list (list Z)) :
  existsb (includes (toLowerCase text)) needles = true
  <-> exists needle, needle ∈ needles /\ occursIn needle text.
Proof.
  rewrite existsb_exists. split; intros [n [Hin Hn]]; exists n.
  - split; [apply list_elem_of_In, Hin | apply occursIn_includes, Hn].
  - split; [apply list_elem_of_In, Hin | apply occursIn_includes, Hn].
Qed.

Lemma spec_classify_firstMatch (text : list Z) (rules : list (list (list Z) * list Z)) :
  firstMatch text rules (spec_classify rules text).
Proof.
  unfold spec_classify. induction rules as [|[needles message] rest IH]; simpl.
  - constructor.
  - destruct (existsb (includes (toLowerCase text)) needles) eqn:E; simpl.
    + apply existsb_occursIn in E as [needle [Hin Hocc]].
      eapply fm_here; eassumption.
    + apply fm_later; [|exact IH].
      intros needle Hin Hocc.
      assert (existsb (includes (toLowerCase text)) needles = true) as E'
        by (apply existsb_occursIn; eauto).
      congruence.
Qed.

Lemma firstMatch_functional (text : list Z) (rules : list (list (list Z) * list Z))
    (m1 m2 : list Z) :
  firstMatch text rules m1 -> firstMatch text rules m2 -> m1 = m2.
Proof.
  intros H1. revert m2.
  induction H1 as [|needles message rest needle Hin Hocc
                   |needles message rest m Hnone H1 IH];
    intros m2 H2; inversion H2; subst.
  all: try reflexivity.
  all: try (exfalso;
            match goal with
            | H : forall n, n ∈ _ -> ~ occursIn n _ |- _ => eapply H; eassumption
            end).
  match goal with
  | H : forall m2, firstMatch _ _ m2 -> _ = m2 |- _ => apply H; assumption
  end.
Qed.

Lemma parseYtDlpError_classify (errorOutput : list Z) :
  parseYtDlpError errorOutput = spec_classify spec_rules errorOutput.
Proof.
  unfold parseYtDlpError, spec_classify, spec_rules. simpl.
  repeat match goal with
         | |- context [includes ?s ?n] => destruct (includes s n); simpl
         end; reflexivity.
Qed.

(** A needle made of lower-case letters and of units without case is what
    lower-casing makes of any of its case variants. *)
Lemma sameUpToCase_lower (mid needle : list Z) :
  Forall (fun d => lowerUnit d = [d]) needle ->
  sameUpToCase mid needle ->
  toLowerCase mid = needle.
Proof.
  intros Hst Hsame. induction Hsame as [|c d mid needle Hcd _ IH]; [reflexivity|].
  inversion Hst as [|? ? Hd Hrest]; subst.
  change (toLowerCase (c :: mid)) with (lowerUnit c ++ toLowerCase mid).
  rewrite (IH Hrest). destruct Hcd as [-> | [Hlow ->]].
  - rewrite Hd. reflexivity.
  - unfold isLowerAscii in Hlow. apply andb_true_iff in Hlow as [H1 H2].
    apply Z.leb_le in H1, H2. unfold lowerUnit, isUpperAscii.
    replace ((65 <=? d - 32) && (d - 32 <=? 90)) with true
      by (symmetry; apply andb_true_iff; split; apply Z.leb_le; lia).
    simpl. f_equal. f_equal. lia.
Qed.

(** C4.  The classifier applies the ordered rule table of the specification:
    for every diagnostic text, the message it returns is the one and only
    message that the first-match reading of the table allows (private, then
    geo or blocked, then unavailable or deleted, then unsupported, then sign
    in or login, else the generic message), needles being looked for in the
    lower-cased text.  In particular a text that holds the word private in
    any mix of upper and lower case, whatever stands around it, gets the
    private-content message. *)
Theorem parseYtDlpError_first_match (errorOutput : list Z) :
  (forall m, firstMatch errorOutput spec_rules m <-> m = parseYtDlpError errorOutput)
  /\ (forall pre mid post,
         errorOutput = pre ++ mid ++ post ->
         sameUpToCase mid (lit "private") ->
         parseYtDlpError errorOutput = MSG_PRIVATE).
Proof.
  split.
  - intros m. split.
    + intros Hm. eapply firstMatch_functional; [exact Hm|].
      rewrite parseYtDlpError_classify. apply spec_classify_firstMatch.
    + intros ->. rewrite parseYtDlpError_classify. apply spec_classify_firstMatch.
  - intros pre mid post -> Hsame.
    assert (toLowerCase mid = lit "private") as Hmid.
    { apply sameUpToCase_lower; [|exact Hsame].
      repeat constructor. }
    unfold parseYtDlpError.
    replace (includes (toLowerCase (pre ++ mid ++ post)) (lit "private")) with true;
      [reflexivity|].
    symmetry. apply includes_spec.
    exists (toLowerCase pre), (toLowerCase post).
    rewrite !toLowerCase_app, Hmid. reflexivity.
Qed.

Lemma parseYtDlpError_first_match_witness :
  parseYtDlpError (lit "ERROR: [youtube] abc: PrIvAtE video. Sign in if you can")
  = MSG_PRIVATE.
Proof.
  apply (proj2 (parseYtDlpError_first_match _)
           (lit "ERROR: [youtube] abc: ") (lit "PrIvAtE")
           (lit " video. Sign in if you can")).
  - reflexivity.
  - unfold sameUpToCase.
    let mid := eval vm_compute in (lit "PrIvAtE") in
    let needle := eval vm_compute in (lit "private") in
    change (Forall2 (fun c d => c = d \/ (isLowerAscii d = true /\ c = d - 32))
              mid needle).
    repeat (constructor;
            [first [left; reflexivity | right; split; reflexivity]|]).
    constructor.
Defined.

End ClassifierFacts.

(** ** The argument vectors of the child *)
Module ArgumentFacts.
Import JsString JsStringFacts Runtime Downloader.

(** C7, as stated, fails: the test looks at the whole URL, so a link to
    another host that merely carries [instagram.com] in its path gets the
    platform-specific vector. *)
Lemma instagram_in_path_counterexample :
  let url := lit "https://example.com/instagram.com" in
  spec_urlHost url = lit "example.com"
  /\ includes (spec_urlHost url) (lit "instagram.com") = false
  /\ runYtDlp_args url [lit "tmp"]
     = [lit "--no-playlist"; lit "--no-progress"; lit "-f";
        lit "bestvideo[ext=mp4]+bestaudio[ext=m4a]/best[ext=mp4]/best";
        lit "--merge-output-format"; lit "mp4"; lit "--postprocessor-args";
        lit "ffmpeg:-c:v libx264 -c:a aac -pix_fmt yuv420p -movflags +faststart";
        lit "-o"; lit "/tmp/%(title)s.%(ext)s"; url].
Proof. vm_compute. repeat split; reflexivity. Qed.

(** C7, amended.  For every URL, both argument vectors take the
    platform-specific branch (stricter selector, forced H.264/AAC
    re-encoding) exactly when the URL string holds [instagram.com] somewhere,
    compared unit by unit; every other URL gets the generic
    best-video-plus-audio arguments with a remux to mp4. *)
Theorem ytDlp_args_branch (url : list Z) (tempDir : list (list Z)) :
  let out := path_string (path_join tempDir OUTPUT_TEMPLATE) in
  (isSubstring (lit "instagram.com") url
   /\ runYtDlp_args url tempDir
      = [lit "--no-playlist"; lit "--no-progress"; lit "-f";
         lit "bestvideo[ext=mp4]+bestaudio[ext=m4a]/best[ext=mp4]/best";
         lit "--merge-output-format"; lit "mp4"]
        ++ INSTAGRAM_CODEC_ARGS ++ [lit "-o"; out; url]
   /\ runYtDlpLowerQuality_args url tempDir
      = [lit "--no-playlist"; lit "--no-progress"; lit "-f";
         lit "bestvideo[height<=480][ext=mp4]+bestaudio[ext=m4a]/best[height<=480][ext=mp4]/best";
         lit "--merge-output-format"; lit "mp4"]
        ++ INSTAGRAM_CODEC_ARGS ++ [lit "-o"; out; url])
  \/ (~ isSubstring (lit "instagram.com") url
      /\ runYtDlp_args url tempDir
         = [lit "--no-playlist"; lit "--no-progress"; lit "-f";
            lit "bestvideo+bestaudio/best";
            lit "--merge-output-format"; lit "mp4"]
           ++ GENERIC_REMUX_ARGS ++ [lit "-o"; out; url]
      /\ runYtDlpLowerQuality_args url tempDir
         = [lit "--no-playlist"; lit "--no-progress"; lit "-f";
            lit "bestvideo[height<=480]+bestaudio/best[height<=480]/best";
            lit "--merge-output-format"; lit "mp4"]
           ++ GENERIC_REMUX_ARGS ++ [lit "-o"; out; url]).
Proof.
  intros out. unfold runYtDlp_args, runYtDlpLowerQuality_args, ytDlpArgs, isInstagramUrl.
  fold out. destruct (includes url (lit "instagram.com")) eqn:E.
  - left. apply includes_spec in E. repeat split; [exact E|..]; reflexivity.
  - right. apply includes_false in E. repeat split; [exact E|..]; reflexivity.
Qed.

End ArgumentFacts.

(** ** Captions *)
Module CaptionFacts.
Import JsString JsStringFacts Bot.

Lemma replaceAll_cons (c : Z) (r : list Z) (d : Z) (s : list Z) :
  replaceAll c r (d :: s) = (if d =? c then r else [d]) ++ replaceAll c r s.
Proof. reflexivity. Qed.

(** The three replacements in a row amount to one pass with the entity
    table. *)
Lemma escapeTitle_entities (t : list Z) :
  escapeTitle t = flat_map spec_entity t.
Proof.
  unfold escapeTitle. induction t as [|c t IH]; [reflexivity|].
  rewrite replaceAll_cons, !replaceAll_app, IH.
  change (flat_map spec_entity (c :: t)) with (spec_entity c ++ flat_map spec_entity t).
  f_equal. unfold spec_entity.
  destruct (c =? 38) eqn:E38; [reflexivity|].
  rewrite replaceAll_cons, app_nil_r.
  destruct (c =? 60) eqn:E60; [reflexivity|].
  rewrite replaceAll_cons, app_nil_r.
  destruct (c =? 62) eqn:E62; reflexivity.
Qed.

Lemma buildCaption_unfold (url : list Z) (title_ : option (list Z)) :
  buildCaption url title_
  = let assembled := spec_titleLine title_ ++ spec_sourceLine url in
    if (1024 <? length assembled)%nat
    then take 1021 assembled ++ lit "..."
    else assembled.
Proof.
  unfold buildCaption, spec_titleLine, spec_sourceLine, substring0.
  destruct title_ as [[|c t]|]; try reflexivity.
  change (str_eqb (c :: t) []) with false. rewrite orb_false_l.
  destruct (str_eqb (c :: t) (lit "Unknown")); simpl negb; cbv iota;
    rewrite ?escapeTitle_entities; reflexivity.
Qed.

(** C9.  For every URL and title, the caption is the title line (there only
    for a title that is present, not empty and not the placeholder [Unknown],
    with [&], [<] and [>] replaced by their entities, in bold, ending in a
    line break) followed by the source-link line; it never has more than 1024
    code units; and when the two lines together have more, the caption is
    their first 1021 units followed by three dots, 1024 units in all. *)
Theorem buildCaption_shape (url : list Z) (title_ : option (list Z)) :
  let assembled := spec_titleLine title_ ++ spec_sourceLine url in
  (length (buildCaption url title_) <= 1024)%nat
  /\ ((length assembled <= 1024)%nat -> buildCaption url title_ = assembled)
  /\ ((1024 < length assembled)%nat ->
      buildCaption url title_ = take 1021 assembled ++ lit "..."
      /\ length (buildCaption url title_) = 1024%nat).
Proof.
  intros assembled. rewrite buildCaption_unfold. fold assembled. cbv zeta.
  destruct (1024 <? length assembled)%nat eqn:E.
  - apply Nat.ltb_lt in E.
    assert (length (take 1021 assembled ++ lit "...") = 1024%nat) as Hlen.
    { rewrite length_app, length_take. change (length (lit "...")) with 3%nat. lia. }
    repeat split; [lia | intros; lia | exact Hlen].
  - apply Nat.ltb_ge in E. repeat split; [lia | intros; lia ..].
Qed.

Lemma buildCaption_shape_witness :
  buildCaption (repeat 97 1100) (Some (lit "Tom & <Jerry>"))
  = take 1021 (spec_titleLine (Some (lit "Tom & <Jerry>"))
               ++ spec_sourceLine (repeat 97 1100))
    ++ lit "..."
  /\ length (buildCaption (repeat 97 1100) (Some (lit "Tom & <Jerry>"))) = 1024%nat.
Proof.
  apply (proj2 (proj2 (buildCaption_shape (repeat 97 1100) (Some (lit "Tom & <Jerry>"))))).
  vm_compute. lia.
Defined.

End CaptionFacts.

(** ** The allow-list *)
Module AccessFacts.
Import JsString JsStringFacts Access.

Local Abbreviation white := (fun c => isWhiteSpace c = true).
Local Abbreviation digit := (fun c => isDigit c = true).

Lemma digit_not_white (c : Z) : isDigit c = true -> isWhiteSpace c = false.
Proof.
  unfold isDigit, isWhiteSpace. intros H.
  apply andb_true_iff in H as [H1 H2]. apply Z.leb_le in H1, H2.
  repeat (apply orb_false_iff; split);
    first [ apply Z.eqb_neq; lia
          | apply andb_false_iff; first [left; apply Z.leb_gt; lia | right; apply Z.leb_gt; lia] ].
Qed.

Lemma white_not_digit (c : Z) : isWhiteSpace c = true -> isDigit c = false.
Proof.
  intros H. destruct (isDigit c) eqn:E; [|reflexivity].
  apply digit_not_white in E. congruence.
Qed.

Lemma trimStart_split (s : list Z) :
  exists ws, s = ws ++ trimStart s /\ Forall white ws.
Proof.
  induction s as [|c s [ws [E Hws]]]; simpl.
  - exists []. split; [reflexivity | constructor].
  - destruct (isWhiteSpace c) eqn:Ec.
    + exists (c :: ws). split; [simpl; f_equal; exact E | constructor; assumption].
    + exists []. split; [reflexivity | constructor].
Qed.

Lemma trimStart_white_app (ws x : list Z) :
  Forall white ws -> trimStart (ws ++ x) = trimStart x.
Proof.
  induction 1 as [|c ws Hc _ IH]; [reflexivity|]. simpl. rewrite Hc. exact IH.
Qed.

Lemma trimStart_nonwhite (c : Z) (x : list Z) :
  isWhiteSpace c = false -> trimStart (c :: x) = c :: x.
Proof. intros H. simpl. rewrite H. reflexivity. Qed.

Lemma trimStart_app_nonwhite (x : list Z) (c : Z) (y : list Z) :
  isWhiteSpace c = false -> trimStart (x ++ c :: y) = trimStart x ++ c :: y.
Proof.
  intros Hc. induction x as [|d x IH]; simpl.
  - rewrite Hc. reflexivity.
  - destruct (isWhiteSpace d); [exact IH | reflexivity].
Qed.

Lemma trimEnd_split (s : list Z) :
  exists ws, s = trimEnd s ++ ws /\ Forall white ws.
Proof.
  unfold trimEnd. destruct (trimStart_split (rev s)) as [ws [E Hws]].
  exists (rev ws). split.
  - rewrite <- rev_app_distr, <- E, rev_involutive. reflexivity.
  - apply Forall_rev. exact Hws.
Qed.

Lemma trimEnd_app_nonwhite (a : list Z) (c : Z) (b : list Z) :
  isWhiteSpace c = false -> trimEnd (a ++ c :: b) = a ++ c :: trimEnd b.
Proof.
  intros Hc. unfold trimEnd.
  rewrite rev_app_distr. simpl rev. rewrite <- app_assoc. simpl app.
  rewrite trimStart_app_nonwhite by exact Hc.
  rewrite rev_app_distr. simpl rev. rewrite rev_involutive, <- app_assoc. reflexivity.
Qed.

Lemma takeDigits_split (s : list Z) :
  exists rest, s = takeDigits s ++ rest
    /\ Forall digit (takeDigits s)
    /\ match rest with c :: _ => isDigit c = false | [] => True end.
Proof.
  induction s as [|c s [rest [E [Hd Hr]]]]; simpl.
  - exists []. repeat split. constructor.
  - destruct (isDigit c) eqn:Ec.
    + exists rest. repeat split; [simpl; f_equal; exact E | constructor; assumption | assumption].
    + exists (c :: s). repeat split; [constructor | assumption].
Qed.

Lemma takeDigits_app (ds rest : list Z) :
  Forall digit ds ->
  match rest with c :: _ => isDigit c = false | [] => True end ->
  takeDigits (ds ++ rest) = ds.
Proof.
  intros Hd Hr. induction Hd as [|c ds Hc _ IH]; simpl.
  - destruct rest as [|c rest]; [reflexivity|]. simpl. rewrite Hr. reflexivity.
  - rewrite Hc, IH. reflexivity.
Qed.

(** [parseInt] reads exactly the leading integer of its argument. *)
Lemma mathInt_leadingInteger (s : list Z) (z : Z) :
  mathInt s = Some z <-> leadingInteger s z.
Proof.
  unfold mathInt, leadingInteger. split.
  - destruct (trimStart_split s) as [ws [E Hws]].
    destruct (trimStart s) as [|c r] eqn:Et.
    + simpl. discriminate.
    + destruct (c =? 45) eqn:E45; [|destruct (c =? 43) eqn:E43].
      * apply Z.eqb_eq in E45 as ->.
        destruct (takeDigits_split r) as [rest [Er [Hd Hr]]].
        destruct (takeDigits r) as [|d ds] eqn:Ed; [discriminate|].
        intros [= <-]. exists ws, [45], (d :: ds), rest.
        repeat split; try assumption; try discriminate.
        -- rewrite E, Er. reflexivity.
        -- right. right. split; [reflexivity | lia].
      * apply Z.eqb_eq in E43 as ->.
        destruct (takeDigits_split r) as [rest [Er [Hd Hr]]].
        destruct (takeDigits r) as [|d ds] eqn:Ed; [discriminate|].
        intros [= <-]. exists ws, [43], (d :: ds), rest.
        repeat split; try assumption; try discriminate.
        -- rewrite E, Er. reflexivity.
        -- right. left. split; [reflexivity | lia].
      * destruct (takeDigits_split (c :: r)) as [rest [Er [Hd Hr]]].
        destruct (takeDigits (c :: r)) as [|d ds] eqn:Ed; [discriminate|].
        intros [= <-]. exists ws, [], (d :: ds), rest.
        repeat split; try assumption; try discriminate.
        -- rewrite E, Er. reflexivity.
        -- left. split; [reflexivity | lia].
  - intros (ws & sign & ds & rest & -> & Hws & Hsign & Hne & Hd & Hr).
    rewrite trimStart_white_app by exact Hws.
    destruct ds as [|d ds]; [congruence|].
    pose proof (Forall_inv Hd) as Hd0. cbv beta in Hd0.
    assert (d <> 45 /\ d <> 43) as [N45 N43].
    { unfold isDigit in Hd0. apply andb_true_iff in Hd0 as [H1 H2].
      apply Z.leb_le in H1, H2. lia. }
    destruct Hsign as [[-> ->] | [[-> ->] | [-> ->]]].
    + simpl app. rewrite trimStart_nonwhite by (apply digit_not_white; exact Hd0).
      apply Z.eqb_neq in N45, N43. rewrite N45, N43.
      change (d :: ds ++ rest) with ((d :: ds) ++ rest).
      rewrite takeDigits_app by assumption. f_equal; lia.
    + simpl app. rewrite trimStart_nonwhite by reflexivity.
      change (43 =? 45) with false. change (43 =? 43) with true. cbv iota.
      change (d :: ds ++ rest) with ((d :: ds) ++ rest).
      rewrite takeDigits_app by assumption. f_equal; lia.
    + simpl app. rewrite trimStart_nonwhite by reflexivity.
      change (45 =? 45) with true. cbv iota.
      change (d :: ds ++ rest) with ((d :: ds) ++ rest).
      rewrite takeDigits_app by assumption. f_equal; lia.
Qed.

(** Trimming a token does not change its leading integer. *)
Lemma leadingInteger_trim (token : list Z) (z : Z) :
  leadingInteger (trim token) z <-> leadingInteger token z.
Proof.
  unfold trim. split.
  - destruct (trimStart_split token) as [ws0 [E0 Hws0]].
    destruct (trimEnd_split (trimStart token)) as [ws1 [E1 Hws1]].
    intros (ws & sign & ds & rest & E & Hws & Hsign & Hne & Hd & Hr).
    exists (ws0 ++ ws), sign, ds, (rest ++ ws1).
    repeat split; try assumption.
    + rewrite E0 at 1. rewrite E1 at 1. rewrite E. rewrite <- !app_assoc. reflexivity.
    + apply Forall_app. split; assumption.
    + destruct rest as [|c rest]; [|exact Hr].
      destruct Hws1 as [|c ws1 Hc _]; [exact I|]. simpl. apply white_not_digit, Hc.
  - intros (ws & sign & ds & rest & -> & Hws & Hsign & Hne & Hd & Hr).
    rewrite trimStart_white_app by exact Hws.
    destruct (exists_last Hne) as [ds' [d ->]].
    assert (isDigit d = true) as Hd0.
    { apply Forall_app in Hd as [_ Hd]. exact (Forall_inv Hd). }
    assert (trimStart (sign ++ (ds' ++ [d]) ++ rest) = sign ++ (ds' ++ [d]) ++ rest) as ->.
    { destruct Hsign as [[-> _] | [[-> _] | [-> _]]];
        [|apply trimStart_nonwhite; reflexivity ..].
      destruct ds' as [|d' ds'].
      - apply trimStart_nonwhite, digit_not_white, Hd0.
      - apply trimStart_nonwhite, digit_not_white.
        exact (Forall_inv Hd). }
    replace (sign ++ (ds' ++ [d]) ++ rest) with ((sign ++ ds') ++ d :: rest)
      by (rewrite <- !app_assoc; reflexivity).
    rewrite trimEnd_app_nonwhite by (apply digit_not_white, Hd0).
    destruct (trimEnd_split rest) as [ws1 [E1 Hws1]].
    exists [], sign, (ds' ++ [d]), (trimEnd rest).
    repeat split; try assumption.
    + rewrite <- !app_assoc. reflexivity.
    + constructor.
    + destruct (trimEnd rest) as [|c r'] eqn:Et; [exact I|].
      rewrite E1 in Hr. exact Hr.
Qed.

(** The Number for an integer is never [NaN]. *)
Lemma toNumber_not_NaN (z : Z) : isNaN (toNumber z) = false.
Proof.
  unfold toNumber. destruct (Z.abs z <? 2 ^ 53); [reflexivity|].
  cbv zeta. match goal with |- context [2 ^ 1024 <=? ?v] => destruct (2 ^ 1024 <=? v) end;
    reflexivity.
Qed.

(** Below 2^53 the Number is the integer. *)
Lemma toNumber_exact (z : Z) : Z.abs z < 2 ^ 53 -> toNumber z = Finite z.
Proof.
  intros H. unfold toNumber. apply Z.ltb_lt in H. rewrite H. reflexivity.
Qed.

(** From 2^53 on the Number is 2^53 or more in absolute value. *)
Lemma toNumber_large (z u : Z) :
  2 ^ 53 <= Z.abs z -> toNumber z = Finite u -> 2 ^ 53 <= Z.abs u.
Proof.
  intros Hz. unfold toNumber.
  destruct (Z.abs z <? 2 ^ 53) eqn:E; [apply Z.ltb_lt in E; lia|]. clear E.
  set (m := Z.abs z) in *. cbv zeta.
  set (shift := Z.log2 m - 52).
  set (q := Z.shiftr m shift).
  match goal with
  | |- context [Z.shiftl ?x shift] => set (q' := x)
  end.
  destruct (2 ^ 1024 <=? Z.shiftl q' shift); [discriminate|].
  intros [= <-].
  assert (0 < m) as Hm by (pose proof (Z.pow_pos_nonneg 2 53); lia).
  assert (53 <= Z.log2 m) as Hlog.
  { change 53 with (Z.log2 (2 ^ 53)). apply Z.log2_le_mono. exact Hz. }
  assert (1 <= shift) as Hshift by (unfold shift; lia).
  assert (2 ^ 52 <= q) as Hq.
  { unfold q. rewrite Z.shiftr_div_pow2 by lia.
    apply Z.div_le_lower_bound; [apply Z.pow_pos_nonneg; lia|].
    replace (2 ^ shift * 2 ^ 52) with (2 ^ Z.log2 m)
      by (rewrite <- Z.pow_add_r by lia; f_equal; unfold shift; lia).
    apply Z.log2_spec. exact Hm. }
  assert (q <= q') as Hq'.
  { unfold q'. match goal with |- context [if ?b then _ else _] => destruct b end; lia. }
  rewrite Z.shiftl_mul_pow2 by lia.
  assert (2 <= 2 ^ shift) as Hpow.
  { change 2 with (2 ^ 1) at 1. apply Z.pow_le_mono_r; lia. }
  assert (2 ^ 53 <= q' * 2 ^ shift) as Hv.
  { change (2 ^ 53) with (2 ^ 52 * 2). apply Z.mul_le_mono_nonneg; lia. }
  assert (z <> 0) as Hz0 by (unfold m in Hm; lia).
  set (v := q' * 2 ^ shift) in *. clearbody v. clear - Hv Hz0.
  destruct z as [|p|p]; [contradiction | |]; cbn [Z.sgn]; lia.
Qed.

(** What is read back below 2^53 was written there. *)
Lemma toNumber_small (z u : Z) :
  Z.abs u < 2 ^ 53 -> (toNumber z = Finite u <-> z = u).
Proof.
  intros Hu. split.
  - intros E. destruct (Z_lt_le_dec (Z.abs z) (2 ^ 53)) as [Hz | Hz].
    + rewrite toNumber_exact in E by exact Hz. congruence.
    + pose proof (toNumber_large z u Hz E). lia.
  - intros ->. apply toNumber_exact, Hu.
Qed.

(** From 2^53 on the Number is a multiple of the spacing of the doubles
    around the integer, the nearest one, and the even one of the two when the
    integer lies half way. *)
Lemma toNumber_nearest (z u : Z) :
  2 ^ 53 <= Z.abs z ->
  toNumber z = Finite u ->
  let ulp := 2 ^ (Z.log2 (Z.abs z) - 52) in
  (ulp | u)
  /\ 2 * Z.abs (u - z) <= ulp
  /\ (2 * Z.abs (u - z) = ulp -> Z.even (u / ulp) = true).
Proof.
  intros Hz. unfold toNumber.
  destruct (Z.abs z <? 2 ^ 53) eqn:E; [apply Z.ltb_lt in E; lia|]. clear E.
  set (m := Z.abs z) in *. cbv zeta.
  set (shift := Z.log2 m - 52).
  set (q := Z.shiftr m shift).
  set (r := Z.land m (Z.ones shift)).
  set (half := Z.shiftl 1 (shift - 1)).
  set (up := (half <? r) || ((r =? half) && Z.odd q)).
  assert (0 < m) as Hm by (pose proof (Z.pow_pos_nonneg 2 53); lia).
  assert (53 <= Z.log2 m) as Hlog.
  { change 53 with (Z.log2 (2 ^ 53)). apply Z.log2_le_mono. exact Hz. }
  assert (1 <= shift) as Hshift by (unfold shift; lia).
  set (P := 2 ^ shift).
  assert (0 < half) as Hhalf0.
  { unfold half. rewrite Z.shiftl_mul_pow2 by lia. apply Z.mul_pos_pos; [lia|].
    apply Z.pow_pos_nonneg; lia. }
  assert (P = 2 * half) as HP.
  { unfold P, half. rewrite Z.shiftl_mul_pow2 by lia.
    replace shift with (1 + (shift - 1)) at 1 by lia.
    rewrite Z.pow_add_r by lia. lia. }
  assert (m = P * q + r /\ 0 <= r < P) as [Hdm Hr].
  { unfold q, r. rewrite Z.shiftr_div_pow2, Z.land_ones by lia. fold P.
    split; [apply Z.div_mod; lia | apply Z.mod_pos_bound; lia]. }
  assert (Z.sgn z = 1 \/ Z.sgn z = -1) as Hsgn.
  { unfold m in Hm. destruct z; simpl in *; lia. }
  assert (z = Z.sgn z * m) as Hzm.
  { unfold m. destruct z; simpl; lia. }
  rewrite !Z.shiftl_mul_pow2 by lia. fold P.
  destruct (2 ^ 1024 <=? (if up then q + 1 else q) * P); [discriminate|].
  intros [= <-].
  set (q' := if up then q + 1 else q).
  assert (Z.abs (Z.sgn z * (q' * P) - z) = Z.abs (q' * P - m)) as Habs.
  { rewrite Hzm at 2. destruct Hsgn as [-> | ->]; lia. }
  assert (q' * P - m = (if up then P - r else - r)) as Hdiff.
  { unfold q'. destruct up; lia. }
  assert (Z.sgn z * (q' * P) / P = Z.sgn z * q') as Hdiv.
  { rewrite Z.mul_assoc. apply Z.div_mul. lia. }
  split; [exists (Z.sgn z * q'); lia|].
  rewrite Habs, Hdiff, Hdiv.
  assert (up = true -> half <= r /\ (r = half -> Z.odd q = true)) as Hup.
  { unfold up. intros H. apply orb_true_iff in H as [H | H].
    - apply Z.ltb_lt in H. lia.
    - apply andb_true_iff in H as [H1 H2]. apply Z.eqb_eq in H1. split; [lia | auto]. }
  assert (up = false -> r <= half /\ (r = half -> Z.odd q = false)) as Hdown.
  { unfold up. intros H. apply orb_false_iff in H as [H1 H2]. apply Z.ltb_ge in H1.
    split; [lia|]. intros ->. rewrite Z.eqb_refl in H2. exact H2. }
  assert (Z.even (Z.sgn z * q') = Z.even q') as Heven.
  { destruct Hsgn as [-> | ->]; [f_equal; lia|].
    replace (-1 * q') with (- q') by lia. apply Z.even_opp. }
  rewrite Heven. unfold q'. destruct up.
  - destruct (Hup eq_refl) as [H1 H2]. split; [lia|]. intros Htie.
    assert (r = half) as Hrh by lia. rewrite Z.even_add, <- Z.negb_odd, (H2 Hrh). reflexivity.
  - destruct (Hdown eq_refl) as [H1 H2]. split; [lia|]. intros Htie.
    assert (r = half) as Hrh by lia. rewrite <- Z.negb_odd, (H2 Hrh). reflexivity.
Qed.

Lemma elem_of_allowedUserIds (allowedUserIdsEnv : list Z) (userId : Z) :
  Finite userId ∈ allowedUserIds (newAccessControl allowedUserIdsEnv)
  <-> exists token,
        token ∈ split 44 allowedUserIdsEnv /\ parseInt (trim token) = Finite userId.
Proof.
  unfold newAccessControl. simpl.
  rewrite elem_of_list_to_set, list_elem_of_filter, list_elem_of_fmap. split.
  - intros [_ [token [E Hin]]]. exists token. split; [exact Hin | congruence].
  - intros [token [Hin E]]. split; [exact I|]. exists token. split; [congruence | exact Hin].
Qed.

Lemma parseInt_Finite (s : list Z) (userId : Z) :
  parseInt s = Finite userId
  <-> exists z, leadingInteger s z /\ toNumber z = Finite userId.
Proof.
  unfold parseInt. split.
  - destruct (mathInt s) as [z|] eqn:E; [|discriminate].
    intros H. exists z. split; [apply mathInt_leadingInteger, E | exact H].
  - intros (z & Hz & H). apply mathInt_leadingInteger in Hz. rewrite Hz. exact H.
Qed.

(** C6, as stated, fails twice over: a token that starts with digits and
    goes on with something else is no integer, yet its digits become a
    member; and an integer token of 2^53 or more admits the double it rounds
    to, here 2^53 for the token 2^53 + 1, and not itself. *)
Lemma digits_prefix_counterexample :
  isAllowed (newAccessControl (lit "12abc")) 12 = true
  /\ spec_isAllowed (lit "12abc") 12 = false
  /\ isAllowed (newAccessControl (lit "9007199254740993")) 9007199254740992 = true
  /\ spec_isAllowed (lit "9007199254740993") 9007199254740992 = false
  /\ isAllowed (newAccessControl (lit "9007199254740993")) 9007199254740993 = false
  /\ spec_isAllowed (lit "9007199254740993") 9007199254740993 = true.
Proof. vm_compute. repeat split; reflexivity. Qed.

(** C6, amended.  For every configuration string, [isAllowed] answers true
    exactly for the identifiers that are the Number of what some
    comma-separated token starts with: after leading white space an optional
    sign and the longest run of decimal digits, whatever follows in the token
    being ignored.  Tokens that do not start that way, the empty token among
    them, add no member.  The Number of an integer below 2^53 in absolute
    value is that integer, and no other integer gives it: so an identifier
    below 2^53, which is where user identifiers live, is admitted exactly when
    some token starts with it, written out in full.  From 2^53 on the Number
    of an integer [z] is the double nearest to it: a multiple of the spacing
    2^([log2 |z|] - 52), at most half a spacing away, and the even multiple
    when [z] lies half way between two. *)
Theorem isAllowed_leading_integer (allowedUserIdsEnv : list Z) (userId : Z) :
  (isAllowed (newAccessControl allowedUserIdsEnv) userId = true
   <-> exists token z,
         token ∈ split 44 allowedUserIdsEnv
         /\ leadingInteger token z
         /\ toNumber z = Finite userId)
  /\ (Z.abs userId < 2 ^ 53 ->
      (isAllowed (newAccessControl allowedUserIdsEnv) userId = true
       <-> exists token,
             token ∈ split 44 allowedUserIdsEnv /\ leadingInteger token userId))
  /\ (forall z,
         2 ^ 53 <= Z.abs z ->
         toNumber z = Finite userId ->
         let spacing := 2 ^ (Z.log2 (Z.abs z) - 52) in
         (spacing | userId)
         /\ 2 * Z.abs (userId - z) <= spacing
         /\ (2 * Z.abs (userId - z) = spacing -> Z.even (userId / spacing) = true)).
Proof.
  assert (isAllowed (newAccessControl allowedUserIdsEnv) userId = true
          <-> exists token z,
                token ∈ split 44 allowedUserIdsEnv
                /\ leadingInteger token z
                /\ toNumber z = Finite userId) as Hgeneral.
  { unfold isAllowed. rewrite bool_decide_eq_true, elem_of_allowedUserIds. split.
    - intros (token & Hin & H). apply parseInt_Finite in H as (z & Hz & H).
      exists token, z. split; [exact Hin|]. split; [apply leadingInteger_trim, Hz | exact H].
    - intros (token & z & Hin & Hz & H). exists token. split; [exact Hin|].
      apply parseInt_Finite. exists z. split; [apply leadingInteger_trim, Hz | exact H]. }
  split; [exact Hgeneral|].
  split; [|intros z; apply toNumber_nearest].
  intros Hsmall. rewrite Hgeneral. split.
  - intros (token & z & Hin & Hz & H). apply (toNumber_small z userId Hsmall) in H as ->.
    exists token. auto.
  - intros (token & Hin & Hz). exists token, userId.
    split; [exact Hin|]. split; [exact Hz | apply toNumber_exact, Hsmall].
Qed.

Lemma isAllowed_leading_integer_witness :
  isAllowed (newAccessControl (lit "127528682, 12abc")) 12 = true
  /\ isAllowed (newAccessControl (lit "9007199254740993")) 9007199254740992 = true.
Proof.
  split.
  - apply (proj2 (proj1 (proj2 (isAllowed_leading_integer (lit "127528682, 12abc") 12))
                    ltac:(vm_compute; reflexivity))).
    exists (lit " 12abc"). split.
    + apply list_elem_of_In. vm_compute. right. left. reflexivity.
    + exists [32], [], (lit "12"), (lit "abc").
      split; [reflexivity|].
      split; [repeat constructor|].
      split; [left; split; reflexivity|].
      split; [discriminate|].
      split; [repeat constructor | reflexivity].
  - apply (proj2 (proj1 (isAllowed_leading_integer (lit "9007199254740993")
                           9007199254740992))).
    exists (lit "9007199254740993"), 9007199254740993. split.
    + apply list_elem_of_In. vm_compute. left. reflexivity.
    + split; [|vm_compute; reflexivity].
      exists [], [], (lit "9007199254740993"), [].
      split; [reflexivity|].
      split; [constructor|].
      split; [left; split; [reflexivity | vm_compute; reflexivity]|].
      split; [discriminate|].
      split; [repeat constructor | exact I].
Defined.

End AccessFacts.

(** ** Link extraction *)
Module UrlFacts.
Import JsString JsStringFacts Url.

Lemma existsb_str_eqb (x : list Z) (s : list (list Z)) :
  existsb (str_eqb x) s = true <-> x ∈ s.
Proof.
  rewrite existsb_exists. split.
  - intros [y [Hin E]]. apply str_eqb_eq in E as ->. apply list_elem_of_In, Hin.
  - intros Hin. exists x. split; [apply list_elem_of_In, Hin | apply str_eqb_refl].
Qed.

Lemma Set_add_old (s : list (list Z)) (x : list Z) :
  x ∈ s -> Set_add s x = s.
Proof.
  intros Hin. unfold Set_add. apply existsb_str_eqb in Hin. rewrite Hin. reflexivity.
Qed.

Lemma Set_add_new (s : list (list Z)) (x : list Z) :
  x ∉ s -> Set_add s x = s ++ [x].
Proof.
  intros Hin. unfold Set_add.
  destruct (existsb (str_eqb x) s) eqn:E; [|reflexivity].
  apply existsb_str_eqb in E. contradiction.
Qed.

Lemma Set_add_cases (s : list (list Z)) (x : list Z) :
  (x ∈ s /\ Set_add s x = s) \/ ((x ∉ s) /\ Set_add s x = s ++ [x]).
Proof.
  destruct (decide (x ∈ s)) as [Hin | Hin].
  - left. split; [exact Hin | apply Set_add_old, Hin].
  - right. split; [exact Hin | apply Set_add_new, Hin].
Qed.

Lemma foldl_Set_add_elem (items acc : list (list Z)) (y : list Z) :
  y ∈ foldl Set_add acc items <-> y ∈ acc \/ y ∈ items.
Proof.
  revert acc. induction items as [|x items IH]; intros acc; simpl.
  - rewrite elem_of_nil. tauto.
  - rewrite IH, elem_of_cons.
    destruct (Set_add_cases acc x) as [[Hin ->] | [Hin ->]].
    + split; [tauto|]. intros [H | [-> | H]]; tauto.
    + rewrite elem_of_app, list_elem_of_singleton. tauto.
Qed.

Lemma foldl_Set_add_NoDup (items acc : list (list Z)) :
  NoDup acc -> NoDup (foldl Set_add acc items).
Proof.
  revert acc. induction items as [|x items IH]; intros acc Hnd; simpl; [exact Hnd|].
  apply IH. destruct (Set_add_cases acc x) as [[Hin ->] | [Hin ->]]; [exact Hnd|].
  apply NoDup_app. repeat split; [exact Hnd | | apply NoDup_singleton].
  intros y Hy Hy'. apply list_elem_of_singleton in Hy' as ->. contradiction.
Qed.

Lemma foldl_Set_add_prefix (items acc : list (list Z)) :
  exists more, foldl Set_add acc items = acc ++ more.
Proof.
  revert acc. induction items as [|x items IH]; intros acc; simpl.
  - exists []. rewrite app_nil_r. reflexivity.
  - destruct (Set_add_cases acc x) as [[Hin ->] | [Hin ->]]; [apply IH|].
    destruct (IH (acc ++ [x])) as [more ->]. exists (x :: more).
    rewrite <- app_assoc. reflexivity.
Qed.

(** In a list without duplicates an element has one place only. *)
Lemma NoDup_split_unique (x : list Z) (a b a' b' : list (list Z)) :
  NoDup (a ++ x :: b) -> a ++ x :: b = a' ++ x :: b' -> a = a'.
Proof.
  revert a'. induction a as [|y a IH]; intros a' Hnd E.
  - destruct a' as [|y' a']; [reflexivity|]. simpl in E. injection E as <- E.
    apply NoDup_cons in Hnd as [Hnot _]. exfalso. apply Hnot.
    rewrite E. apply elem_of_app. right. left.
  - destruct a' as [|y' a'].
    + simpl in E. injection E as -> E. simpl in Hnd.
      apply NoDup_cons in Hnd as [Hnot _]. exfalso. apply Hnot.
      apply elem_of_app. right. left.
    + simpl in E. injection E as -> E. f_equal. apply IH; [|exact E].
      simpl in Hnd. apply NoDup_cons in Hnd as [_ Hnd]. exact Hnd.
Qed.

(** The place of an element in the set is the place of its first
    occurrence among the items: what stands before it in the set is what was
    there already or occurs before it among the items. *)
Lemma foldl_Set_add_first (items acc pre post : list (list Z)) (x : list Z) :
  NoDup acc ->
  foldl Set_add acc items = pre ++ x :: post ->
  x ∉ acc ->
  exists ipre ipost,
    items = ipre ++ x :: ipost /\ (x ∉ ipre)
    /\ forall y, y ∈ pre <-> y ∈ acc \/ y ∈ ipre.
Proof.
  revert acc. induction items as [|i items IH]; intros acc Hnd E Hx.
  - simpl in E. exfalso. apply Hx. rewrite E. apply elem_of_app. right. left.
  - simpl in E. destruct (Set_add_cases acc i) as [[Hin Ei] | [Hin Ei]]; rewrite Ei in E.
    + destruct (IH acc Hnd E Hx) as (ipre & ipost & -> & Hnot & Hpre).
      exists (i :: ipre), ipost. repeat split.
      * intros H. apply elem_of_cons in H as [-> | H]; contradiction.
      * intros H. apply Hpre in H as [H | H]; [left; exact H | right; right; exact H].
      * intros [H | H]; apply Hpre; [left; exact H|].
        apply elem_of_cons in H as [-> | H]; [left; exact Hin | right; exact H].
    + assert (NoDup (acc ++ [i])) as Hnd'.
      { apply NoDup_app. repeat split; [exact Hnd | | apply NoDup_singleton].
        intros y Hy Hy'. apply list_elem_of_singleton in Hy' as ->. contradiction. }
      destruct (decide (x = i)) as [-> | Hne].
      * exists [], items. repeat split; [apply not_elem_of_nil|..].
        -- destruct (foldl_Set_add_prefix items (acc ++ [i])) as [more Em].
           pose proof (foldl_Set_add_NoDup items _ Hnd') as Hres.
           rewrite Em, <- app_assoc in Hres. simpl in Hres.
           assert (acc = pre) as <-.
           { eapply NoDup_split_unique; [exact Hres|].
             rewrite <- E, Em, <- app_assoc. reflexivity. }
           intros H. left. exact H.
        -- intros [H | H]; [|apply elem_of_nil in H; contradiction].
           destruct (foldl_Set_add_prefix items (acc ++ [i])) as [more Em].
           pose proof (foldl_Set_add_NoDup items _ Hnd') as Hres.
           rewrite Em, <- app_assoc in Hres. simpl in Hres.
           assert (acc = pre) as <-.
           { eapply NoDup_split_unique; [exact Hres|].
             rewrite <- E, Em, <- app_assoc. reflexivity. }
           exact H.
      * assert (x ∉ acc ++ [i]) as Hx'.
        { intros H. apply elem_of_app in H as [H | H]; [contradiction|].
          apply list_elem_of_singleton in H. contradiction. }
        destruct (IH (acc ++ [i]) Hnd' E Hx') as (ipre & ipost & -> & Hnot & Hpre).
        exists (i :: ipre), ipost. repeat split.
        -- intros H. apply elem_of_cons in H as [-> | H]; contradiction.
        -- intros H. apply Hpre in H as [H | H].
           ++ apply elem_of_app in H as [H | H]; [left; exact H|].
              apply list_elem_of_singleton in H as ->. right. left.
           ++ right. right. exact H.
        -- intros [H | H]; apply Hpre.
           ++ left. apply elem_of_app. left. exact H.
           ++ apply elem_of_cons in H as [-> | H].
              ** left. apply elem_of_app. right. left.
              ** right. exact H.
Qed.

Lemma Set_new_replicate (u : list Z) (n : nat) :
  Set_new (replicate (S n) u) = [u].
Proof.
  unfold Set_new. simpl. rewrite Set_add_new by apply not_elem_of_nil. simpl.
  induction n as [|n IH]; [reflexivity|]. simpl.
  rewrite Set_add_old by left. exact IH.
Qed.

(** Every match is a piece of the text. *)
Lemma scan_substring (r : Regex) (prev : option Z) (s : list Z) (skip : nat)
    (u : list Z) :
  u ∈ scan r prev s skip -> isSubstring u s.
Proof.
  revert prev skip. induction s as [|c s IH]; intros prev skip; simpl.
  - intros H. apply elem_of_nil in H. contradiction.
  - assert (forall prev' skip', u ∈ scan r prev' s skip' -> isSubstring u (c :: s)) as Hrest.
    { intros prev' skip' H. destruct (IH _ _ H) as [pre [post ->]].
      exists (c :: pre), post. reflexivity. }
    destruct skip as [|n]; [|apply Hrest].
    destruct (matchHere r prev (c :: s)) as [rest|]; [|apply Hrest].
    intros H. apply elem_of_cons in H as [-> | H]; [|eapply Hrest, H].
    exists [], (drop (length (c :: s) - length rest) (c :: s)).
    simpl app. rewrite take_drop. reflexivity.
Qed.

(** A continuation is honest when what it leaves is a tail of what it was
    given. *)
Lemma matchRep_suffix (ranges : list (Z * Z)) (s : list Z) :
  forall (min : nat) (max : option nat) (prev : option Z) (k : Cont) (rest : list Z),
    (forall p' s' r', k p' s' = Some r' -> r' `suffix_of` s') ->
    matchRep ranges min max prev s k = Some rest ->
    rest `suffix_of` s.
Proof.
  induction s as [|c s IH]; intros min max prev k rest Hk; simpl.
  - destruct min; [apply Hk | discriminate].
  - assert (match min with
            | O => k prev (c :: s)
            | S _ => None
            end = Some rest -> rest `suffix_of` c :: s) as Hstop.
    { destruct min; [apply Hk | discriminate]. }
    destruct (classMatches ranges c
              && match max with
                 | Some O => false
                 | _ => true
                 end); [|exact Hstop].
    destruct (matchRep ranges (Nat.pred min) (Nat.pred <$> max) (Some c) s k) as [r|] eqn:E;
      [|exact Hstop].
    intros [= <-]. apply suffix_cons_r. eapply IH; eassumption.
Qed.

Lemma matchRegex_suffix (r : Regex) :
  forall (prev : option Z) (s : list Z) (k : Cont) (rest : list Z),
    (forall p' s' r', k p' s' = Some r' -> r' `suffix_of` s') ->
    matchRegex r prev s k = Some rest ->
    rest `suffix_of` s.
Proof.
  induction r as [p | ranges | ranges min max | r IH | r1 IH1 r2 IH2 |];
    intros prev s k rest Hk; simpl.
  - destruct s as [|c s]; [discriminate|].
    destruct (chrMatches p c); [|discriminate].
    intros H. apply suffix_cons_r. eapply Hk, H.
  - destruct s as [|c s]; [discriminate|].
    destruct (classMatches ranges c); [|discriminate].
    intros H. apply suffix_cons_r. eapply Hk, H.
  - apply matchRep_suffix, Hk.
  - destruct (matchRegex r prev s k) as [r'|] eqn:E.
    + intros [= <-]. eapply IH; eassumption.
    + apply Hk.
  - apply IH1. intros p' s' r'. apply IH2, Hk.
  - destruct (xorb (isWordCharOpt prev) (isWordCharOpt (head s))); [apply Hk | discriminate].
Qed.

(** A literal of the pattern that is no capital letter matches the units
    that lower-casing sends to it. *)
Lemma chrMatches_lower (p c : Z) :
  isUpperAscii p = false ->
  lowerUnit p = [p] ->
  chrMatches p c = true ->
  lowerUnit c = [p].
Proof.
  intros Hup Hp. unfold chrMatches, caseVariants.
  destruct (isUpperAscii c) eqn:Ec.
  - simpl. rewrite orb_false_r, orb_true_iff, !Z.eqb_eq.
    intros [-> | ->]; [congruence|].
    unfold lowerUnit. rewrite Ec. reflexivity.
  - destruct (isLowerAscii c) eqn:El.
    + simpl. rewrite orb_false_r, orb_true_iff, !Z.eqb_eq.
      intros [-> | ->]; [exact Hp|].
      exfalso. unfold isLowerAscii in El. unfold isUpperAscii in Hup.
      apply andb_true_iff in El as [H1 H2]. apply Z.leb_le in H1, H2.
      apply andb_false_iff in Hup as [H | H]; apply Z.leb_gt in H; lia.
    + simpl. rewrite orb_false_r, Z.eqb_eq. intros ->. exact Hp.
Qed.

(** The text that a successful continuation-style match has consumed. *)
Lemma consumed_split (s rest : list Z) :
  rest `suffix_of` s ->
  s = take (length s - length rest) s ++ rest.
Proof.
  intros [pre ->]. rewrite length_app.
  replace (length pre + length rest - length rest)%nat with (length pre) by lia.
  rewrite take_app_length. reflexivity.
Qed.

Lemma matchRegex_Seq_Chr (p : Z) (r : Regex) (prev : option Z) (s : list Z)
    (k : Cont) (rest : list Z) :
  matchRegex (Seq (Chr p) r) prev s k = Some rest ->
  exists c s',
    s = c :: s' /\ chrMatches p c = true /\ matchRegex r (Some c) s' k = Some rest.
Proof.
  simpl. destruct s as [|c s']; [discriminate|].
  destruct (chrMatches p c) eqn:E; [|discriminate].
  intros H. exists c, s'. auto.
Qed.

Lemma matchRegex_Seq_Opt_Chr (p : Z) (r : Regex) (prev : option Z) (s : list Z)
    (k : Cont) (rest : list Z) :
  matchRegex (Seq (Opt (Chr p)) r) prev s k = Some rest ->
  (exists c s',
      s = c :: s' /\ chrMatches p c = true /\ matchRegex r (Some c) s' k = Some rest)
  \/ matchRegex r prev s k = Some rest.
Proof.
  change (matchRegex (Seq (Opt (Chr p)) r) prev s k)
    with (match matchRegex (Seq (Chr p) r) prev s k with
          | Some rest => Some rest
          | None => matchRegex r prev s k
          end).
  destruct (matchRegex (Seq (Chr p) r) prev s k) as [r'|] eqn:E.
  - intros [= ->]. left. eapply matchRegex_Seq_Chr. exact E.
  - intros H. right. exact H.
Qed.

(** Every match opens with the scheme, in any mix of cases. *)
Lemma matchHere_scheme (prev : option Z) (s rest : list Z) :
  matchHere URL_REGEX prev s = Some rest ->
  startsWithScheme (take (length s - length rest) s).
Proof.
  unfold matchHere.
  change URL_REGEX with
    (Seq (Chr 104) (Seq (Chr 116) (Seq (Chr 116) (Seq (Chr 112)
       (Seq (Opt (Chr 115)) (Seq (Chr 58) (Seq (Chr 47) (Seq (Chr 47)
          (seqOf [Opt (seqOf (chars "www") (Chr 46));
                  Rep hostClass 1 (Some 256%nat);
                  Chr 46;
                  Rep tldClass 1 (Some 6%nat);
                  WordBoundary]
                 (Rep tailClass 0 None)))))))))).
  set (R := seqOf _ _).
  assert (forall p0 s0,
             matchRegex (Seq (Chr 58) (Seq (Chr 47) (Seq (Chr 47) R))) p0 s0
               (fun _ rest => Some rest) = Some rest ->
             exists sep s3,
               s0 = sep ++ s3 /\ toLowerCase sep = lit "://" /\ rest `suffix_of` s3) as Hsep.
  { intros p0 s0 H.
    apply matchRegex_Seq_Chr in H as (c1 & s1 & -> & H1 & H).
    apply matchRegex_Seq_Chr in H as (c2 & s2 & -> & H2 & H).
    apply matchRegex_Seq_Chr in H as (c3 & s3 & -> & H3 & H).
    exists [c1; c2; c3], s3. split; [reflexivity|]. split.
    - unfold toLowerCase. simpl flat_map.
      rewrite (chrMatches_lower 58 c1), (chrMatches_lower 47 c2), (chrMatches_lower 47 c3);
        try reflexivity; assumption.
    - eapply matchRegex_suffix; [|exact H]. intros ? ? ? [= <-]. reflexivity. }
  intros H.
  apply matchRegex_Seq_Chr in H as (h1 & s1 & -> & H1 & H).
  apply matchRegex_Seq_Chr in H as (h2 & s2 & -> & H2 & H).
  apply matchRegex_Seq_Chr in H as (h3 & s3 & -> & H3 & H).
  apply matchRegex_Seq_Chr in H as (h4 & s4 & -> & H4 & H).
  assert (toLowerCase [h1; h2; h3; h4] = lit "http") as Hhttp.
  { unfold toLowerCase. simpl flat_map.
    rewrite (chrMatches_lower 104 h1), (chrMatches_lower 116 h2),
      (chrMatches_lower 116 h3), (chrMatches_lower 112 h4);
      try reflexivity; assumption. }
  assert (exists scheme s',
             h1 :: h2 :: h3 :: h4 :: s4 = scheme ++ s'
             /\ (toLowerCase scheme = lit "http://" \/ toLowerCase scheme = lit "https://")
             /\ rest `suffix_of` s') as (scheme & s' & Es & Hscheme & Hsuf).
  { apply matchRegex_Seq_Opt_Chr in H as [(h5 & s5 & -> & H5 & H) | H];
      apply Hsep in H as (sep & s3 & -> & Hl & Hs).
    - exists ([h1; h2; h3; h4] ++ [h5] ++ sep), s3.
      split; [rewrite <- !app_assoc; reflexivity|]. split; [|exact Hs]. right.
      rewrite !toLowerCase_app, Hhttp, Hl. unfold toLowerCase. simpl flat_map.
      rewrite (chrMatches_lower 115 h5); try reflexivity; assumption.
    - exists ([h1; h2; h3; h4] ++ sep), s3.
      split; [rewrite <- !app_assoc; reflexivity|]. split; [|exact Hs]. left.
      rewrite !toLowerCase_app, Hhttp, Hl. reflexivity. }
  rewrite Es. destruct Hsuf as [mid ->].
  exists scheme, mid. split; [|exact Hscheme].
  rewrite !length_app.
  replace (length scheme + (length mid + length rest) - length rest)%nat
    with (length (scheme ++ mid)) by (rewrite length_app; lia).
  rewrite app_assoc, take_app_length. reflexivity.
Qed.

Lemma scan_scheme (prev : option Z) (s : list Z) (skip : nat) (u : list Z) :
  u ∈ scan URL_REGEX prev s skip -> startsWithScheme u.
Proof.
  revert prev skip. induction s as [|c s IH]; intros prev skip; simpl.
  - intros H. apply elem_of_nil in H. contradiction.
  - destruct skip as [|n]; [|apply IH].
    destruct (matchHere URL_REGEX prev (c :: s)) as [rest|] eqn:E; [|apply IH].
    intros H. apply elem_of_cons in H as [-> | H]; [|eapply IH, H].
    apply (matchHere_scheme prev (c :: s) rest E).
Qed.

Lemma extractUrls_Set_new (text : list Z) :
  extractUrls text = Set_new (scan URL_REGEX None text 0).
Proof.
  unfold extractUrls, String_match.
  destruct (scan URL_REGEX None text 0); reflexivity.
Qed.

(** C8.  For every text, with [matches] the successive matches of the link
    pattern from left to right: the result has no duplicates; it holds
    exactly the strings that occur among the matches, each of them a piece of
    the text that opens with [http://] or [https://]; each stands where its
    first occurrence puts it, that is, what precedes it in the result is what
    precedes its first occurrence among the matches; and no match gives the
    empty sequence, one match a singleton, and a link matched over and over a
    single entry. *)
Theorem extractUrls_first_occurrences (text : list Z) :
  let matches := scan URL_REGEX None text 0 in
  NoDup (extractUrls text)
  /\ (forall u, u ∈ extractUrls text <-> u ∈ matches)
  /\ (forall u, u ∈ extractUrls text -> isSubstring u text /\ startsWithScheme u)
  /\ (forall pre u post,
         extractUrls text = pre ++ u :: post ->
         exists mpre mpost,
           matches = mpre ++ u :: mpost /\ (u ∉ mpre)
           /\ forall v, v ∈ pre <-> v ∈ mpre)
  /\ (matches = [] -> extractUrls text = [])
  /\ (forall u, matches = [u] -> extractUrls text = [u])
  /\ (forall u n, matches = replicate (S n) u -> extractUrls text = [u]).
Proof.
  intros matches. rewrite extractUrls_Set_new. fold matches. unfold Set_new.
  assert (forall u, u ∈ foldl Set_add [] matches <-> u ∈ matches) as Helem.
  { intros u. rewrite foldl_Set_add_elem, elem_of_nil. tauto. }
  split; [apply foldl_Set_add_NoDup, NoDup_nil_2|].
  split; [exact Helem|].
  split; [intros u H; apply Helem in H;
          split; [eapply scan_substring, H | eapply scan_scheme, H]|].
  split; [|split; [|split]].
  - intros pre u post E.
    destruct (foldl_Set_add_first matches [] pre post u (NoDup_nil_2) E)
      as (mpre & mpost & Em & Hnot & Hpre); [apply not_elem_of_nil|].
    exists mpre, mpost. split; [exact Em|]. split; [exact Hnot|].
    intros v. rewrite Hpre, elem_of_nil. tauto.
  - intros ->. reflexivity.
  - intros u ->. reflexivity.
  - intros u n ->. apply Set_new_replicate.
Qed.

Lemma extractUrls_first_occurrences_witness :
  extractUrls (lit "look: https://youtu.be/x1 and again https://youtu.be/x1 !")
  = [lit "https://youtu.be/x1"].
Proof.
  apply (proj2 (proj2 (proj2 (proj2 (proj2 (proj2
    (extractUrls_first_occurrences
       (lit "look: https://youtu.be/x1 and again https://youtu.be/x1 !")))))))
    (lit "https://youtu.be/x1") 1%nat).
  vm_compute. reflexivity.
Defined.

(** The example of the specification: one link in running text. *)
Example extractUrls_tiktok :
  extractUrls (lit "check this out https://tiktok.com/@x/video/1 cool right?")
  = [lit "https://tiktok.com/@x/video/1"].
Proof. vm_compute. reflexivity. Qed.

Example extractUrls_none : extractUrls (lit "no link in here") = [].
Proof. vm_compute. reflexivity. Qed.

End UrlFacts.

(** ** The runtime *)
Module RuntimeFacts.
Import JsString Runtime.

Lemma bind_ok {A B : Type} (m : M A) (k : A -> M B) (w w' : World) (a : A) :
  m w = (Ok a, w') -> (m ≫= k) w = k a w'.
Proof. unfold mbind, M_bind. intros ->. reflexivity. Qed.

Lemma bind_throw {A B : Type} (m : M A) (k : A -> M B) (w w' : World) (e : Exn) :
  m w = (Throw e, w') -> (m ≫= k) w = (Throw e, w').
Proof. unfold mbind, M_bind. intros ->. reflexivity. Qed.

Lemma fmap_ok {A B : Type} (f : A -> B) (m : M A) (w w' : World) (a : A) :
  m w = (Ok a, w') -> (f <$> m) w = (Ok (f a), w').
Proof. unfold fmap, M_fmap. intros ->. reflexivity. Qed.

Lemma try_catch_ok {A : Type} (body : M A) (h : Exn -> M A) (w w' : World) (a : A) :
  body w = (Ok a, w') -> try_catch body h w = (Ok a, w').
Proof. unfold try_catch. intros ->. reflexivity. Qed.

Lemma try_catch_throw {A : Type} (body : M A) (h : Exn -> M A) (w w' : World) (e : Exn) :
  body w = (Throw e, w') -> try_catch body h w = h e w'.
Proof. unfold try_catch. intros ->. reflexivity. Qed.

Lemma settles_ret {A : Type} (a : A) : settles (mret a : M A).
Proof. intros w. discriminate. Qed.

Lemma settles_throw {A : Type} (e : Exn) : settles (throw e : M A).
Proof. intros w. discriminate. Qed.

Lemma settles_bind {A B : Type} (m : M A) (k : A -> M B) :
  settles m -> (forall a, settles (k a)) -> settles (m ≫= k).
Proof.
  intros Hm Hk w. specialize (Hm w). unfold mbind, M_bind.
  destruct (m w) as [[a | e |] w']; [apply Hk | discriminate | contradiction].
Qed.

Lemma settles_fmap {A B : Type} (f : A -> B) (m : M A) :
  settles m -> settles (f <$> m).
Proof.
  intros Hm w. specialize (Hm w). unfold fmap, M_fmap.
  destruct (m w) as [[a | e |] w']; [discriminate | discriminate | contradiction].
Qed.

Lemma settles_try_catch {A : Type} (body : M A) (h : Exn -> M A) :
  settles body -> (forall e, settles (h e)) -> settles (try_catch body h).
Proof.
  intros Hb Hh w. specialize (Hb w). unfold try_catch.
  destruct (body w) as [[a | e |] w']; [discriminate | apply Hh | contradiction].
Qed.

Lemma settles_try_finally {A : Type} (body : M A) (cleanup : M unit) :
  settles body -> settles cleanup -> settles (try_finally body cleanup).
Proof.
  intros Hb Hc w. specialize (Hb w). unfold try_finally.
  destruct (body w) as [[a | e |] w']; [| |contradiction];
    specialize (Hc w'); destruct (cleanup w') as [[[] | e' |] w''];
    simpl in *; congruence.
Qed.

Lemma settles_catch_ignore (body : M unit) :
  settles body -> settles (catch_ignore body).
Proof. intros Hb. apply settles_try_catch; [exact Hb | intros; apply settles_ret]. Qed.

Section WithEnv.
Variable env : Env.

Lemma settles_uuidv4 : settles (uuidv4 env).
Proof. intros w. discriminate. Qed.

Lemma settles_Date_now : settles (Date_now env).
Proof. intros w. discriminate. Qed.

Lemma settles_fs_ensureDir (p : list (list Z)) : settles (fs_ensureDir env p).
Proof. intros w. unfold fs_ensureDir. destruct (ensureDir_refused env (tick w)); discriminate. Qed.

Lemma settles_fs_remove (p : list (list Z)) : settles (fs_remove p).
Proof. intros w. discriminate. Qed.

Lemma settles_fs_readdir (p : list (list Z)) : settles (fs_readdir p).
Proof. intros w. unfold fs_readdir. destruct (fs_lookup (fs w) p) as [[|]|]; discriminate. Qed.

Lemma settles_fs_stat (p : list (list Z)) : settles (fs_stat p).
Proof. intros w. unfold fs_stat. destruct (fs_lookup (fs w) p) as [[|]|]; discriminate. Qed.

Lemma settles_spawn (args : list (list Z)) (dir : list (list Z)) :
  settles (spawn env args dir).
Proof. intros w. discriminate. Qed.

Lemma settles_telegram (ev : Event) : settles (telegram env ev).
Proof. intros w. unfold telegram. destruct (telegram_refused env (tick w)); discriminate. Qed.

End WithEnv.

Lemma spawnsOf_app (a b : list Event) : spawnsOf (a ++ b) = spawnsOf a ++ spawnsOf b.
Proof. apply omap_app. Qed.

(** Spawn accounting through the combinators: a computation that adds the
    spawns [l], followed or guarded by computations that add none, adds
    [l]. *)
Lemma bind_spawns {A B : Type} (m : M A) (k : A -> M B) (l : list (list (list Z))) :
  (forall w, spawnsOf (trace (snd (m w))) = spawnsOf (trace w) ++ l) ->
  (forall a w, spawnsOf (trace (snd (k a w))) = spawnsOf (trace w)) ->
  forall w, spawnsOf (trace (snd ((m ≫= k) w))) = spawnsOf (trace w) ++ l.
Proof.
  intros Hm Hk w. specialize (Hm w). unfold mbind, M_bind.
  destruct (m w) as [[a | e |] w']; simpl in *; [rewrite Hk|..]; exact Hm.
Qed.

Lemma try_catch_spawns {A : Type} (body : M A) (h : Exn -> M A)
    (l : list (list (list Z))) :
  (forall w, spawnsOf (trace (snd (body w))) = spawnsOf (trace w) ++ l) ->
  (forall e w, spawnsOf (trace (snd (h e w))) = spawnsOf (trace w)) ->
  forall w, spawnsOf (trace (snd (try_catch body h w))) = spawnsOf (trace w) ++ l.
Proof.
  intros Hb Hh w. specialize (Hb w). unfold try_catch.
  destruct (body w) as [[a | e |] w']; simpl in *; [|rewrite Hh|]; exact Hb.
Qed.

Lemma bind_spawns_nil {A B : Type} (m : M A) (k : A -> M B) :
  (forall w, spawnsOf (trace (snd (m w))) = spawnsOf (trace w)) ->
  (forall a w, spawnsOf (trace (snd (k a w))) = spawnsOf (trace w)) ->
  forall w, spawnsOf (trace (snd ((m ≫= k) w))) = spawnsOf (trace w).
Proof.
  intros Hm Hk w. rewrite <- (app_nil_r (spawnsOf (trace w))).
  apply bind_spawns; [|exact Hk]. intros w0. rewrite app_nil_r. apply Hm.
Qed.

Lemma fmap_spawns {A B : Type} (f : A -> B) (m : M A) (w : World) :
  snd ((f <$> m) w) = snd (m w).
Proof. unfold fmap, M_fmap. destruct (m w) as [[a | e |] w']; reflexivity. Qed.

(** After [fs.remove(dir)] nothing is left of [dir]. *)
Lemma fs_remove_gone (dir : list (list Z)) (w : World) :
  workspaceGone dir (snd (fs_remove dir w)).
Proof.
  intros entry Hin. simpl in Hin. apply list_elem_of_filter in Hin as [Hnot _].
  destruct (path_within dir (fst entry)); [contradiction | reflexivity].
Qed.

End RuntimeFacts.

(** ** One run of the child *)
Module AttemptFacts.
Import JsString Runtime RuntimeFacts Temp Downloader.

Lemma timer_resolve (r : DownloadResult) (a : Attempt) : timer (resolve r a) = timer a.
Proof. unfold resolve. destruct (settled a); reflexivity. Qed.

Lemma settled_resolve (r : DownloadResult) (a : Attempt) :
  settled (resolve r a) = Some (default r (settled a)).
Proof. unfold resolve. destruct (settled a) eqn:E; simpl; [exact E | reflexivity]. Qed.

Lemma settled_clearTimeout (a : Attempt) : settled (clearTimeout a) = settled a.
Proof. unfold clearTimeout. destruct (timer a); reflexivity. Qed.

Lemma timer_clearTimeout (a : Attempt) :
  timer (clearTimeout a) = match timer a with
                           | Armed _ => Cleared
                           | t => t
                           end.
Proof. unfold clearTimeout. destruct (timer a) eqn:E; simpl; congruence. Qed.

(** A listener leaves the world as it is and returns; what it does to the
    attempt depends on whether the event ends the child. *)
Lemma onEvent_effect (tempDir : list (list Z)) (ev : ChildEvent) (a : Attempt) (w : World) :
  exists a',
    onEvent tempDir ev a w = (Ok a', w)
    /\ timer a' = (if isExit ev then timer (clearTimeout a) else timer a)
    /\ (if isExit ev
        then exists r, settled a' = Some (default r (settled a))
        else settled a' = settled a).
Proof.
  destruct ev as [data | data | code | message]; simpl.
  - eexists. split; [reflexivity|]. split; reflexivity.
  - eexists. split; [reflexivity|]. split; reflexivity.
  - assert (forall r, exists a',
               (mret (resolve r (clearTimeout a)) : M Attempt) w = (Ok a', w)
               /\ timer a' = timer (clearTimeout a)
               /\ exists r, settled a' = Some (default r (settled a))) as Hres.
    { intros r. eexists. split; [reflexivity|]. split; [apply timer_resolve|].
      exists r. rewrite settled_resolve, settled_clearTimeout. reflexivity. }
    unfold onClose. destruct code as [[|p|p]|]; try apply Hres.
    unfold try_catch, mbind, M_bind, fs_readdir.
    destruct (fs_lookup (fs w) tempDir) as [[|size]|]; try apply Hres.
    destruct (find isVideoFile (Array_sort (fs_children (fs w) tempDir))); apply Hres.
  - unfold onError. eexists. split; [reflexivity|]. split; [apply timer_resolve|].
    eexists. rewrite settled_resolve, settled_clearTimeout. reflexivity.
Qed.

(** Once the promise is settled and the timer is not armed, the remaining
    events change neither, and the world is left alone. *)
Lemma runEvents_settled (tempDir : list (list Z)) (evs : list (N * ChildEvent))
    (t : Z) (a : Attempt) (w : World) (r : DownloadResult) :
  settled a = Some r ->
  timer a = Cleared \/ timer a = Fired ->
  exists a',
    runEvents tempDir evs t a w = (Ok a', w)
    /\ settled a' = Some r /\ timer a' = timer a.
Proof.
  revert t a. induction evs as [|[delay ev] evs IH]; intros t a Hs Ht; simpl.
  - exists a. unfold fireIfDue. destruct Ht as [-> | ->]; auto.
  - assert (fireIfDue (Some (t + Z.of_N delay)) a w = (Ok a, w)) as Hfire.
    { unfold fireIfDue. destruct Ht as [-> | ->]; reflexivity. }
    rewrite (bind_ok _ _ _ _ _ Hfire).
    destruct (onEvent_effect tempDir ev a w) as (a2 & E2 & Ht2 & Hs2).
    rewrite (bind_ok _ _ _ _ _ E2).
    assert (settled a2 = Some r) as Hs2'.
    { destruct (isExit ev); [destruct Hs2 as [r' Hs2]|]; rewrite Hs2, Hs; reflexivity. }
    assert (timer a2 = timer a) as Ht2'.
    { rewrite Ht2. destruct (isExit ev); [|reflexivity].
      rewrite timer_clearTimeout. destruct Ht as [-> | ->]; reflexivity. }
    destruct (IH (t + Z.of_N delay) a2 Hs2') as (a' & E & Hs' & Ht').
    { rewrite Ht2'. exact Ht. }
    exists a'. split; [exact E|]. split; [exact Hs' | congruence].
Qed.

Lemma firstExit_ge (evs : list (N * ChildEvent)) (t te : Z) :
  firstExit evs t = Some te -> t <= te.
Proof.
  revert t. induction evs as [|[delay ev] evs IH]; intros t; simpl; [discriminate|].
  destruct (isExit ev).
  - intros [= <-]. lia.
  - intros H. apply IH in H. lia.
Qed.

(** The timer wins when no event ends the child before it is due. *)
Lemma runEvents_timeout (tempDir : list (list Z)) (evs : list (N * ChildEvent))
    (t due : Z) (a : Attempt) (w : World) :
  timer a = Armed due ->
  settled a = None ->
  (forall te, firstExit evs t = Some te -> due <= te) ->
  exists a',
    runEvents tempDir evs t a w = (Ok a', record EvKill w)
    /\ settled a' = Some (failure (lit "Download timeout"))
    /\ timer a' = Fired.
Proof.
  revert t a. induction evs as [|[delay ev] evs IH]; intros t a Ht Hs Hexit; simpl.
  - unfold fireIfDue, onTimeout. rewrite Ht. eexists. split; [reflexivity|].
    rewrite settled_resolve, timer_resolve. simpl. rewrite Hs. split; reflexivity.
  - unfold fireIfDue at 1. rewrite Ht.
    destruct (due <=? t + Z.of_N delay) eqn:Edue.
    + set (a1 := resolve (failure (lit "Download timeout"))
                   {| timer := Fired; settled := settled a;
                      output := output a; errorOutput := errorOutput a |}).
      assert (onTimeout a w = (Ok a1, record EvKill w)) as E1 by reflexivity.
      rewrite (bind_ok _ _ _ _ _ E1).
      assert (settled a1 = Some (failure (lit "Download timeout"))) as Hs1.
      { unfold a1. rewrite settled_resolve. simpl. rewrite Hs. reflexivity. }
      assert (timer a1 = Fired) as Ht1.
      { unfold a1. rewrite timer_resolve. reflexivity. }
      destruct (onEvent_effect tempDir ev a1 (record EvKill w)) as (a2 & E2 & Ht2 & Hs2).
      rewrite (bind_ok _ _ _ _ _ E2).
      assert (settled a2 = Some (failure (lit "Download timeout"))) as Hs2'.
      { destruct (isExit ev); [destruct Hs2 as [r' Hs2]|]; rewrite Hs2, Hs1; reflexivity. }
      assert (timer a2 = Fired) as Ht2'.
      { rewrite Ht2. destruct (isExit ev); [|exact Ht1].
        rewrite timer_clearTimeout, Ht1. reflexivity. }
      destruct (runEvents_settled tempDir evs (t + Z.of_N delay) a2 (record EvKill w) _ Hs2')
        as (a' & E & Hs' & Ht'); [right; exact Ht2'|].
      exists a'. split; [exact E|]. split; [exact Hs' | congruence].
    + apply Z.leb_gt in Edue.
      destruct (isExit ev) eqn:Eexit.
      { specialize (Hexit (t + Z.of_N delay)). simpl in Hexit. rewrite Eexit in Hexit.
        specialize (Hexit eq_refl). lia. }
      assert ((mret a : M Attempt) w = (Ok a, w)) as E1 by reflexivity.
      rewrite (bind_ok _ _ _ _ _ E1).
      destruct (onEvent_effect tempDir ev a w) as (a2 & E2 & Ht2 & Hs2).
      rewrite (bind_ok _ _ _ _ _ E2). rewrite Eexit in Ht2, Hs2.
      apply IH; [congruence | congruence |].
      intros te Hte. apply Hexit. simpl. rewrite Eexit. exact Hte.
Qed.

(** The child wins when it ends before the timer is due: the timer is
    cleared, its callback never runs, and nothing is killed. *)
Lemma runEvents_exit_first (tempDir : list (list Z)) (evs : list (N * ChildEvent))
    (t due te : Z) (a : Attempt) (w : World) :
  timer a = Armed due ->
  settled a = None ->
  firstExit evs t = Some te ->
  te < due ->
  exists a' r,
    runEvents tempDir evs t a w = (Ok a', w)
    /\ settled a' = Some r
    /\ timer a' = Cleared.
Proof.
  revert t a. induction evs as [|[delay ev] evs IH]; intros t a Ht Hs Hexit Hlt; simpl.
  - discriminate.
  - simpl in Hexit.
    assert (t + Z.of_N delay <= te) as Hle.
    { destruct (isExit ev); [injection Hexit as <-; lia | apply firstExit_ge in Hexit; exact Hexit]. }
    assert (fireIfDue (Some (t + Z.of_N delay)) a w = (Ok a, w)) as E1.
    { unfold fireIfDue. rewrite Ht.
      replace (due <=? t + Z.of_N delay) with false by (symmetry; apply Z.leb_gt; lia).
      reflexivity. }
    rewrite (bind_ok _ _ _ _ _ E1).
    destruct (onEvent_effect tempDir ev a w) as (a2 & E2 & Ht2 & Hs2).
    rewrite (bind_ok _ _ _ _ _ E2).
    destruct (isExit ev) eqn:Eexit.
    + destruct Hs2 as [r Hs2]. rewrite Hs in Hs2. simpl in Hs2.
      rewrite timer_clearTimeout, Ht in Ht2.
      destruct (runEvents_settled tempDir evs (t + Z.of_N delay) a2 w _ Hs2)
        as (a' & E & Hs' & Ht'); [left; exact Ht2|].
      exists a', r. split; [exact E|]. split; [exact Hs' | congruence].
    + apply IH; [congruence | congruence | exact Hexit | exact Hlt].
Qed.

(** Every run settles: the promise of [runYtDlp] is resolved whatever the
    child does. *)
Lemma runEvents_settles (tempDir : list (list Z)) (evs : list (N * ChildEvent))
    (t due : Z) (a : Attempt) (w : World) :
  timer a = Armed due ->
  settled a = None ->
  exists a' w' r, runEvents tempDir evs t a w = (Ok a', w') /\ settled a' = Some r.
Proof.
  intros Ht Hs. destruct (firstExit evs t) as [te|] eqn:Eexit.
  - destruct (Z_lt_le_dec te due) as [Hlt | Hle].
    + destruct (runEvents_exit_first tempDir evs t due te a w Ht Hs Eexit Hlt)
        as (a' & r & E & Hs' & _).
      exists a', w, r. auto.
    + destruct (runEvents_timeout tempDir evs t due a w Ht Hs) as (a' & E & Hs' & _).
      { intros te' H. rewrite Eexit in H. injection H as <-. exact Hle. }
      eexists a', _, _. eauto.
  - destruct (runEvents_timeout tempDir evs t due a w Ht Hs) as (a' & E & Hs' & _).
    { intros te' H. rewrite Eexit in H. discriminate. }
    eexists a', _, _. eauto.
Qed.

End AttemptFacts.

(** ** Downloads *)
Module DownloadFacts.
Import JsString Runtime RuntimeFacts Temp Downloader AttemptFacts.

Section WithEnv.
Variable env : Env.
Variable config : DownloaderConfig.

Lemma runChild_timeout (args : list (list Z)) (tempDir : list (list Z)) (w : World) :
  (forall te, firstExit (child_events (child_at env (tick w) args)) 0 = Some te ->
              timerDelay (downloadTimeout config * 1000) <= te) ->
  exists a,
    runChild env config args tempDir w
    = (Ok (a, failure (lit "Download timeout")),
       record EvKill (snd (spawn env args tempDir w)))
    /\ timer a = Fired.
Proof.
  intros Hexit. unfold runChild.
  erewrite bind_ok by reflexivity. cbv zeta.
  destruct (runEvents_timeout tempDir (child_events (child_at env (tick w) args)) 0
              (timerDelay (downloadTimeout config * 1000))
              {| timer := Armed (timerDelay (downloadTimeout config * 1000));
                 settled := None; output := []; errorOutput := [] |}
              (snd (spawn env args tempDir w)) eq_refl eq_refl Hexit)
    as (a & E & Hs & Ht).
  erewrite bind_ok by exact E. rewrite Hs. exists a. split; [reflexivity | exact Ht].
Qed.

Lemma runChild_exit_first (args : list (list Z)) (tempDir : list (list Z)) (w : World)
    (te : Z) :
  firstExit (child_events (child_at env (tick w) args)) 0 = Some te ->
  te < timerDelay (downloadTimeout config * 1000) ->
  exists a r,
    runChild env config args tempDir w = (Ok (a, r), snd (spawn env args tempDir w))
    /\ timer a = Cleared.
Proof.
  intros Hexit Hlt. unfold runChild.
  erewrite bind_ok by reflexivity. cbv zeta.
  destruct (runEvents_exit_first tempDir (child_events (child_at env (tick w) args)) 0
              (timerDelay (downloadTimeout config * 1000)) te
              {| timer := Armed (timerDelay (downloadTimeout config * 1000));
                 settled := None; output := []; errorOutput := [] |}
              (snd (spawn env args tempDir w)) eq_refl eq_refl Hexit Hlt)
    as (a & r & E & Hs & Ht).
  erewrite bind_ok by exact E. rewrite Hs. exists a, r. split; [reflexivity | exact Ht].
Qed.

(** A run always comes back with a result, and the only traces it leaves
    are its spawn and, possibly, the kill. *)
Lemma runChild_returns (args : list (list Z)) (tempDir : list (list Z)) (w : World) :
  exists a r w',
    runChild env config args tempDir w = (Ok (a, r), w')
    /\ (w' = snd (spawn env args tempDir w)
        \/ w' = record EvKill (snd (spawn env args tempDir w))).
Proof.
  destruct (firstExit (child_events (child_at env (tick w) args)) 0) as [te|] eqn:Eexit.
  - destruct (Z_lt_le_dec te (timerDelay (downloadTimeout config * 1000))) as [Hlt | Hle].
    + destruct (runChild_exit_first args tempDir w te Eexit Hlt) as (a & r & E & _).
      exists a, r. eexists. split; [exact E | left; reflexivity].
    + destruct (runChild_timeout args tempDir w) as (a & E & _).
      { intros te' H. rewrite Eexit in H. injection H as <-. exact Hle. }
      exists a. do 2 eexists. split; [exact E | right; reflexivity].
  - destruct (runChild_timeout args tempDir w) as (a & E & _).
    { intros te' H. rewrite Eexit in H. discriminate. }
    exists a. do 2 eexists. split; [exact E | right; reflexivity].
Qed.

Lemma runChild_spawns (args : list (list Z)) (tempDir : list (list Z)) (w : World) :
  spawnsOf (trace (snd (runChild env config args tempDir w)))
  = spawnsOf (trace w) ++ [args].
Proof.
  destruct (runChild_returns args tempDir w) as (a & r & w' & E & [-> | ->]);
    rewrite E; simpl; rewrite ?spawnsOf_app; simpl; rewrite ?app_nil_r; reflexivity.
Qed.

Lemma settles_runChild (args : list (list Z)) (tempDir : list (list Z)) :
  settles (runChild env config args tempDir).
Proof.
  intros w. destruct (runChild_returns args tempDir w) as (a & r & w' & E & _).
  rewrite E. discriminate.
Qed.

Lemma settles_cleanupTempDir (dir : list (list Z)) : settles (cleanupTempDir dir).
Proof. intros w. discriminate. Qed.

Lemma settles_createTempDir (requestId : list Z) : settles (createTempDir env requestId).
Proof.
  apply settles_bind; [apply settles_fs_ensureDir | intros; apply settles_ret].
Qed.

Lemma settles_downloadLowerQuality (url requestId : list Z) :
  settles (downloadLowerQuality env config url requestId).
Proof.
  unfold downloadLowerQuality.
  apply settles_bind; [apply settles_createTempDir|]. intros tempDir.
  apply settles_try_catch.
  - apply settles_bind; [apply settles_fmap, settles_runChild|]. intros result.
    destruct (negb (success result)).
    + apply settles_bind; [apply settles_cleanupTempDir | intros; apply settles_ret].
    + destruct (filePath result); [|apply settles_throw].
      apply settles_bind; [apply settles_fs_stat | intros; apply settles_ret].
  - intros e. apply settles_bind; [apply settles_cleanupTempDir | intros; apply settles_ret].
Qed.

Lemma settles_download (url : list Z) : settles (download env config url).
Proof.
  unfold download.
  apply settles_bind; [apply settles_uuidv4|]. intros requestId.
  apply settles_bind; [apply settles_createTempDir|]. intros tempDir.
  apply settles_bind; [apply settles_Date_now|]. intros _.
  apply settles_try_catch.
  - apply settles_bind; [apply settles_fmap, settles_runChild|]. intros result.
    destruct (negb (success result)).
    + apply settles_bind; [apply settles_cleanupTempDir | intros; apply settles_ret].
    + destruct (filePath result); [|apply settles_throw].
      apply settles_bind; [apply settles_fs_stat|]. intros size.
      apply settles_bind; [apply settles_Date_now|]. intros _.
      destruct (tooLarge config size); [|apply settles_ret].
      apply settles_bind; [apply settles_cleanupTempDir|]. intros _.
      apply settles_downloadLowerQuality.
  - intros e. apply settles_bind; [apply settles_cleanupTempDir | intros; apply settles_ret].
Qed.

End WithEnv.

End DownloadFacts.

Module RetryFacts.
Import JsString Runtime RuntimeFacts Temp Downloader AttemptFacts DownloadFacts.

Section WithEnv.
Variable env : Env.
Variable config : DownloaderConfig.

Lemma createTempDir_ok (requestId : list Z) (w : World) :
  ensureDir_refused env (tick w) = None ->
  createTempDir env requestId w
  = (Ok (path_join (TEMP_BASE_DIR env) requestId),
     bump (with_fs (foldl fs_mkdir (fs w)
                      (path_chain (path_join (TEMP_BASE_DIR env) requestId))) w)).
Proof.
  intros H. unfold createTempDir, mbind, M_bind, fs_ensureDir. rewrite H. reflexivity.
Qed.

Lemma createTempDir_refused (requestId : list Z) (w : World) (message : list Z) :
  ensureDir_refused env (tick w) = Some message ->
  createTempDir env requestId w = (Throw (JsError message), bump w).
Proof.
  intros H. unfold createTempDir, mbind, M_bind, fs_ensureDir. rewrite H. reflexivity.
Qed.

Lemma cleanupTempDir_spawns (dir : list (list Z)) (w : World) :
  spawnsOf (trace (snd (cleanupTempDir dir w))) = spawnsOf (trace w).
Proof. reflexivity. Qed.

Lemma fs_stat_world (p : list (list Z)) (w : World) : snd (fs_stat p w) = w.
Proof. unfold fs_stat. destruct (fs_lookup (fs w) p) as [[|]|]; reflexivity. Qed.

(** What stands in the [try] of [downloadLowerQuality], and its handler. *)
Lemma lowerQuality_body_spawns (url requestId : list Z) (tempDir : list (list Z)) (w : World) :
  spawnsOf (trace (snd (try_catch
    (result ← runYtDlpLowerQuality env config url tempDir requestId;
     if negb (success result)
     then cleanupTempDir tempDir ;; mret result
     else
       match filePath result with
       | None => throw (JsError (lit "The path argument must be of type string"))
       | Some filePath_ =>
           size ← fs_stat filePath_;
           mret {| success := true; filePath := Some filePath_;
                   title := title result; error := None; fileSize := Some size |}
       end)
    (fun error_ =>
       cleanupTempDir tempDir ;;
       mret (failure (errorMessage error_))) w)))
  = spawnsOf (trace w) ++ [runYtDlpLowerQuality_args url tempDir].
Proof.
  revert w. apply try_catch_spawns.
  - apply bind_spawns.
    + intros w. unfold runYtDlpLowerQuality. rewrite fmap_spawns. apply runChild_spawns.
    + intros result w. destruct (negb (success result)); [reflexivity|].
      destruct (filePath result) as [fp|]; [|reflexivity].
      apply bind_spawns_nil; [|reflexivity].
      intros w0. rewrite fs_stat_world. reflexivity.
  - intros e w. reflexivity.
Qed.

(** The second attempt spawns one child, with the height-capped selector,
    unless its workspace is refused, in which case it spawns none and
    throws. *)
Lemma downloadLowerQuality_spawns (url requestId : list Z) (w : World) :
  match ensureDir_refused env (tick w) with
  | None =>
      spawnsOf (trace (snd (downloadLowerQuality env config url requestId w)))
      = spawnsOf (trace w)
        ++ [runYtDlpLowerQuality_args url (path_join (TEMP_BASE_DIR env) requestId)]
  | Some message =>
      downloadLowerQuality env config url requestId w = (Throw (JsError message), bump w)
  end.
Proof.
  destruct (ensureDir_refused env (tick w)) as [message|] eqn:E; unfold downloadLowerQuality.
  - erewrite bind_throw by (apply createTempDir_refused; exact E). reflexivity.
  - erewrite bind_ok by (apply createTempDir_ok; exact E).
    rewrite lowerQuality_body_spawns. reflexivity.
Qed.

Lemma createTempDir_result (requestId : list Z) (w w' : World) (tempDir : list (list Z)) :
  createTempDir env requestId w = (Ok tempDir, w') ->
  tempDir = path_join (TEMP_BASE_DIR env) requestId
  /\ trace w' = trace w
  /\ ensureDir_refused env (tick w) = None.
Proof.
  destruct (ensureDir_refused env (tick w)) as [message|] eqn:E.
  - rewrite (createTempDir_refused _ _ _ E). discriminate.
  - rewrite (createTempDir_ok _ _ E). intros [= <- <-]. auto.
Qed.

(** C1.  Take any URL and any state in which the workspace is allocated, the
    first run of the child succeeds and the file it left is larger than the
    configured maximum.  Then [download] hands over to the lower-quality
    attempt, once, and returns what that attempt yields: its result if it
    returns one, a failure with its message if it throws.  In all, two
    children are spawned, or one if the second workspace is refused; never a
    third.  The second child gets the arguments of the first with the format
    selector capped at a height of 480: for a link that holds
    [instagram.com], [bestvideo[height<=480][ext=mp4]+bestaudio[ext=m4a]/best[height<=480][ext=mp4]/best]
    in place of [bestvideo[ext=mp4]+bestaudio[ext=m4a]/best[ext=mp4]/best];
    for any other, [bestvideo[height<=480]+bestaudio/best[height<=480]/best]
    in place of [bestvideo+bestaudio/best].  The size of the second file is
    not compared with the limit: whatever the second run reports is handed
    back, success with that file and its size or the run's failure. *)
Theorem download_single_retry (url : list Z) (w w2 w4 : World)
    (tempDir fp : list (list Z)) (r1 : DownloadResult) (size : Z) :
  let requestId := uuid_at env (tick w) in
  createTempDir env requestId (bump w) = (Ok tempDir, w2) ->
  runYtDlp env config url tempDir requestId (bump w2) = (Ok r1, w4) ->
  success r1 = true ->
  filePath r1 = Some fp ->
  fs_stat fp w4 = (Ok size, w4) ->
  tooLarge config size = true ->
  let w5 := snd (cleanupTempDir tempDir (bump w4)) in
  let second := downloadLowerQuality env config url requestId w5 in
  download env config url w
  = match second with
    | (Throw e, w6) => (Ok (failure (errorMessage e)), snd (cleanupTempDir tempDir w6))
    | other => other
    end
  /\ (spawnsOf (trace (snd (download env config url w)))
      = spawnsOf (trace w)
        ++ [runYtDlp_args url tempDir; runYtDlpLowerQuality_args url tempDir]
      \/ exists message,
           ensureDir_refused env (tick w5) = Some message
           /\ fst (download env config url w) = Ok (failure message)
           /\ spawnsOf (trace (snd (download env config url w)))
              = spawnsOf (trace w) ++ [runYtDlp_args url tempDir])
  /\ (forall w5' r2 w6,
         createTempDir env requestId w5 = (Ok tempDir, w5') ->
         runYtDlpLowerQuality env config url tempDir requestId w5' = (Ok r2, w6) ->
         (success r2 = false ->
          download env config url w = (Ok r2, snd (cleanupTempDir tempDir w6)))
         /\ (forall fp2 size2,
                success r2 = true ->
                filePath r2 = Some fp2 ->
                fs_stat fp2 w6 = (Ok size2, w6) ->
                download env config url w
                = (Ok {| success := true; filePath := Some fp2; title := title r2;
                         error := None; fileSize := Some size2 |}, w6)))
  /\ (let vector selector codec :=
        [lit "--no-playlist"; lit "--no-progress"; lit "-f"; selector;
         lit "--merge-output-format"; lit "mp4"]
        ++ codec
        ++ [lit "-o"; path_string (path_join tempDir OUTPUT_TEMPLATE); url] in
      let reencode :=
        [lit "--postprocessor-args";
         lit "ffmpeg:-c:v libx264 -c:a aac -pix_fmt yuv420p -movflags +faststart"] in
      let remux := [lit "--remux-video"; lit "mp4"] in
      (runYtDlp_args url tempDir
       = vector (lit "bestvideo[ext=mp4]+bestaudio[ext=m4a]/best[ext=mp4]/best") reencode
       /\ runYtDlpLowerQuality_args url tempDir
          = vector
              (lit "bestvideo[height<=480][ext=mp4]+bestaudio[ext=m4a]/best[height<=480][ext=mp4]/best")
              reencode)
      \/ (runYtDlp_args url tempDir = vector (lit "bestvideo+bestaudio/best") remux
          /\ runYtDlpLowerQuality_args url tempDir
             = vector (lit "bestvideo[height<=480]+bestaudio/best[height<=480]/best")
                 remux)).
Proof.
  intros requestId Hdir Hrun Hok Hfp Hstat Hbig w5 second.
  assert (download env config url w
          = match second with
            | (Throw e, w6) =>
                (Ok (failure (errorMessage e)), snd (cleanupTempDir tempDir w6))
            | other => other
            end) as Hdl.
  { unfold download.
    erewrite bind_ok by reflexivity. fold requestId.
    erewrite bind_ok by exact Hdir.
    erewrite bind_ok by reflexivity.
    unfold try_catch at 1.
    erewrite bind_ok by exact Hrun.
    rewrite Hok, Hfp. cbn [negb].
    erewrite bind_ok by exact Hstat.
    erewrite bind_ok by reflexivity.
    rewrite Hbig.
    rewrite (bind_ok (cleanupTempDir tempDir) _ (bump w4) w5 tt eq_refl).
    change (downloadLowerQuality env config url requestId w5) with second.
    destruct second as [[r | e |] w6]; reflexivity. }
  destruct (createTempDir_result _ _ _ _ Hdir) as (Etemp & Htrace2 & _).
  assert (spawnsOf (trace w5) = spawnsOf (trace w) ++ [runYtDlp_args url tempDir]) as Hfirst.
  { unfold w5. simpl. pose proof (runChild_spawns env config (runYtDlp_args url tempDir) tempDir (bump w2)) as H.
    unfold runYtDlp in Hrun.
    rewrite <- (fmap_spawns snd), Hrun in H. simpl in H. rewrite H, Htrace2. reflexivity. }
  split; [exact Hdl|]. split; [|split].
  - pose proof (downloadLowerQuality_spawns url requestId w5) as Hsp.
    rewrite Hdl. fold second in Hsp.
    destruct (ensureDir_refused env (tick w5)) as [message|] eqn:Eref.
    + right. exists message. rewrite Hsp. simpl. split; [reflexivity|].
      split; [reflexivity | exact Hfirst].
    + left. rewrite <- Etemp in Hsp.
      destruct second as [[r | e |] w6]; simpl in *; rewrite Hsp, Hfirst, <- app_assoc;
        reflexivity.
  - intros w5' r2 w6 Hdir2 Hrun2.
    assert (second
            = try_catch
                (result ← runYtDlpLowerQuality env config url tempDir requestId;
                 if negb (success result)
                 then cleanupTempDir tempDir ;; mret result
                 else
                   match filePath result with
                   | None => throw (JsError (lit "The path argument must be of type string"))
                   | Some filePath_ =>
                       size ← fs_stat filePath_;
                       mret {| success := true; filePath := Some filePath_;
                               title := title result; error := None;
                               fileSize := Some size |}
                   end)
                (fun error_ =>
                   cleanupTempDir tempDir ;;
                   mret (failure (errorMessage error_))) w5') as Hsecond.
    { unfold second, downloadLowerQuality. erewrite bind_ok by exact Hdir2. reflexivity. }
    split.
    + intros Hfail. rewrite Hdl, Hsecond. unfold try_catch.
      erewrite bind_ok by exact Hrun2. rewrite Hfail. reflexivity.
    + intros fp2 size2 Hok2 Hfp2 Hstat2. rewrite Hdl, Hsecond. unfold try_catch.
      erewrite bind_ok by exact Hrun2. rewrite Hok2, Hfp2. cbn [negb].
      erewrite bind_ok by exact Hstat2. reflexivity.
  - cbv zeta. unfold runYtDlp_args, runYtDlpLowerQuality_args, ytDlpArgs.
    destruct (isInstagramUrl url); [left | right]; split; reflexivity.
Qed.

End WithEnv.

Lemma download_single_retry_witness :
  let run :=
    download (Scenario.calmEnv 62914560) Scenario.config49 (lit "https://youtu.be/x1")
      Scenario.emptyWorld in
  run
  = (Ok {| success := true;
           filePath := Some (path_join Scenario.workspace (lit "My Clip.mp4"));
           title := Some (lit "My Clip"); error := None;
           fileSize := Some 62914560 |},
     snd run)
  /\ spawnsOf (trace (snd run))
     = [[lit "--no-playlist"; lit "--no-progress"; lit "-f";
         lit "bestvideo+bestaudio/best";
         lit "--merge-output-format"; lit "mp4"; lit "--remux-video"; lit "mp4";
         lit "-o"; lit "/app/temp/3f2b8c1e/%(title)s.%(ext)s"; lit "https://youtu.be/x1"];
        [lit "--no-playlist"; lit "--no-progress"; lit "-f";
         lit "bestvideo[height<=480]+bestaudio/best[height<=480]/best";
         lit "--merge-output-format"; lit "mp4"; lit "--remux-video"; lit "mp4";
         lit "-o"; lit "/app/temp/3f2b8c1e/%(title)s.%(ext)s"; lit "https://youtu.be/x1"]].
Proof.
  intros run. subst run.
  edestruct (download_single_retry (Scenario.calmEnv 62914560) Scenario.config49
               (lit "https://youtu.be/x1") Scenario.emptyWorld) as (_ & Hspawns & H & Hargs);
    [reflexivity | reflexivity | reflexivity | reflexivity | reflexivity | reflexivity |].
  split.
  - edestruct H as [_ H']; [reflexivity | reflexivity |].
    rewrite (H' _ _ eq_refl eq_refl eq_refl). reflexivity.
  - destruct Hspawns as [-> | (message & Href & _)]; [|discriminate Href].
    destruct Hargs as [[Hfirst _] | [-> ->]]; [discriminate Hfirst | reflexivity].
Defined.

End RetryFacts.

Module TimeoutFacts.
Import JsString Runtime RuntimeFacts Temp Downloader AttemptFacts DownloadFacts RetryFacts.

Section WithEnv.
Variable env : Env.
Variable config : DownloaderConfig.

Lemma cleanupTempDir_gone (dir : list (list Z)) (w : World) :
  workspaceGone dir (snd (cleanupTempDir dir w)).
Proof. apply fs_remove_gone. Qed.

Lemma download_timeout (url : list Z) (w w2 : World) (tempDir : list (list Z)) :
  createTempDir env (uuid_at env (tick w)) (bump w) = (Ok tempDir, w2) ->
  (forall te,
      firstExit (child_events (child_at env (tick (bump w2)) (runYtDlp_args url tempDir))) 0
      = Some te ->
      timerDelay (downloadTimeout config * 1000) <= te) ->
  exists w',
    download env config url w = (Ok (failure (lit "Download timeout")), w')
    /\ workspaceGone tempDir w'.
Proof.
  intros Hdir Hexit.
  destruct (runChild_timeout env config _ tempDir (bump w2) Hexit) as (a & E & _).
  eexists. split.
  - unfold download.
    erewrite bind_ok by reflexivity.
    erewrite bind_ok by exact Hdir.
    erewrite bind_ok by reflexivity.
    apply try_catch_ok. unfold runYtDlp.
    erewrite bind_ok by (apply fmap_ok; exact E).
    reflexivity.
  - apply cleanupTempDir_gone.
Qed.

Lemma downloadLowerQuality_timeout (url requestId : list Z) (w w1 : World)
    (tempDir : list (list Z)) :
  createTempDir env requestId w = (Ok tempDir, w1) ->
  (forall te,
      firstExit (child_events (child_at env (tick w1) (runYtDlpLowerQuality_args url tempDir))) 0
      = Some te ->
      timerDelay (downloadTimeout config * 1000) <= te) ->
  exists w',
    downloadLowerQuality env config url requestId w
    = (Ok (failure (lit "Download timeout")), w')
    /\ workspaceGone tempDir w'.
Proof.
  intros Hdir Hexit.
  destruct (runChild_timeout env config _ tempDir w1 Hexit) as (a & E & _).
  eexists. split.
  - unfold downloadLowerQuality.
    erewrite bind_ok by exact Hdir.
    apply try_catch_ok. unfold runYtDlpLowerQuality.
    erewrite bind_ok by (apply fmap_ok; exact E).
    reflexivity.
  - apply cleanupTempDir_gone.
Qed.

(** C2.  For every run of the child, with the timer set to the configured
    number of seconds (120 when the variable is not set; the deadline is that
    many milliseconds for any delay [setTimeout] takes as given): if the child
    has neither closed nor failed to start by the deadline, the timer's
    callback runs, the child is sent SIGTERM and the run's result is the
    failure [Download timeout]; if the child closes or fails to start before
    the deadline, the timer is cleared, so that it is still cleared, and no
    signal was sent, when the child is long over.  Both attempts of
    [download] answer a timed-out run with that failure and with the removal
    of the workspace and all that is in it. *)
Theorem timeout_enforced (url requestId : list Z) (args : list (list Z))
    (tempDir : list (list Z)) (w : World) :
  let deadline := timerDelay (downloadTimeout config * 1000) in
  ((forall te,
       firstExit (child_events (child_at env (tick w) args)) 0 = Some te ->
       deadline < te) ->
   exists a w',
     runChild env config args tempDir w
     = (Ok (a, failure (lit "Download timeout")), w')
     /\ timer a = Fired
     /\ trace w' = trace w ++ [EvSpawn args; EvKill])
  /\ (forall te,
         firstExit (child_events (child_at env (tick w) args)) 0 = Some te ->
         te < deadline ->
         exists a r w',
           runChild env config args tempDir w = (Ok (a, r), w')
           /\ timer a = Cleared
           /\ trace w' = trace w ++ [EvSpawn args])
  /\ (forall w2,
         createTempDir env (uuid_at env (tick w)) (bump w) = (Ok tempDir, w2) ->
         (forall te,
             firstExit (child_events
                          (child_at env (tick (bump w2)) (runYtDlp_args url tempDir))) 0
             = Some te ->
             deadline < te) ->
         exists w',
           download env config url w = (Ok (failure (lit "Download timeout")), w')
           /\ workspaceGone tempDir w')
  /\ (forall w1,
         createTempDir env requestId w = (Ok tempDir, w1) ->
         (forall te,
             firstExit (child_events
                          (child_at env (tick w1) (runYtDlpLowerQuality_args url tempDir))) 0
             = Some te ->
             deadline < te) ->
         exists w',
           downloadLowerQuality env config url requestId w
           = (Ok (failure (lit "Download timeout")), w')
           /\ workspaceGone tempDir w')
  /\ (1 <= downloadTimeout config * 1000 <= 2147483647 ->
      deadline = downloadTimeout config * 1000)
  /\ (Index.downloadTimeoutOf None = Access.Finite 120
      /\ timerDelay (120 * 1000) = 120000).
Proof.
  intros deadline. split; [|split; [|split; [|split; [|split]]]].
  - intros Hexit.
    destruct (runChild_timeout env config args tempDir w) as (a & E & Ht).
    { intros te H. apply Hexit in H. fold deadline. lia. }
    exists a. eexists. split; [exact E|]. split; [exact Ht|].
    simpl. rewrite <- app_assoc. reflexivity.
  - intros te Hexit Hlt.
    destruct (runChild_exit_first env config args tempDir w te Hexit Hlt) as (a & r & E & Ht).
    exists a, r. eexists. split; [exact E|]. split; [exact Ht | reflexivity].
  - intros w2 Hdir Hexit. apply (download_timeout url w w2 tempDir Hdir).
    intros te H. apply Hexit in H. fold deadline. lia.
  - intros w1 Hdir Hexit. apply (downloadLowerQuality_timeout url requestId w w1 tempDir Hdir).
    intros te H. apply Hexit in H. fold deadline. lia.
  - intros [Hlo Hhi]. unfold deadline, timerDelay.
    replace (downloadTimeout config * 1000 <? 1) with false
      by (symmetry; apply Z.ltb_ge; lia).
    replace (2147483647 <? downloadTimeout config * 1000) with false
      by (symmetry; apply Z.ltb_ge; lia).
    reflexivity.
  - split; reflexivity.
Qed.

End WithEnv.

Lemma timeout_enforced_witness :
  exists w',
    download Scenario.hangingEnv Scenario.config49 (lit "https://youtu.be/x1")
      Scenario.emptyWorld
    = (Ok (failure (lit "Download timeout")), w')
    /\ workspaceGone Scenario.workspace w'.
Proof.
  refine (proj1 (proj2 (proj2 (timeout_enforced Scenario.hangingEnv Scenario.config49
            (lit "https://youtu.be/x1") [] [] Scenario.workspace Scenario.emptyWorld)))
            _ _ _).
  - reflexivity.
  - intros te H. discriminate H.
Defined.

End TimeoutFacts.

(** ** Workspaces of failed downloads *)
Module CleanupFacts.
Import JsString Runtime RuntimeFacts Temp Downloader AttemptFacts DownloadFacts RetryFacts
  TimeoutFacts.

Section WithEnv.
Variable env : Env.
Variable config : DownloaderConfig.

(** A failed second attempt leaves nothing of its workspace. *)
Lemma downloadLowerQuality_failure_cleans (url requestId : list Z) (w w' : World)
    (r : DownloadResult) :
  downloadLowerQuality env config url requestId w = (Ok r, w') ->
  success r = false ->
  workspaceGone (path_join (TEMP_BASE_DIR env) requestId) w'.
Proof.
  unfold downloadLowerQuality.
  destruct (ensureDir_refused env (tick w)) as [message|] eqn:Eref.
  - erewrite bind_throw by (apply createTempDir_refused; exact Eref). discriminate.
  - erewrite bind_ok by (apply createTempDir_ok; exact Eref).
    set (tempDir := path_join (TEMP_BASE_DIR env) requestId).
    set (w1 := bump _).
    destruct (runChild_returns env config (runYtDlpLowerQuality_args url tempDir) tempDir w1)
      as (a & r2 & w2 & Erun & _).
    unfold try_catch, runYtDlpLowerQuality.
    erewrite bind_ok by (apply fmap_ok; exact Erun). simpl.
    destruct (success r2) eqn:Eok; simpl.
    + destruct (filePath r2) as [fp|].
      * unfold mbind at 1, M_bind, fs_stat.
        destruct (fs_lookup (fs w2) fp) as [[|size]|].
        -- simpl. intros [= <- <-]. discriminate.
        -- simpl. intros [= <- <-]. discriminate.
        -- simpl. intros [= <- <-] _. apply cleanupTempDir_gone.
      * simpl. intros [= <- <-] _. apply cleanupTempDir_gone.
    + simpl. intros [= <- <-] _. apply cleanupTempDir_gone.
Qed.

(** X18.  Whenever [download] returns a failure, the workspace of the
    request and all that was in it are gone: after a failed first run, after
    an exception, and after an oversize first file followed by a second
    attempt that fails or cannot start. *)
Lemma download_failure_cleans (url : list Z) (w w' : World) (r : DownloadResult) :
  download env config url w = (Ok r, w') ->
  success r = false ->
  workspaceGone (path_join (TEMP_BASE_DIR env) (uuid_at env (tick w))) w'.
Proof.
  unfold download.
  erewrite bind_ok by reflexivity.
  set (requestId := uuid_at env (tick w)).
  destruct (ensureDir_refused env (tick (bump w))) as [message|] eqn:Eref.
  - erewrite bind_throw by (apply createTempDir_refused; exact Eref). discriminate.
  - erewrite bind_ok by (apply createTempDir_ok; exact Eref).
    set (tempDir := path_join (TEMP_BASE_DIR env) requestId).
    erewrite bind_ok by reflexivity.
    set (w3 := bump (bump _)).
    destruct (runChild_returns env config (runYtDlp_args url tempDir) tempDir w3)
      as (a & r1 & w4 & Erun & _).
    unfold try_catch, runYtDlp.
    erewrite bind_ok by (apply fmap_ok; exact Erun). simpl.
    destruct (success r1) eqn:Eok; simpl.
    + destruct (filePath r1) as [fp|].
      * unfold mbind at 1, M_bind at 1, fs_stat.
        destruct (fs_lookup (fs w4) fp) as [[|size]|].
        -- cbv beta iota. erewrite bind_ok by reflexivity.
           destruct (tooLarge config 4096).
           ++ erewrite bind_ok by reflexivity.
              destruct (downloadLowerQuality env config url requestId _)
                as [[r2 | e |] w5] eqn:E2.
              ** simpl. intros [= <- <-] Hfail.
                 eapply downloadLowerQuality_failure_cleans; eassumption.
              ** simpl. intros [= <- <-] _. apply cleanupTempDir_gone.
              ** discriminate.
           ++ simpl. intros [= <- <-]. discriminate.
        -- cbv beta iota. erewrite bind_ok by reflexivity.
           destruct (tooLarge config size).
           ++ erewrite bind_ok by reflexivity.
              destruct (downloadLowerQuality env config url requestId _)
                as [[r2 | e |] w5] eqn:E2.
              ** simpl. intros [= <- <-] Hfail.
                 eapply downloadLowerQuality_failure_cleans; eassumption.
              ** simpl. intros [= <- <-] _. apply cleanupTempDir_gone.
              ** discriminate.
           ++ simpl. intros [= <- <-]. discriminate.
        -- simpl. intros [= <- <-] _. apply cleanupTempDir_gone.
      * simpl. intros [= <- <-] _. apply cleanupTempDir_gone.
    + simpl. intros [= <- <-] _. apply cleanupTempDir_gone.
Qed.

End WithEnv.

Lemma download_failure_cleans_witness :
  workspaceGone Scenario.workspace
    (snd (download Scenario.failingEnv Scenario.config49 (lit "https://youtu.be/x1")
            Scenario.emptyWorld)).
Proof.
  apply (download_failure_cleans Scenario.failingEnv Scenario.config49
           (lit "https://youtu.be/x1") Scenario.emptyWorld _ (failure MSG_PRIVATE)).
  - vm_compute. reflexivity.
  - reflexivity.
Defined.

End CleanupFacts.

(** ** The message handler *)
Module BotFacts.
Import JsString Runtime RuntimeFacts Temp Downloader DownloadFacts Bot.

Section WithEnv.
Variable env : Env.
Variable accessControl : Access.AccessControl.
Variable config : DownloaderConfig.

Lemma settles_sendVideo (ctx : Context) (result : DownloadResult) (url : list Z) :
  settles (sendVideo env ctx result url).
Proof.
  unfold sendVideo. destruct (filePath result) as [fp|]; [|apply settles_ret].
  apply settles_try_finally.
  - apply settles_try_catch.
    + apply settles_bind; [apply settles_telegram | intros; apply settles_ret].
    + intros _. apply settles_try_catch.
      * apply settles_bind; [apply settles_telegram | intros; apply settles_ret].
      * intros _. apply settles_bind; [apply settles_telegram | intros; apply settles_ret].
  - apply settles_catch_ignore, settles_cleanupTempDir.
Qed.

Lemma settles_processUrl (ctx : Context) (url : list Z) (userId : Z) :
  settles (processUrl env config ctx url userId).
Proof.
  unfold processUrl. apply settles_bind; [apply settles_telegram|]. intros statusMessage.
  destruct (chat_id ctx) as [chatId|]; [|apply settles_ret].
  apply settles_try_catch.
  - apply settles_bind; [apply settles_download|]. intros result.
    destruct (negb (success result)).
    + apply settles_bind; [apply settles_telegram | intros; apply settles_ret].
    + apply settles_bind; [apply settles_telegram|]. intros _.
      apply settles_bind; [apply settles_sendVideo|]. intros _.
      apply settles_catch_ignore.
      apply settles_bind; [apply settles_telegram | intros; apply settles_ret].
  - intros e. apply settles_bind; [apply settles_telegram | intros; apply settles_ret].
Qed.

Lemma settles_forEach {A : Type} (items : list A) (body : A -> M unit) :
  (forall x, settles (body x)) -> settles (forEach items body).
Proof.
  intros Hb. induction items as [|x items IH]; simpl; [apply settles_ret|].
  apply settles_bind; [apply Hb | intros; exact IH].
Qed.

(** The world in which the batch starts: the clock was read and the user
    marked as in progress. *)
Lemma runBatch_unfold (ctx : Context) (userId : Z) (urls : list (list Z)) (w : World) :
  runBatch env config ctx userId urls w
  = try_finally
      (forEach urls (fun url => processUrl env config ctx url userId))
      (now' ← Date_now env;
       setSession userId {| isProcessing := false; lastRequestTime := now' |})
      (with_sessions
         (<[userId := {| isProcessing := true; lastRequestTime := now_at env (tick w) |}]>
            (userSessions w))
         (bump w)).
Proof. reflexivity. Qed.

(** The [finally] block: whatever the loop did, short of never coming back,
    the session is reset with the time read after the loop. *)
Lemma runBatch_outcome (ctx : Context) (userId : Z) (urls : list (list Z))
    (w w1 : World) (o : Outcome unit) :
  forEach urls (fun url => processUrl env config ctx url userId)
    (with_sessions
       (<[userId := {| isProcessing := true; lastRequestTime := now_at env (tick w) |}]>
          (userSessions w))
       (bump w))
  = (o, w1) ->
  o <> Pending ->
  runBatch env config ctx userId urls w
  = (o, with_sessions
          (<[userId := {| isProcessing := false; lastRequestTime := now_at env (tick w1) |}]>
             (userSessions w1))
          (bump w1)).
Proof.
  intros E Ho. rewrite runBatch_unfold. unfold try_finally. rewrite E.
  destruct o as [[] | e |]; [reflexivity | reflexivity | contradiction].
Qed.

Lemma onMessage_checked (ctx : Context) (userId : Z) (text : list Z) (w : World) :
  from_id ctx = Some userId ->
  userId <> 0 ->
  message_text ctx = Some text ->
  text <> [] ->
  Access.isAllowed accessControl userId = true ->
  onMessage env accessControl config ctx w
  = (let session := userSessions w !! userId in
     if match session with
        | Some s => isProcessing s
        | None => false
        end
     then reply env TEXT_BUSY ;; mret tt
     else
       tooSoon ← tooSoonAfter env session;
       if (tooSoon : bool)
       then reply env TEXT_TOO_SOON ;; mret tt
       else
         match Url.extractUrls text with
         | [] => reply env TEXT_NO_URL ;; mret tt
         | urls => runBatch env config ctx userId urls
         end) w.
Proof.
  intros Hfrom Hid Htext Hne Hallowed. unfold onMessage.
  rewrite Hfrom, Htext, Hallowed. apply Z.eqb_neq in Hid. rewrite Hid.
  destruct text as [|c t]; [contradiction|]. reflexivity.
Qed.

Lemma reply_sessions (text : list Z) (w : World) :
  userSessions (snd ((reply env text ;; mret tt) w)) = userSessions w.
Proof.
  unfold reply, telegram, mbind, M_bind.
  destruct (telegram_refused env (tick w)); reflexivity.
Qed.


Variable startCommand : Context -> bool.


(** C10.  A batch that has started always comes back, and when it does the
    user's session is marked idle and stamped anew, whatever the outcome: in
    particular, when the processing of a link throws past its own handler,
    the remaining links are dropped, the exception goes on to the caller, and
    the session is reset all the same with the clock read at that point.  The
    handler runs exactly this once a message has passed the checks. *)
Theorem failed_batch_resets_session (ctx : Context) (userId : Z)
    (urls : list (list Z)) (w : World) :
  let started :=
    with_sessions
      (<[userId := {| isProcessing := true; lastRequestTime := now_at env (tick w) |}]>
         (userSessions w))
      (bump w) in
  let batch := forEach urls (fun url => processUrl env config ctx url userId) in
  (exists o w' t,
      runBatch env config ctx userId urls w = (o, w')
      /\ o <> Pending
      /\ userSessions w' !! userId
         = Some {| isProcessing := false; lastRequestTime := t |})
  /\ (forall e w1,
         batch started = (Throw e, w1) ->
         runBatch env config ctx userId urls w
         = (Throw e,
            with_sessions
              (<[userId := {| isProcessing := false;
                              lastRequestTime := now_at env (tick w1) |}]>
                 (userSessions w1))
              (bump w1)))
  /\ (forall text w_in,
         from_id ctx = Some userId ->
         userId <> 0 ->
         message_text ctx = Some text ->
         text <> [] ->
         Access.isAllowed accessControl userId = true ->
         match userSessions w_in !! userId with
         | Some s => isProcessing s
         | None => false
         end = false ->
         tooSoonAfter env (userSessions w_in !! userId) w_in = (Ok false, w) ->
         Url.extractUrls text = urls ->
         urls <> [] ->
         onMessage env accessControl config ctx w_in
         = runBatch env config ctx userId urls w).
Proof.
  intros started batch. split; [|split].
  - assert (fst (batch started) <> Pending) as Hback.
    { apply settles_forEach. intros url. apply settles_processUrl. }
    destruct (batch started) as [o w1] eqn:E. simpl in Hback.
    do 3 eexists. split; [apply (runBatch_outcome ctx userId urls w w1 o E Hback)|].
    split; [exact Hback | apply lookup_insert_eq].
  - intros e w1 E. apply (runBatch_outcome ctx userId urls w w1 (Throw e) E). discriminate.
  - intros text w_in Hfrom Hid Htext Hne Hallowed Hidle Hsoon Hurls Hsome.
    rewrite (onMessage_checked ctx userId text w_in Hfrom Hid Htext Hne Hallowed).
    cbv zeta. rewrite Hidle. rewrite (bind_ok _ _ _ _ _ Hsoon). rewrite Hurls.
    destruct urls; [contradiction | reflexivity].
Qed.

End WithEnv.



Lemma failed_batch_resets_session_witness :
  runBatch Scenario.deafEnv Scenario.config49
    (Scenario.message 7 "https://youtu.be/x1") 7 [lit "https://youtu.be/x1"]
    Scenario.emptyWorld
  = (Throw (JsError (lit "ETIMEDOUT")),
     {| fs := [];
        userSessions :=
          <[7 := {| isProcessing := false; lastRequestTime := 1700000002000 |}]>
            (<[7 := {| isProcessing := true; lastRequestTime := 1700000000000 |}]> ∅);
        tick := 3; trace := [] |}).
Proof.
  rewrite (proj1 (proj2 (failed_batch_resets_session Scenario.deafEnv Scenario.allowList
                           Scenario.config49 (Scenario.message 7 "https://youtu.be/x1") 7
                           [lit "https://youtu.be/x1"] Scenario.emptyWorld))
             (JsError (lit "ETIMEDOUT"))
             {| fs := [];
                userSessions :=
                  <[7 := {| isProcessing := true; lastRequestTime := 1700000000000 |}]> ∅;
                tick := 2; trace := [] |}).
  - vm_compute. reflexivity.
  - vm_compute. reflexivity.
Defined.

(** C3 fails on delivery: after a download within the limit and a video sent
    without trouble, [sendVideo] has removed the file and nothing else; the
    workspace directory is still there. *)
Theorem workspace_left_after_delivery :
  let url := lit "https://youtu.be/x1" in
  let w' := snd (processUrl (Scenario.calmEnv 10485760) Scenario.config49
                   (Scenario.message 7 "https://youtu.be/x1") url 7 Scenario.emptyWorld) in
  trace w'
  = [EvReply TEXT_DOWNLOADING;
     EvSpawn (runYtDlp_args url Scenario.workspace);
     EvEditMessageText 99 0 TEXT_COMPLETE;
     EvVideo (path_join Scenario.workspace (lit "My Clip.mp4"))
       (buildCaption url (Some (lit "My Clip")));
     EvDeleteMessage 99 0]
  /\ fs_lookup (fs w') (path_join Scenario.workspace (lit "My Clip.mp4")) = None
  /\ fs_lookup (fs w') Scenario.workspace = Some Dir
  /\ ~ workspaceGone Scenario.workspace w'.
Proof.
  intros url w'.
  assert (fs w' = [([lit "app"], Dir); ([lit "app"; lit "temp"], Dir);
                   (Scenario.workspace, Dir)]) as Hfs by (vm_compute; reflexivity).
  split; [vm_compute; reflexivity|].
  split; [vm_compute; reflexivity|].
  split; [vm_compute; reflexivity|].
  intros Hgone.
  specialize (Hgone (Scenario.workspace, Dir)). rewrite Hfs in Hgone.
  assert (path_within Scenario.workspace Scenario.workspace = false) as Habs.
  { apply Hgone. right. right. left. }
  vm_compute in Habs. discriminate.
Qed.

(** The sibling path does what delivery misses: when the download fails, the
    whole workspace goes. *)
Example workspace_gone_after_timeout :
  let w' := snd (processUrl Scenario.hangingEnv Scenario.config49
                   (Scenario.message 7 "https://youtu.be/x1")
                   (lit "https://youtu.be/x1") 7 Scenario.emptyWorld) in
  fs_lookup (fs w') Scenario.workspace = None.
Proof. vm_compute. reflexivity. Qed.

End BotFacts.

(** ** Paths and the file system *)
Module FsFacts.
Import JsString JsStringFacts Runtime RuntimeFacts.

Lemma path_eqb_eq (p q : list (list Z)) : path_eqb p q = true <-> p = q.
Proof.
  revert q. induction p as [|a p IH]; intros [|b q]; simpl; try (split; congruence).
  rewrite andb_true_iff, str_eqb_eq, IH. split.
  - intros [-> ->]. reflexivity.
  - intros [= -> ->]. split; reflexivity.
Qed.

Lemma path_eqb_refl (p : list (list Z)) : path_eqb p p = true.
Proof. apply path_eqb_eq. reflexivity. Qed.

Lemma path_eqb_neq (p q : list (list Z)) : p <> q -> path_eqb p q = false.
Proof.
  intros H. destruct (path_eqb p q) eqn:E; [|reflexivity].
  apply path_eqb_eq in E. contradiction.
Qed.

Lemma path_within_spec (p q : list (list Z)) :
  path_within p q = true <-> exists rest, q = p ++ rest.
Proof.
  revert q. induction p as [|a p IH]; intros q; simpl.
  - split; [intros _; exists q; reflexivity | reflexivity].
  - destruct q as [|b q].
    + split; [discriminate | intros [rest [=]]].
    + rewrite andb_true_iff, str_eqb_eq, IH. split.
      * intros [-> [rest ->]]. exists rest. reflexivity.
      * intros [rest [= -> ->]]. split; [reflexivity | exists rest; reflexivity].
Qed.

Lemma path_within_refl (p : list (list Z)) : path_within p p = true.
Proof. apply path_within_spec. exists []. rewrite app_nil_r. reflexivity. Qed.

Lemma fs_lookup_Some_elem (f : list (list (list Z) * Node)) (p : list (list Z)) (n : Node) :
  fs_lookup f p = Some n -> (p, n) ∈ f.
Proof.
  unfold fs_lookup. destruct (find _ f) as [[q m]|] eqn:E; [|discriminate].
  simpl. intros [= ->]. apply find_some in E as [Hin Heq]. simpl in Heq.
  apply path_eqb_eq in Heq as ->. apply list_elem_of_In, Hin.
Qed.

Lemma fs_lookup_None (f : list (list (list Z) * Node)) (p : list (list Z)) :
  fs_lookup f p = None <-> forall n, (p, n) ∉ f.
Proof.
  unfold fs_lookup. split.
  - destruct (find _ f) as [[q m]|] eqn:E; [discriminate|]. intros _ n Hin.
    apply list_elem_of_In in Hin.
    pose proof (find_none _ _ E _ Hin) as H. simpl in H.
    rewrite path_eqb_refl in H. discriminate.
  - intros H. destruct (find _ f) as [[q m]|] eqn:E; [|reflexivity].
    apply find_some in E as [Hin Heq]. simpl in Heq. apply path_eqb_eq in Heq as ->.
    exfalso. eapply H, list_elem_of_In, Hin.
Qed.

Lemma fs_lookup_app (f g : list (list (list Z) * Node)) (p : list (list Z)) :
  fs_lookup (f ++ g) p
  = match fs_lookup f p with
    | Some n => Some n
    | None => fs_lookup g p
    end.
Proof.
  unfold fs_lookup. induction f as [|[q m] f IH]; simpl; [reflexivity|].
  destruct (path_eqb q p); [reflexivity | exact IH].
Qed.

Lemma fs_mkdir_keeps (f : list (list (list Z) * Node)) (p : list (list Z))
    (entry : list (list Z) * Node) :
  entry ∈ f -> entry ∈ fs_mkdir f p.
Proof.
  intros H. unfold fs_mkdir. destruct (fs_lookup f p); [exact H|].
  apply elem_of_app. left. exact H.
Qed.

Lemma fs_mkdir_lookup_same (f : list (list (list Z) * Node)) (p : list (list Z)) :
  fs_lookup (fs_mkdir f p) p = Some (default Dir (fs_lookup f p)).
Proof.
  unfold fs_mkdir. destruct (fs_lookup f p) as [n|] eqn:E; simpl; [exact E|].
  rewrite fs_lookup_app, E. unfold fs_lookup. simpl. rewrite path_eqb_refl. reflexivity.
Qed.

Lemma fs_mkdir_lookup_other (f : list (list (list Z) * Node)) (p q : list (list Z)) :
  q <> p -> fs_lookup (fs_mkdir f q) p = fs_lookup f p.
Proof.
  intros Hne. unfold fs_mkdir. destruct (fs_lookup f q); [reflexivity|].
  rewrite fs_lookup_app. destruct (fs_lookup f p); [reflexivity|].
  unfold fs_lookup. simpl. rewrite path_eqb_neq by exact Hne. reflexivity.
Qed.

Lemma fs_mkdir_lookup_stays (f : list (list (list Z) * Node)) (p q : list (list Z))
    (n : Node) :
  fs_lookup f p = Some n -> fs_lookup (fs_mkdir f q) p = Some n.
Proof.
  intros H. unfold fs_mkdir. destruct (fs_lookup f q); [exact H|].
  rewrite fs_lookup_app, H. reflexivity.
Qed.

Lemma foldl_fs_mkdir_keeps (l : list (list (list Z))) (f : list (list (list Z) * Node))
    (entry : list (list Z) * Node) :
  entry ∈ f -> entry ∈ foldl fs_mkdir f l.
Proof.
  revert f. induction l as [|q l IH]; intros f H; simpl; [exact H|].
  apply IH, fs_mkdir_keeps, H.
Qed.

Lemma foldl_fs_mkdir_stays (l : list (list (list Z))) (f : list (list (list Z) * Node))
    (p : list (list Z)) (n : Node) :
  fs_lookup f p = Some n -> fs_lookup (foldl fs_mkdir f l) p = Some n.
Proof.
  revert f. induction l as [|q l IH]; intros f H; simpl; [exact H|].
  apply IH, fs_mkdir_lookup_stays, H.
Qed.

Lemma foldl_fs_mkdir_made (l : list (list (list Z))) (f : list (list (list Z) * Node))
    (p : list (list Z)) :
  p ∈ l -> fs_lookup (foldl fs_mkdir f l) p <> None.
Proof.
  revert f. induction l as [|q l IH]; intros f H; simpl.
  - apply elem_of_nil in H. contradiction.
  - apply elem_of_cons in H as [<- | H]; [|apply IH, H].
    rewrite (foldl_fs_mkdir_stays l _ p _ (fs_mkdir_lookup_same f p)). discriminate.
Qed.

Lemma foldl_fs_mkdir_fresh (l : list (list (list Z))) (f : list (list (list Z) * Node))
    (p : list (list Z)) :
  fs_lookup f p = None -> p ∉ l -> fs_lookup (foldl fs_mkdir f l) p = None.
Proof.
  revert f. induction l as [|q l IH]; intros f H Hnot; simpl; [exact H|].
  apply IH.
  - rewrite fs_mkdir_lookup_other; [exact H|].
    intros ->. apply Hnot. left.
  - intros Hin. apply Hnot. right. exact Hin.
Qed.

Lemma foldl_fs_mkdir_origin (l : list (list (list Z))) (f : list (list (list Z) * Node))
    (p : list (list Z)) (n : Node) :
  fs_lookup (foldl fs_mkdir f l) p = Some n -> fs_lookup f p = Some n \/ n = Dir.
Proof.
  revert f. induction l as [|q l IH]; intros f H; simpl in H; [left; exact H|].
  apply IH in H as [H | H]; [|right; exact H].
  destruct (decide (q = p)) as [-> | Hne].
  - rewrite fs_mkdir_lookup_same in H. destruct (fs_lookup f p) as [m|]; simpl in H.
    + left. exact H.
    + right. congruence.
  - rewrite fs_mkdir_lookup_other in H by exact Hne. left. exact H.
Qed.

Lemma path_chain_last (p : list (list Z)) (a : list Z) :
  path_chain (p ++ [a]) = path_chain p ++ [p ++ [a]].
Proof.
  unfold path_chain. rewrite length_app. simpl length.
  replace (length p + 1)%nat with (S (length p)) by lia.
  rewrite seq_S, fmap_app. simpl. f_equal.
  - apply list_fmap_ext. intros i n Hn. apply list_elem_of_lookup_2 in Hn.
    apply elem_of_seq in Hn. apply take_app_le. lia.
  - f_equal. apply take_ge. rewrite length_app. simpl. lia.
Qed.

Lemma path_chain_prefix (p q : list (list Z)) :
  q ∈ path_chain p -> (length q <= length p)%nat /\ path_within q p = true /\ q <> [].
Proof.
  unfold path_chain. intros H. apply list_elem_of_fmap in H as [n [-> Hn]].
  apply elem_of_seq in Hn. rewrite length_take. split; [lia|]. split.
  - apply path_within_spec. exists (drop n p). rewrite take_drop. reflexivity.
  - destruct p as [|a p]; [simpl in Hn; lia|]. destruct n; [lia|]. discriminate.
Qed.

End FsFacts.

(** ** Request workspaces *)
Module TempFacts.
Import JsString JsStringFacts Runtime RuntimeFacts Temp FsFacts.

Section WithEnv.
Variable env : Env.

(** X2.  Allocating a workspace, where no file stands in the way of the
    directories to make, either is refused by the file system, in which case
    the refusal is thrown and nothing is created, or returns the path
    [temp/<requestId>] below the working directory with that directory and
    every ancestor of it in place as directories, and every entry that was
    there before kept as it was. *)
Theorem createTempDir_makes_workspace (requestId : list Z) (w : World) :
  let tempDir := path_join (TEMP_BASE_DIR env) requestId in
  (forall dir size,
      path_within dir tempDir = true -> fs_lookup (fs w) dir <> Some (File size)) ->
  match ensureDir_refused env (tick w) with
  | Some message =>
      createTempDir env requestId w = (Throw (JsError message), bump w)
  | None =>
      exists w',
        createTempDir env requestId w = (Ok tempDir, w')
        /\ (forall dir,
               dir <> [] -> path_within dir tempDir = true ->
               fs_lookup (fs w') dir = Some Dir)
        /\ (forall p n, fs_lookup (fs w) p = Some n -> fs_lookup (fs w') p = Some n)
        /\ (forall entry, entry ∈ fs w -> entry ∈ fs w')
  end.
Proof.
  intros tempDir Hnofile. destruct (ensureDir_refused env (tick w)) as [message|] eqn:E.
  - unfold createTempDir, mbind, M_bind, fs_ensureDir. rewrite E. reflexivity.
  - eexists. split.
    { unfold createTempDir, mbind, M_bind, fs_ensureDir. rewrite E. reflexivity. }
    simpl fs. fold tempDir. split; [|split].
    + intros dir Hne Hin.
      destruct (fs_lookup (foldl fs_mkdir (fs w) (path_chain tempDir)) dir) as [n|] eqn:El.
      * apply foldl_fs_mkdir_origin in El as El'. destruct El' as [Hold | ->]; [|reflexivity].
        destruct n as [|size]; [reflexivity|].
        exfalso. exact (Hnofile dir size Hin Hold).
      * exfalso. revert El. apply foldl_fs_mkdir_made.
        apply path_within_spec in Hin as [rest Hrest].
        unfold path_chain. apply list_elem_of_fmap. exists (length dir). split.
        -- rewrite Hrest, take_app_length. reflexivity.
        -- apply elem_of_seq. rewrite Hrest, length_app.
           destruct dir; [contradiction | simpl; lia].
    + intros p n. apply foldl_fs_mkdir_stays.
    + intros entry. apply foldl_fs_mkdir_keeps.
Qed.

End WithEnv.

Lemma createTempDir_makes_workspace_witness :
  exists w',
    createTempDir (Scenario.calmEnv 1) (lit "3f2b8c1e") Scenario.emptyWorld
    = (Ok Scenario.workspace, w')
    /\ fs_lookup (fs w') Scenario.workspace = Some Dir.
Proof.
  destruct (createTempDir_makes_workspace (Scenario.calmEnv 1) (lit "3f2b8c1e")
              Scenario.emptyWorld) as (w' & E & Hdirs & _).
  - intros dir size _. discriminate.
  - exists w'. split; [exact E|]. apply Hdirs; [discriminate | reflexivity].
Defined.

End TempFacts.

(** ** The outcomes of a run *)
Module OutcomeFacts.
Import JsString JsStringFacts Runtime RuntimeFacts Temp Downloader AttemptFacts DownloadFacts
  RetryFacts.

Lemma attempt_eta (a : Attempt) (due : Z) :
  timer a = Armed due ->
  settled a = None ->
  a = {| timer := Armed due; settled := None;
         output := output a ++ []; errorOutput := errorOutput a ++ [] |}.
Proof. destruct a. simpl. intros -> ->. rewrite !app_nil_r. reflexivity. Qed.

(** A child that ends before the timer is due: the listener of its ending
    runs on the buffers filled so far, and what it resolves the promise with
    is the result of the run. *)
Lemma runEvents_exit_event (tempDir : list (list Z)) (evs : list (N * ChildEvent))
    (t due te : Z) (a : Attempt) (w : World) (ev : ChildEvent) :
  timer a = Armed due ->
  settled a = None ->
  firstExit evs t = Some te ->
  te < due ->
  firstExitEvent evs = Some ev ->
  exists a1 a',
    onEvent tempDir ev
      {| timer := Armed due; settled := None;
         output := output a ++ stdoutBefore evs;
         errorOutput := errorOutput a ++ stderrBefore evs |} w
    = (Ok a1, w)
    /\ runEvents tempDir evs t a w = (Ok a', w)
    /\ settled a' = settled a1
    /\ timer a' = Cleared.
Proof.
  revert t a. induction evs as [|[delay ev0] evs IH]; intros t a Ht Hs Hexit Hlt Hev;
    [discriminate|].
  simpl in Hexit, Hev.
  assert (t + Z.of_N delay <= te) as Hle.
  { destruct (isExit ev0); [injection Hexit as <-; lia | apply firstExit_ge in Hexit; exact Hexit]. }
  assert (fireIfDue (Some (t + Z.of_N delay)) a w = (Ok a, w)) as E1.
  { unfold fireIfDue. rewrite Ht.
    replace (due <=? t + Z.of_N delay) with false by (symmetry; apply Z.leb_gt; lia).
    reflexivity. }
  cbn [runEvents]. rewrite (bind_ok _ _ _ _ _ E1).
  destruct (isExit ev0) eqn:Eexit.
  - injection Hev as <-.
    assert (stdoutBefore ((delay, ev0) :: evs) = [] /\ stderrBefore ((delay, ev0) :: evs) = [])
      as [-> ->] by (destruct ev0; try discriminate; split; reflexivity).
    rewrite <- (attempt_eta a due Ht Hs).
    destruct (onEvent_effect tempDir ev0 a w) as (a2 & E2 & Ht2 & Hs2).
    rewrite Eexit in Ht2, Hs2. destruct Hs2 as [r Hs2]. rewrite Hs in Hs2. simpl in Hs2.
    rewrite timer_clearTimeout, Ht in Ht2.
    rewrite (bind_ok _ _ _ _ _ E2).
    destruct (runEvents_settled tempDir evs (t + Z.of_N delay) a2 w r Hs2)
      as (a' & E & Hs' & Ht'); [left; exact Ht2|].
    exists a2, a'. split; [exact E2|]. split; [exact E|]. split; congruence.
  - destruct ev0 as [data | data | code | message]; try discriminate.
    + cbn [onEvent]. erewrite bind_ok by reflexivity.
      edestruct (IH (t + Z.of_N delay)
                   {| timer := timer a; settled := settled a;
                      output := output a ++ data; errorOutput := errorOutput a |})
        as (a1 & a' & E1' & E' & Hs' & Ht'); [exact Ht | exact Hs | exact Hexit | exact Hlt | exact Hev |].
      exists a1, a'. cbn [stdoutBefore stderrBefore]. simpl output in E1'.
      simpl errorOutput in E1'. rewrite app_assoc. auto.
    + cbn [onEvent]. erewrite bind_ok by reflexivity.
      edestruct (IH (t + Z.of_N delay)
                   {| timer := timer a; settled := settled a;
                      output := output a; errorOutput := errorOutput a ++ data |})
        as (a1 & a' & E1' & E' & Hs' & Ht'); [exact Ht | exact Hs | exact Hexit | exact Hlt | exact Hev |].
      exists a1, a'. cbn [stdoutBefore stderrBefore]. simpl output in E1'.
      simpl errorOutput in E1'. rewrite app_assoc. auto.
Qed.

Section WithEnv.
Variable env : Env.
Variable config : DownloaderConfig.

(** The same for a whole run: the result is what the listener of the child's
    ending resolves a fresh promise with, and nothing is killed. *)
Lemma runChild_exit_event (args : list (list Z)) (tempDir : list (list Z)) (w : World)
    (te : Z) (ev : ChildEvent) :
  let events := child_events (child_at env (tick w) args) in
  let spawned := snd (spawn env args tempDir w) in
  firstExit events 0 = Some te ->
  te < timerDelay (downloadTimeout config * 1000) ->
  firstExitEvent events = Some ev ->
  exists a1 a r,
    onEvent tempDir ev
      {| timer := Armed (timerDelay (downloadTimeout config * 1000)); settled := None;
         output := stdoutBefore events; errorOutput := stderrBefore events |} spawned
    = (Ok a1, spawned)
    /\ settled a1 = Some r
    /\ runChild env config args tempDir w = (Ok (a, r), spawned).
Proof.
  intros events spawned Hexit Hlt Hev. unfold runChild.
  erewrite bind_ok by reflexivity. cbv zeta.
  destruct (runEvents_exit_event tempDir events 0
              (timerDelay (downloadTimeout config * 1000)) te
              {| timer := Armed (timerDelay (downloadTimeout config * 1000));
                 settled := None; output := []; errorOutput := [] |}
              spawned ev eq_refl eq_refl Hexit Hlt Hev)
    as (a1 & a & E1 & E & Hs & _).
  cbn [output errorOutput app] in E1.
  destruct (onEvent_effect tempDir ev
              {| timer := Armed (timerDelay (downloadTimeout config * 1000)); settled := None;
                 output := stdoutBefore events; errorOutput := stderrBefore events |} spawned)
    as (a2 & E2 & _ & Hs2).
  assert (isExit ev = true) as Hx.
  { clear - Hev. induction events as [|[d e] evs IH]; [discriminate|]. simpl in Hev.
    destruct (isExit e) eqn:Ee; [congruence | auto]. }
  rewrite Hx in Hs2. destruct Hs2 as [r Hs2]. simpl in Hs2.
  rewrite E1 in E2. injection E2 as <-.
  exists a1, a, r. split; [exact E1|]. split; [exact Hs2|].
  fold events. erewrite bind_ok by exact E. rewrite Hs, Hs2. reflexivity.
Qed.

(** A child that closes with code 0 before the deadline: the first
    entry of the workspace, in listing order, whose name ends in [.mp4],
    [.mkv], [.webm] or [.mov] becomes the result, with its path and with its
    name less the extension as title; a workspace without such an entry gives
    the failure [No video file found after download], and a workspace that
    cannot be listed the failure [Failed to find downloaded file].  Nothing
    is killed and nothing but the spawn is recorded. *)
Lemma runChild_clean_exit (args : list (list Z)) (tempDir : list (list Z)) (w : World)
    (te : Z) :
  let events := child_events (child_at env (tick w) args) in
  let spawned := snd (spawn env args tempDir w) in
  firstExit events 0 = Some te ->
  te < timerDelay (downloadTimeout config * 1000) ->
  firstExitEvent events = Some (Close (Some 0)) ->
  exists a r,
    runChild env config args tempDir w = (Ok (a, r), spawned)
    /\ (forall videoFile,
           fs_lookup (fs spawned) tempDir = Some Dir ->
           find isVideoFile (Array_sort (fs_children (fs spawned) tempDir))
           = Some videoFile ->
           r = {| success := true; filePath := Some (path_join tempDir videoFile);
                  title := Some (orUnknown (basename videoFile (extname videoFile)));
                  error := None; fileSize := None |})
    /\ (fs_lookup (fs spawned) tempDir = Some Dir ->
        find isVideoFile (fs_children (fs spawned) tempDir) = None ->
        r = failure (lit "No video file found after download"))
    /\ (fs_lookup (fs spawned) tempDir <> Some Dir ->
        r = failure (lit "Failed to find downloaded file")).
Proof.
  intros events spawned Hexit Hlt Hev.
  destruct (runChild_exit_event args tempDir w te _ Hexit Hlt Hev)
    as (a1 & a & r & E1 & Hs & E).
  fold events spawned in E1, E. exists a, r. split; [exact E|].
  cbn [onEvent] in E1. unfold onClose, try_catch, mbind, M_bind, fs_readdir in E1.
  split; [|split].
  - intros videoFile Hdir Hfind. rewrite Hdir, Hfind in E1.
    injection E1 as <-. injection Hs as <-. reflexivity.
  - intros Hdir Hfind. apply find_Array_sort_None in Hfind. rewrite Hdir, Hfind in E1.
    injection E1 as <-. injection Hs as <-. reflexivity.
  - intros Hdir. destruct (fs_lookup (fs spawned) tempDir) as [[|size]|];
      [contradiction | |]; injection E1 as <-; injection Hs as <-; reflexivity.
Qed.

(** The first attempt fails: [download] hands the failure back after
    removing the workspace. *)
Lemma download_first_failure (url : list Z) (w w2 w4 : World) (tempDir : list (list Z))
    (a : Attempt) (r : DownloadResult) :
  createTempDir env (uuid_at env (tick w)) (bump w) = (Ok tempDir, w2) ->
  runChild env config (runYtDlp_args url tempDir) tempDir (bump w2) = (Ok (a, r), w4) ->
  success r = false ->
  download env config url w = (Ok r, snd (cleanupTempDir tempDir w4)).
Proof.
  intros Hdir Hrun Hfail. unfold download.
  erewrite bind_ok by reflexivity.
  erewrite bind_ok by exact Hdir.
  erewrite bind_ok by reflexivity.
  apply try_catch_ok. unfold runYtDlp.
  erewrite bind_ok by (apply fmap_ok; exact Hrun).
  simpl. rewrite Hfail. reflexivity.
Qed.

(** X4.  A first run whose child closes before the deadline with a code
    other than 0, or with none because a signal ended it: [download] returns
    the failure whose reason is the classification of what the child wrote to
    its error stream up to then, chunks in order, its output stream playing
    no part; the workspace is gone, one child was spawned and none killed. *)
Theorem download_failed_exit (url : list Z) (w w2 : World) (tempDir : list (list Z))
    (te : Z) (code : option Z) :
  let args := runYtDlp_args url tempDir in
  let events := child_events (child_at env (tick (bump w2)) args) in
  createTempDir env (uuid_at env (tick w)) (bump w) = (Ok tempDir, w2) ->
  firstExit events 0 = Some te ->
  te < timerDelay (downloadTimeout config * 1000) ->
  firstExitEvent events = Some (Close code) ->
  code <> Some 0 ->
  exists w',
    download env config url w
    = (Ok (failure (parseYtDlpError (stderrBefore events))), w')
    /\ workspaceGone tempDir w'
    /\ trace w' = trace w ++ [EvSpawn args].
Proof.
  intros args events Hdir Hexit Hlt Hev Hcode.
  destruct (runChild_exit_event args tempDir (bump w2) te _ Hexit Hlt Hev)
    as (a1 & a & r & E1 & Hs & E).
  fold events in E1.
  assert (r = failure (parseYtDlpError (stderrBefore events))) as ->.
  { cbn [onEvent] in E1. unfold onClose in E1.
    destruct code as [[|p|p]|]; [contradiction | | |];
      injection E1 as <-; injection Hs as <-; reflexivity. }
  eexists. split; [apply (download_first_failure url w w2 _ tempDir a _ Hdir E); reflexivity|].
  split; [apply fs_remove_gone|].
  destruct (createTempDir_result env _ _ _ _ Hdir) as (_ & Htrace & _).
  simpl. rewrite Htrace. reflexivity.
Qed.

(** X5.  A first run whose child cannot be started: [download] returns the
    failure [yt-dlp failed to start: ] followed by the message of the spawn
    error, word for word; the workspace is gone. *)
Theorem download_spawn_error (url : list Z) (w w2 : World) (tempDir : list (list Z))
    (te : Z) (message : list Z) :
  let args := runYtDlp_args url tempDir in
  let events := child_events (child_at env (tick (bump w2)) args) in
  createTempDir env (uuid_at env (tick w)) (bump w) = (Ok tempDir, w2) ->
  firstExit events 0 = Some te ->
  te < timerDelay (downloadTimeout config * 1000) ->
  firstExitEvent events = Some (SpawnError message) ->
  exists w',
    download env config url w
    = (Ok (failure (lit "yt-dlp failed to start: " ++ message)), w')
    /\ workspaceGone tempDir w'.
Proof.
  intros args events Hdir Hexit Hlt Hev.
  destruct (runChild_exit_event args tempDir (bump w2) te _ Hexit Hlt Hev)
    as (a1 & a & r & E1 & Hs & E).
  assert (r = failure (lit "yt-dlp failed to start: " ++ message)) as ->.
  { cbn [onEvent] in E1. unfold onError in E1.
    injection E1 as <-. injection Hs as <-. reflexivity. }
  eexists. split; [apply (download_first_failure url w w2 _ tempDir a _ Hdir E); reflexivity|].
  apply fs_remove_gone.
Qed.

(** X6.  A first run that closes with code 0 before the deadline but leaves
    in its workspace no entry whose name ends in [.mp4], [.mkv], [.webm] or
    [.mov]: [download] returns the failure
    [No video file found after download], the workspace is gone afterwards,
    and no second child is spawned. *)
Theorem download_nothing_to_deliver (url : list Z) (w w2 : World)
    (tempDir : list (list Z)) (te : Z) :
  let args := runYtDlp_args url tempDir in
  let events := child_events (child_at env (tick (bump w2)) args) in
  let spawned := snd (spawn env args tempDir (bump w2)) in
  createTempDir env (uuid_at env (tick w)) (bump w) = (Ok tempDir, w2) ->
  firstExit events 0 = Some te ->
  te < timerDelay (downloadTimeout config * 1000) ->
  firstExitEvent events = Some (Close (Some 0)) ->
  fs_lookup (fs spawned) tempDir = Some Dir ->
  find isVideoFile (fs_children (fs spawned) tempDir) = None ->
  exists w',
    download env config url w
    = (Ok (failure (lit "No video file found after download")), w')
    /\ workspaceGone tempDir w'
    /\ trace w' = trace w ++ [EvSpawn args].
Proof.
  intros args events spawned Hdir Hexit Hlt Hev Hls Hfind.
  destruct (runChild_clean_exit args tempDir (bump w2) te Hexit Hlt Hev)
    as (a & r & E & _ & Hnone & _).
  fold spawned in E, Hnone. specialize (Hnone Hls Hfind). subst r.
  eexists. split; [apply (download_first_failure url w w2 _ tempDir a _ Hdir E); reflexivity|].
  split; [apply fs_remove_gone|].
  destruct (createTempDir_result env _ _ _ _ Hdir) as (_ & Htrace & _).
  simpl. rewrite Htrace. reflexivity.
Qed.

(** X7.  A first run that closes with code 0 before the deadline: the
    workspace is listed in sorted order, and the first name in that order
    that ends in [.mp4], [.mkv], [.webm] or [.mov] is the file taken.  When
    it is no larger than the limit, [download] returns success with the path
    of that file, its name less the extension as title, and its size in
    bytes; one child was spawned, nothing was retried, and the file is still
    in the workspace for the delivery. *)
Theorem download_within_limit (url : list Z) (w w2 : World) (tempDir : list (list Z))
    (te : Z) (videoFile : list Z) (size : Z) :
  let args := runYtDlp_args url tempDir in
  let events := child_events (child_at env (tick (bump w2)) args) in
  let spawned := snd (spawn env args tempDir (bump w2)) in
  createTempDir env (uuid_at env (tick w)) (bump w) = (Ok tempDir, w2) ->
  firstExit events 0 = Some te ->
  te < timerDelay (downloadTimeout config * 1000) ->
  firstExitEvent events = Some (Close (Some 0)) ->
  fs_lookup (fs spawned) tempDir = Some Dir ->
  find isVideoFile (Array_sort (fs_children (fs spawned) tempDir)) = Some videoFile ->
  fs_lookup (fs spawned) (path_join tempDir videoFile) = Some (File size) ->
  size <= maxFileSizeMB config * (1024 * 1024) ->
  exists w',
    download env config url w
    = (Ok {| success := true; filePath := Some (path_join tempDir videoFile);
             title := Some (orUnknown (basename videoFile (extname videoFile)));
             error := None; fileSize := Some size |}, w')
    /\ fs_lookup (fs w') (path_join tempDir videoFile) = Some (File size)
    /\ trace w' = trace w ++ [EvSpawn args].
Proof.
  intros args events spawned Hdir Hexit Hlt Hev Hls Hfind Hfile Hsize.
  destruct (runChild_clean_exit args tempDir (bump w2) te Hexit Hlt Hev)
    as (a & r & E & Hvideo & _).
  fold spawned in E, Hvideo. specialize (Hvideo videoFile Hls Hfind). subst r.
  eexists. split.
  - unfold download.
    erewrite bind_ok by reflexivity.
    erewrite bind_ok by exact Hdir.
    erewrite bind_ok by reflexivity.
    apply try_catch_ok. unfold runYtDlp.
    erewrite bind_ok by (apply fmap_ok; exact E).
    cbv beta. cbn [snd success negb filePath].
    assert (fs_stat (path_join tempDir videoFile) spawned = (Ok size, spawned)) as Hstat.
    { unfold fs_stat. rewrite Hfile. reflexivity. }
    erewrite bind_ok by exact Hstat.
    erewrite bind_ok by reflexivity.
    unfold tooLarge.
    replace (maxFileSizeMB config * (1024 * 1024) <? size) with false
      by (symmetry; apply Z.ltb_ge; exact Hsize).
    reflexivity.
  - split; [exact Hfile|].
    destruct (createTempDir_result env _ _ _ _ Hdir) as (_ & Htrace & _).
    simpl. rewrite Htrace. reflexivity.
Qed.

End WithEnv.

Lemma runChild_clean_exit_witness :
  exists a,
    runChild (Scenario.calmEnv 1000) Scenario.config49 [] Scenario.workspace
      {| fs := [(Scenario.workspace, Dir)]; userSessions := ∅; tick := 0; trace := [] |}
    = (Ok (a, {| success := true;
                 filePath := Some (path_join Scenario.workspace (lit "My Clip.mp4"));
                 title := Some (lit "My Clip"); error := None; fileSize := None |}),
       snd (spawn (Scenario.calmEnv 1000) [] Scenario.workspace
              {| fs := [(Scenario.workspace, Dir)]; userSessions := ∅;
                 tick := 0; trace := [] |})).
Proof.
  destruct (runChild_clean_exit (Scenario.calmEnv 1000) Scenario.config49 []
              Scenario.workspace
              {| fs := [(Scenario.workspace, Dir)]; userSessions := ∅;
                 tick := 0; trace := [] |} 3000)
    as (a & r & E & Hvideo & _); [reflexivity | reflexivity | reflexivity |].
  exists a. rewrite E. rewrite (Hvideo (lit "My Clip.mp4") eq_refl eq_refl). reflexivity.
Defined.

Lemma download_failed_exit_witness :
  exists w',
    download Scenario.failingEnv Scenario.config49 (lit "https://youtu.be/x1")
      Scenario.emptyWorld
    = (Ok (failure MSG_PRIVATE), w')
    /\ workspaceGone Scenario.workspace w'.
Proof.
  edestruct download_failed_exit
    with (env := Scenario.failingEnv) (config := Scenario.config49)
         (url := lit "https://youtu.be/x1") (w := Scenario.emptyWorld)
         (tempDir := Scenario.workspace) (te := 2000) (code := Some 1)
    as (w' & E & Hgone & _);
    [reflexivity | reflexivity | reflexivity | reflexivity | discriminate |].
  exists w'. split; [exact E | exact Hgone].
Defined.

Lemma download_spawn_error_witness :
  exists w',
    download Scenario.missingToolEnv Scenario.config49 (lit "https://youtu.be/x1")
      Scenario.emptyWorld
    = (Ok (failure (lit "yt-dlp failed to start: spawn yt-dlp ENOENT")), w')
    /\ workspaceGone Scenario.workspace w'.
Proof.
  edestruct download_spawn_error
    with (env := Scenario.missingToolEnv) (config := Scenario.config49)
         (url := lit "https://youtu.be/x1") (w := Scenario.emptyWorld)
         (tempDir := Scenario.workspace) (te := 5) (message := lit "spawn yt-dlp ENOENT")
    as (w' & E & Hgone); [reflexivity | reflexivity | reflexivity | reflexivity |].
  exists w'. split; [exact E | exact Hgone].
Defined.

Lemma download_nothing_to_deliver_witness :
  exists w',
    download Scenario.soundOnlyEnv Scenario.config49 (lit "https://youtu.be/x1")
      Scenario.emptyWorld
    = (Ok (failure (lit "No video file found after download")), w')
    /\ fs_lookup (fs w') Scenario.workspace = None.
Proof.
  edestruct download_nothing_to_deliver
    with (env := Scenario.soundOnlyEnv) (config := Scenario.config49)
         (url := lit "https://youtu.be/x1") (w := Scenario.emptyWorld)
         (tempDir := Scenario.workspace) (te := 3000)
    as (w' & E & _);
    [reflexivity | reflexivity | reflexivity | reflexivity | reflexivity | reflexivity |].
  exists w'. split; [exact E|].
  apply (f_equal snd) in E. simpl in E. subst w'. vm_compute. reflexivity.
Defined.

Lemma download_within_limit_witness :
  exists w',
    download Scenario.twoFilesEnv Scenario.config49 (lit "https://youtu.be/x1")
      Scenario.emptyWorld
    = (Ok {| success := true;
             filePath := Some (path_join Scenario.workspace (lit "a.mkv"));
             title := Some (lit "a"); error := None;
             fileSize := Some 20 |}, w').
Proof.
  edestruct download_within_limit
    with (env := Scenario.twoFilesEnv) (config := Scenario.config49)
         (url := lit "https://youtu.be/x1") (w := Scenario.emptyWorld)
         (tempDir := Scenario.workspace) (te := 3000) (videoFile := lit "a.mkv")
         (size := 20)
    as (w' & E & _);
    [reflexivity | reflexivity | reflexivity | reflexivity | reflexivity | reflexivity
    | reflexivity | vm_compute; discriminate |].
  exists w'. exact E.
Defined.

End OutcomeFacts.

(** ** What a result carries *)
Module ResultFacts.
Import JsString JsStringFacts Runtime RuntimeFacts Temp Downloader AttemptFacts DownloadFacts
  RetryFacts.

Lemma goodResult_failure (tempDir : list (list Z)) (message : list Z) :
  goodResult tempDir (failure message).
Proof. right. repeat split. exists message. reflexivity. Qed.

Lemma orUnknown_nonempty (t : list Z) : orUnknown t <> [].
Proof. destruct t; discriminate. Qed.

Lemma resolve_good (tempDir : list (list Z)) (x : DownloadResult) (a : Attempt) :
  goodResult tempDir x ->
  (forall r, settled a = Some r -> goodResult tempDir r) ->
  forall r, settled (resolve x (clearTimeout a)) = Some r -> goodResult tempDir r.
Proof.
  intros Hx Ha r. rewrite settled_resolve, settled_clearTimeout.
  destruct (settled a) as [r0|]; simpl; intros [= <-]; [apply Ha; reflexivity | exact Hx].
Qed.

Lemma onEvent_good (tempDir : list (list Z)) (ev : ChildEvent) (a a' : Attempt)
    (w w' : World) :
  (forall r, settled a = Some r -> goodResult tempDir r) ->
  onEvent tempDir ev a w = (Ok a', w') ->
  forall r, settled a' = Some r -> goodResult tempDir r.
Proof.
  intros Ha. destruct ev as [data | data | code | message]; simpl.
  - intros [= <- _]. exact Ha.
  - intros [= <- _]. exact Ha.
  - assert (forall x, goodResult tempDir x ->
                      (mret (resolve x (clearTimeout a)) : M Attempt) w = (Ok a', w') ->
                      forall r, settled a' = Some r -> goodResult tempDir r) as Hres.
    { intros x Hx [= <- _]. apply resolve_good; assumption. }
    unfold onClose.
    destruct code as [[|p|p]|]; try (apply Hres, goodResult_failure).
    unfold try_catch, mbind, M_bind, fs_readdir.
    destruct (fs_lookup (fs w) tempDir) as [[|size]|];
      try (apply Hres, goodResult_failure).
    destruct (find isVideoFile (Array_sort (fs_children (fs w) tempDir)))
      as [videoFile|] eqn:Ef;
      [|apply Hres, goodResult_failure].
    apply Hres. left. apply find_some in Ef as [_ Hv].
    split; [reflexivity|]. split; [exists videoFile; auto|].
    split; [|reflexivity]. eexists. split; [reflexivity | apply orUnknown_nonempty].
  - unfold onError. intros [= <- _]. apply resolve_good; [apply goodResult_failure | exact Ha].
Qed.

Lemma fireIfDue_good (tempDir : list (list Z)) (horizon : option Z) (a a' : Attempt)
    (w w' : World) :
  (forall r, settled a = Some r -> goodResult tempDir r) ->
  fireIfDue horizon a w = (Ok a', w') ->
  forall r, settled a' = Some r -> goodResult tempDir r.
Proof.
  intros Ha. unfold fireIfDue.
  assert (onTimeout a w = (Ok a', w') ->
          forall r, settled a' = Some r -> goodResult tempDir r) as Hfire.
  { unfold onTimeout. intros [= <- _] r. rewrite settled_resolve. simpl.
    destruct (settled a) as [r0|]; simpl; intros [= <-];
      [apply Ha; reflexivity | apply goodResult_failure]. }
  destruct (timer a) as [due| |]; try (intros [= <- _]; exact Ha).
  destruct horizon as [t|]; [|exact Hfire].
  destruct (due <=? t); [exact Hfire | intros [= <- _]; exact Ha].
Qed.

Lemma runEvents_good (tempDir : list (list Z)) (evs : list (N * ChildEvent)) :
  forall (t : Z) (a a' : Attempt) (w w' : World),
    (forall r, settled a = Some r -> goodResult tempDir r) ->
    runEvents tempDir evs t a w = (Ok a', w') ->
    forall r, settled a' = Some r -> goodResult tempDir r.
Proof.
  induction evs as [|[delay ev] evs IH]; intros t a a' w w' Ha; simpl.
  - apply fireIfDue_good, Ha.
  - unfold mbind, M_bind.
    destruct (fireIfDue (Some (t + Z.of_N delay)) a w) as [[a1 | e |] w1] eqn:E1;
      try discriminate.
    destruct (onEvent tempDir ev a1 w1) as [[a2 | e |] w2] eqn:E2; try discriminate.
    apply IH. eapply onEvent_good; [|exact E2].
    eapply fireIfDue_good; [exact Ha | exact E1].
Qed.

Section WithEnv.
Variable env : Env.
Variable config : DownloaderConfig.

Lemma runChild_good (args : list (list Z)) (tempDir : list (list Z)) (w w' : World)
    (a : Attempt) (r : DownloadResult) :
  runChild env config args tempDir w = (Ok (a, r), w') ->
  goodResult tempDir r.
Proof.
  unfold runChild, mbind, M_bind. simpl.
  destruct (runEvents tempDir _ 0 _ _) as [[a1 | e |] w1] eqn:E; try discriminate.
  destruct (settled a1) as [r1|] eqn:Es; [|discriminate].
  intros [= <- <- _]. eapply runEvents_good; [|exact E | exact Es].
  simpl. discriminate.
Qed.

Lemma completeResult_failure (tempDir : list (list Z)) (message : list Z) :
  completeResult tempDir (failure message).
Proof. right. repeat split. exists message. reflexivity. Qed.

Lemma completeResult_of_failed (tempDir : list (list Z)) (r : DownloadResult) :
  goodResult tempDir r -> success r = false -> completeResult tempDir r.
Proof.
  intros [[Hs _] | H] Hf; [congruence | right; exact H].
Qed.

Lemma completeResult_sized (tempDir fp : list (list Z)) (r : DownloadResult) (size : Z) :
  goodResult tempDir r ->
  success r = true ->
  filePath r = Some fp ->
  completeResult tempDir
    {| success := true; filePath := Some fp; title := title r;
       error := None; fileSize := Some size |}.
Proof.
  intros [(_ & (f & Hv & Hf) & Ht & _) | [Hs _]] Hok Hfp; [|congruence].
  left. simpl. split; [reflexivity|]. split; [|split; [exact Ht | reflexivity]].
  exists f, size. rewrite Hfp in Hf. auto.
Qed.

Lemma downloadLowerQuality_complete (url requestId : list Z) (w w' : World)
    (r : DownloadResult) :
  downloadLowerQuality env config url requestId w = (Ok r, w') ->
  completeResult (path_join (TEMP_BASE_DIR env) requestId) r.
Proof.
  unfold downloadLowerQuality.
  destruct (ensureDir_refused env (tick w)) as [message|] eqn:Eref.
  - erewrite bind_throw by (apply createTempDir_refused; exact Eref). discriminate.
  - erewrite bind_ok by (apply createTempDir_ok; exact Eref).
    set (tempDir := path_join (TEMP_BASE_DIR env) requestId).
    set (w1 := bump _).
    destruct (runChild_returns env config (runYtDlpLowerQuality_args url tempDir) tempDir w1)
      as (a & r2 & w2 & Erun & _).
    pose proof (runChild_good _ _ _ _ _ _ Erun) as Hgood.
    unfold try_catch, runYtDlpLowerQuality.
    erewrite bind_ok by (apply fmap_ok; exact Erun). simpl.
    destruct (success r2) eqn:Eok; simpl.
    + destruct (filePath r2) as [fp|] eqn:Efp.
      * unfold mbind at 1, M_bind, fs_stat.
        destruct (fs_lookup (fs w2) fp) as [[|size]|]; simpl; intros [= <- <-].
        -- eapply completeResult_sized; eassumption.
        -- eapply completeResult_sized; eassumption.
        -- apply completeResult_failure.
      * simpl. intros [= <- <-]. apply completeResult_failure.
    + intros [= <- <-]. apply completeResult_of_failed; assumption.
Qed.

(** X8.  Whatever [download] returns is complete: a success carries the path
    of a video file right below the request's workspace, a title that is not
    empty, and the size of the file; a failure carries a message and no path.
    So the caller never finds the path of a success or the reason of a
    failure undefined. *)
Theorem download_result_complete (url : list Z) (w w' : World) (r : DownloadResult) :
  download env config url w = (Ok r, w') ->
  completeResult (path_join (TEMP_BASE_DIR env) (uuid_at env (tick w))) r.
Proof.
  unfold download.
  erewrite bind_ok by reflexivity.
  set (requestId := uuid_at env (tick w)).
  destruct (ensureDir_refused env (tick (bump w))) as [message|] eqn:Eref.
  - erewrite bind_throw by (apply createTempDir_refused; exact Eref). discriminate.
  - erewrite bind_ok by (apply createTempDir_ok; exact Eref).
    set (tempDir := path_join (TEMP_BASE_DIR env) requestId).
    erewrite bind_ok by reflexivity.
    set (w3 := bump (bump _)).
    destruct (runChild_returns env config (runYtDlp_args url tempDir) tempDir w3)
      as (a & r1 & w4 & Erun & _).
    pose proof (runChild_good _ _ _ _ _ _ Erun) as Hgood.
    unfold try_catch, runYtDlp.
    erewrite bind_ok by (apply fmap_ok; exact Erun). simpl.
    assert (forall size,
               (if tooLarge config size
                then cleanupTempDir tempDir ;; downloadLowerQuality env config url requestId
                else mret {| success := true; filePath := filePath r1; title := title r1;
                             error := None; fileSize := Some size |}) (bump w4)
               = (Ok r, w')
               \/ (exists e w5,
                      (cleanupTempDir tempDir ;;
                       downloadLowerQuality env config url requestId) (bump w4)
                      = (Throw e, w5)
                      /\ tooLarge config size = true
                      /\ r = failure (errorMessage e)) ->
               success r1 = true ->
               completeResult tempDir r) as Hsize.
    { intros size [H | (e & w5 & _ & _ & ->)] Hok; [|apply completeResult_failure].
      destruct (tooLarge config size).
      - unfold mbind, M_bind in H. simpl in H.
        destruct (downloadLowerQuality env config url requestId _)
          as [[r2 | e |] w5] eqn:E2; try discriminate.
        injection H as <- <-. eapply downloadLowerQuality_complete. exact E2.
      - injection H as <- <-.
        destruct Hgood as [(_ & (f & Hv & Hf) & Ht & _) | [Hs _]]; [|congruence].
        left. simpl. split; [reflexivity|]. split; [|split; [exact Ht | reflexivity]].
        exists f, size. auto. }
    destruct (success r1) eqn:Eok; simpl.
    + destruct (filePath r1) as [fp|] eqn:Efp.
      * unfold mbind at 1, M_bind at 1, fs_stat.
        destruct (fs_lookup (fs w4) fp) as [[|size]|]; cbv beta iota.
        -- erewrite bind_ok by reflexivity. intros H.
           apply (Hsize 4096); [|reflexivity].
           destruct (tooLarge config 4096) eqn:Et.
           ++ unfold mbind, M_bind in H |- *. simpl in H |- *.
              destruct (downloadLowerQuality env config url requestId _)
                as [[r2 | e |] w5] eqn:E2.
              ** left. exact H.
              ** right. exists e, w5. injection H as <- _. auto.
              ** discriminate.
           ++ left. exact H.
        -- erewrite bind_ok by reflexivity. intros H.
           apply (Hsize size); [|reflexivity].
           destruct (tooLarge config size) eqn:Et.
           ++ unfold mbind, M_bind in H |- *. simpl in H |- *.
              destruct (downloadLowerQuality env config url requestId _)
                as [[r2 | e |] w5] eqn:E2.
              ** left. exact H.
              ** right. exists e, w5. injection H as <- _. auto.
              ** discriminate.
           ++ left. exact H.
        -- simpl. intros [= <- <-]. apply completeResult_failure.
      * simpl. intros [= <- <-]. apply completeResult_failure.
    + intros [= <- <-]. apply completeResult_of_failed; assumption.
Qed.

(** X10.  [download] throws only when the file system refuses the first
    workspace, and then it has spawned nothing; in every other case it
    returns a result, having spawned the first child alone or the first and
    then the lower-quality one, never more. *)
Theorem download_at_most_two_children (url : list Z) (w : World) :
  let tempDir := path_join (TEMP_BASE_DIR env) (uuid_at env (tick w)) in
  match ensureDir_refused env (S (tick w)) with
  | Some message =>
      download env config url w = (Throw (JsError message), bump (bump w))
  | None =>
      exists r w',
        download env config url w = (Ok r, w')
        /\ (spawnsOf (trace w') = spawnsOf (trace w) ++ [runYtDlp_args url tempDir]
            \/ spawnsOf (trace w')
               = spawnsOf (trace w)
                 ++ [runYtDlp_args url tempDir; runYtDlpLowerQuality_args url tempDir])
  end.
Proof.
  intros tempDir. unfold download.
  erewrite bind_ok by reflexivity.
  set (requestId := uuid_at env (tick w)).
  change (S (tick w)) with (tick (bump w)).
  destruct (ensureDir_refused env (tick (bump w))) as [message|] eqn:Eref.
  - erewrite bind_throw by (apply createTempDir_refused; exact Eref). reflexivity.
  - erewrite bind_ok by (apply createTempDir_ok; exact Eref).
    fold tempDir. erewrite bind_ok by reflexivity.
    set (w3 := bump (bump _)).
    assert (spawnsOf (trace w3) = spawnsOf (trace w)) as H3 by reflexivity.
    pose proof (runChild_spawns env config (runYtDlp_args url tempDir) tempDir w3) as Hsp.
    destruct (runChild_returns env config (runYtDlp_args url tempDir) tempDir w3)
      as (a & r1 & w4 & Erun & _).
    rewrite Erun, H3 in Hsp. simpl in Hsp.
    unfold try_catch, runYtDlp.
    erewrite bind_ok by (apply fmap_ok; exact Erun). simpl.
    assert (forall size,
               exists r w',
                 match
                   (if tooLarge config size
                    then cleanupTempDir tempDir ;;
                         downloadLowerQuality env config url requestId
                    else mret {| success := true; filePath := filePath r1;
                                 title := title r1; error := None;
                                 fileSize := Some size |}) (bump w4)
                 with
                 | (Throw e, w5) =>
                     (cleanupTempDir tempDir ;; mret (failure (errorMessage e))) w5
                 | other => other
                 end = (Ok r, w')
                 /\ (spawnsOf (trace w') = spawnsOf (trace w) ++ [runYtDlp_args url tempDir]
                     \/ spawnsOf (trace w')
                        = spawnsOf (trace w)
                          ++ [runYtDlp_args url tempDir;
                              runYtDlpLowerQuality_args url tempDir])) as Hsize.
    { intros size. destruct (tooLarge config size).
      - unfold mbind at 1, M_bind at 1. simpl.
        set (w5 := with_fs _ (bump w4)).
        pose proof (downloadLowerQuality_spawns env config url requestId w5) as Hl.
        pose proof (settles_downloadLowerQuality env config url requestId w5) as Hset.
        destruct (ensureDir_refused env (tick w5)) as [message|].
        + rewrite Hl. do 2 eexists. split; [reflexivity|]. left. exact Hsp.
        + destruct (downloadLowerQuality env config url requestId w5)
            as [[r2 | e |] w6]; simpl in Hl, Hset.
          * do 2 eexists. split; [reflexivity|]. right.
            rewrite Hl. change (spawnsOf (trace w5)) with (spawnsOf (trace w4)).
            rewrite Hsp, <- app_assoc. reflexivity.
          * do 2 eexists. split; [reflexivity|]. right. simpl.
            rewrite Hl. change (spawnsOf (trace w5)) with (spawnsOf (trace w4)).
            rewrite Hsp, <- app_assoc. reflexivity.
          * contradiction.
      - do 2 eexists. split; [reflexivity|]. left. exact Hsp. }
    destruct (success r1) eqn:Eok; simpl.
    + destruct (filePath r1) as [fp|] eqn:Efp.
      * unfold mbind at 1, M_bind at 1, fs_stat.
        destruct (fs_lookup (fs w4) fp) as [[|size]|]; cbv beta iota.
        -- erewrite bind_ok by reflexivity. apply (Hsize 4096).
        -- erewrite bind_ok by reflexivity. apply (Hsize size).
        -- do 2 eexists. split; [reflexivity|]. left. exact Hsp.
      * do 2 eexists. split; [reflexivity|]. left. exact Hsp.
    + do 2 eexists. split; [reflexivity|]. left. exact Hsp.
Qed.

End WithEnv.

Lemma download_result_complete_witness :
  completeResult
    (path_join (TEMP_BASE_DIR Scenario.failingEnv) (uuid_at Scenario.failingEnv 0))
    (failure MSG_PRIVATE).
Proof.
  refine (download_result_complete Scenario.failingEnv Scenario.config49
            (lit "https://youtu.be/x1") Scenario.emptyWorld
            (snd (download Scenario.failingEnv Scenario.config49
                    (lit "https://youtu.be/x1") Scenario.emptyWorld))
            (failure MSG_PRIVATE) _).
  vm_compute. reflexivity.
Defined.

End ResultFacts.

(** ** Titles from file names *)
Module TitleFacts.
Import JsString JsStringFacts Runtime Downloader.

Lemma endsWith_spec (s suffix : list Z) :
  endsWith s suffix = true <-> exists pre, s = pre ++ suffix.
Proof.
  unfold endsWith. rewrite startsWith_spec. split.
  - intros [post E]. exists (rev post).
    rewrite <- (rev_involutive s), E, rev_app_distr, rev_involutive. reflexivity.
  - intros [pre ->]. exists (rev pre). apply rev_app_distr.
Qed.

Lemma lastDot_none (e : list Z) (i : nat) : 46 ∉ e -> lastDot e i = None.
Proof.
  revert i. induction e as [|c e IH]; intros i H; simpl; [reflexivity|].
  rewrite IH by (intros Hin; apply H; right; exact Hin).
  destruct (c =? 46) eqn:E; [|reflexivity].
  apply Z.eqb_eq in E as ->. exfalso. apply H. left.
Qed.

Lemma lastDot_app_dot (pre e : list Z) (i : nat) :
  46 ∉ e -> lastDot (pre ++ 46 :: e) i = Some (i + length pre)%nat.
Proof.
  intros He. revert i. induction pre as [|c pre IH]; intros i; simpl.
  - rewrite lastDot_none by exact He. f_equal. lia.
  - rewrite IH. f_equal. lia.
Qed.

Lemma isVideoExtension_shape (ext : list Z) :
  isVideoExtension ext -> exists e, ext = 46 :: e /\ 46 ∉ e.
Proof.
  intros [-> | [-> | [-> | ->]]]; eexists; (split; [reflexivity|]);
    rewrite list_elem_of_In; simpl; intuition discriminate.
Qed.

Lemma isVideoFile_spec (f : list Z) :
  isVideoFile f = true <-> exists stem ext, isVideoExtension ext /\ f = stem ++ ext.
Proof.
  unfold isVideoFile, isVideoExtension. rewrite !orb_true_iff, !endsWith_spec. split.
  - intros [[[[p ->] | [p ->]] | [p ->]] | [p ->]]; exists p; eexists; eauto 6.
  - intros (stem & ext & [-> | [-> | [-> | ->]]] & ->); eauto 6.
Qed.

Lemma extname_stem (stem ext : list Z) :
  isVideoExtension ext -> stem <> [] -> extname (stem ++ ext) = ext.
Proof.
  intros Hext Hstem. destruct (isVideoExtension_shape ext Hext) as (e & -> & He).
  unfold extname. rewrite lastDot_app_dot by exact He. simpl.
  destruct stem as [|c stem]; [contradiction|]. simpl.
  rewrite drop_app_length. reflexivity.
Qed.

Lemma extname_bare (ext : list Z) : isVideoExtension ext -> extname ext = [].
Proof. intros [-> | [-> | [-> | ->]]]; reflexivity. Qed.

(** X9.  The title of a download is the name of the video file less its
    extension: for a file called [stem.mp4] (or [.mkv], [.webm], [.mov]) with
    a stem that is not empty, the title is the stem, dots and all.  And for
    every name that counts as a video file the title is not empty, so the
    fallback [Unknown] is never what the listener puts in. *)
Theorem title_is_stem (f : list Z) :
  isVideoFile f = true ->
  basename f (extname f) <> []
  /\ orUnknown (basename f (extname f)) = basename f (extname f)
  /\ (forall stem ext,
         isVideoExtension ext -> stem <> [] -> f = stem ++ ext ->
         basename f (extname f) = stem).
Proof.
  intros Hv.
  assert (forall stem ext,
             isVideoExtension ext -> stem <> [] -> f = stem ++ ext ->
             basename f (extname f) = stem) as Hstem.
  { intros stem ext Hext Hne ->. rewrite extname_stem by assumption.
    destruct (isVideoExtension_shape ext Hext) as (e & -> & _).
    unfold basename.
    replace (endsWith (stem ++ 46 :: e) (46 :: e)) with true
      by (symmetry; apply endsWith_spec; exists stem; reflexivity).
    replace (str_eqb (stem ++ 46 :: e) (46 :: e)) with false.
    - simpl. rewrite length_app. simpl length.
      replace (length stem + S (length e) - S (length e))%nat
        with (length stem) by lia.
      apply take_app_length.
    - symmetry. apply str_eqb_neq. intros E.
      apply (f_equal length) in E. rewrite length_app in E.
      destruct stem; [contradiction | simpl in E; lia]. }
  assert (basename f (extname f) <> []) as Hne.
  { apply isVideoFile_spec in Hv as (stem & ext & Hext & ->).
    destruct stem as [|c stem].
    - simpl. rewrite extname_bare by exact Hext. simpl.
      destruct Hext as [-> | [-> | [-> | ->]]]; discriminate.
    - rewrite (Hstem (c :: stem) ext Hext); [discriminate | discriminate | reflexivity]. }
  split; [exact Hne|]. split; [|exact Hstem].
  destruct (basename f (extname f)); [contradiction | reflexivity].
Qed.

Lemma title_is_stem_witness :
  basename (lit "Tom & Jerry ep.1.webm") (extname (lit "Tom & Jerry ep.1.webm"))
  = lit "Tom & Jerry ep.1".
Proof.
  apply (proj2 (proj2 (title_is_stem (lit "Tom & Jerry ep.1.webm") eq_refl))
           (lit "Tom & Jerry ep.1") (lit ".webm")).
  - right. right. left. reflexivity.
  - discriminate.
  - reflexivity.
Defined.

End TitleFacts.

(** ** What a computation leaves alone *)
Module PreservationFacts.
Import JsString Runtime RuntimeFacts Temp Downloader AttemptFacts DownloadFacts RetryFacts Bot
  BotFacts.

Section Aspect.
Context {X : Type} (f : World -> X).

Lemma preserves_ret {A : Type} (a : A) : preserves f (mret a : M A).
Proof. intros w. reflexivity. Qed.

Lemma preserves_throw {A : Type} (e : Exn) : preserves f (throw e : M A).
Proof. intros w. reflexivity. Qed.

Lemma preserves_bind {A B : Type} (m : M A) (k : A -> M B) :
  preserves f m -> (forall a, preserves f (k a)) -> preserves f (m ≫= k).
Proof.
  intros Hm Hk w. specialize (Hm w). unfold mbind, M_bind.
  destruct (m w) as [[a | e |] w']; simpl in *; [rewrite Hk|..]; exact Hm.
Qed.

Lemma preserves_fmap {A B : Type} (g : A -> B) (m : M A) :
  preserves f m -> preserves f (g <$> m).
Proof. intros Hm w. rewrite fmap_spawns. apply Hm. Qed.

Lemma preserves_try_catch {A : Type} (body : M A) (h : Exn -> M A) :
  preserves f body -> (forall e, preserves f (h e)) -> preserves f (try_catch body h).
Proof.
  intros Hb Hh w. specialize (Hb w). unfold try_catch.
  destruct (body w) as [[a | e |] w']; simpl in *; [|rewrite Hh|]; exact Hb.
Qed.

Lemma preserves_try_finally {A : Type} (body : M A) (cleanup : M unit) :
  preserves f body -> preserves f cleanup -> preserves f (try_finally body cleanup).
Proof.
  intros Hb Hc w. specialize (Hb w). unfold try_finally.
  destruct (body w) as [[a | e |] w']; simpl in *; [| |exact Hb];
    specialize (Hc w'); destruct (cleanup w') as [[[] | e' |] w'']; simpl in *; congruence.
Qed.

Lemma preserves_forEach {A : Type} (items : list A) (body : A -> M unit) :
  (forall x, preserves f (body x)) -> preserves f (forEach items body).
Proof.
  intros Hb. induction items as [|x items IH]; simpl; [apply preserves_ret|].
  apply preserves_bind; [apply Hb | intros; exact IH].
Qed.

(** An aspect that does not look at the clock, at the files, or at the
    events in [silent]. *)
Variable silent : Event -> Prop.
Hypothesis f_bump : forall w, f (bump w) = f w.
Hypothesis f_with_fs : forall files w, f (with_fs files w) = f w.
Hypothesis f_record : forall ev w, silent ev -> f (record ev w) = f w.

Variable env : Env.
Variable config : DownloaderConfig.

Lemma preserves_uuidv4 : preserves f (uuidv4 env).
Proof. intros w. apply f_bump. Qed.

Lemma preserves_Date_now : preserves f (Date_now env).
Proof. intros w. apply f_bump. Qed.

Lemma preserves_telegram (ev : Event) : silent ev -> preserves f (telegram env ev).
Proof.
  intros Hev w. unfold telegram.
  destruct (telegram_refused env (tick w)); simpl; rewrite f_bump; [|rewrite f_record]; auto.
Qed.

Lemma preserves_createTempDir (requestId : list Z) :
  preserves f (createTempDir env requestId).
Proof.
  intros w. unfold createTempDir, mbind, M_bind, fs_ensureDir.
  destruct (ensureDir_refused env (tick w)); simpl; rewrite f_bump; [|rewrite f_with_fs];
    reflexivity.
Qed.

Lemma preserves_cleanupTempDir (dir : list (list Z)) : preserves f (cleanupTempDir dir).
Proof. intros w. apply f_with_fs. Qed.

Lemma preserves_fs_stat (p : list (list Z)) : preserves f (fs_stat p).
Proof. intros w. rewrite fs_stat_world. reflexivity. Qed.

Lemma preserves_runChild (args : list (list Z)) (tempDir : list (list Z)) :
  (forall a, silent (EvSpawn a)) -> silent EvKill ->
  preserves f (runChild env config args tempDir).
Proof.
  intros Hspawn Hkill w.
  assert (f (snd (spawn env args tempDir w)) = f w) as Hs.
  { simpl. rewrite f_bump, f_record, f_with_fs by apply Hspawn. reflexivity. }
  destruct (runChild_returns env config args tempDir w)
    as (a & r & w' & E & [-> | ->]); rewrite E; cbn [snd];
    [|rewrite f_record by exact Hkill]; exact Hs.
Qed.

Lemma preserves_downloadLowerQuality (url requestId : list Z) :
  (forall a, silent (EvSpawn a)) -> silent EvKill ->
  preserves f (downloadLowerQuality env config url requestId).
Proof.
  intros Hspawn Hkill. unfold downloadLowerQuality.
  apply preserves_bind; [apply preserves_createTempDir|]. intros tempDir.
  apply preserves_try_catch.
  - apply preserves_bind; [apply preserves_fmap, preserves_runChild; assumption|].
    intros result.
    destruct (negb (success result)).
    + apply preserves_bind; [apply preserves_cleanupTempDir | intros; apply preserves_ret].
    + destruct (filePath result); [|apply preserves_throw].
      apply preserves_bind; [apply preserves_fs_stat | intros; apply preserves_ret].
  - intros e. apply preserves_bind; [apply preserves_cleanupTempDir|].
    intros; apply preserves_ret.
Qed.

Lemma preserves_download (url : list Z) :
  (forall a, silent (EvSpawn a)) -> silent EvKill ->
  preserves f (download env config url).
Proof.
  intros Hspawn Hkill. unfold download.
  apply preserves_bind; [apply preserves_uuidv4|]. intros requestId.
  apply preserves_bind; [apply preserves_createTempDir|]. intros tempDir.
  apply preserves_bind; [apply preserves_Date_now|]. intros _.
  apply preserves_try_catch.
  - apply preserves_bind; [apply preserves_fmap, preserves_runChild; assumption|].
    intros result.
    destruct (negb (success result)).
    + apply preserves_bind; [apply preserves_cleanupTempDir | intros; apply preserves_ret].
    + destruct (filePath result); [|apply preserves_throw].
      apply preserves_bind; [apply preserves_fs_stat|]. intros size.
      apply preserves_bind; [apply preserves_Date_now|]. intros _.
      destruct (tooLarge config size); [|apply preserves_ret].
      apply preserves_bind; [apply preserves_cleanupTempDir|]. intros _.
      apply preserves_downloadLowerQuality; assumption.
  - intros e. apply preserves_bind; [apply preserves_cleanupTempDir|].
    intros; apply preserves_ret.
Qed.

Lemma preserves_sendVideo (ctx : Context) (result : DownloadResult) (url : list Z) :
  (forall fp caption, silent (EvVideo fp caption)) ->
  (forall fp caption, silent (EvDocument fp caption)) ->
  (forall text, silent (EvReply (10060 :: text))) ->
  preserves f (sendVideo env ctx result url).
Proof.
  intros Hvideo Hdoc Hreply.
  unfold sendVideo. destruct (filePath result) as [fp|]; [|apply preserves_ret].
  apply preserves_try_finally;
    [|apply preserves_try_catch; [apply preserves_cleanupTempDir | intros; apply preserves_ret]].
  apply preserves_try_catch.
  - apply preserves_bind; [apply preserves_telegram, Hvideo | intros; apply preserves_ret].
  - intros _. apply preserves_try_catch.
    + apply preserves_bind; [apply preserves_telegram, Hdoc | intros; apply preserves_ret].
    + intros _. apply preserves_bind; [apply preserves_telegram, Hreply|].
      intros; apply preserves_ret.
Qed.

(** What [processUrl] does once the status message is out. *)
Lemma preserves_processUrl_rest (ctx : Context) (url : list Z) (statusMessage : Z) :
  (forall ev, (forall text, ev <> EvReply (55357 :: text)) -> silent ev) ->
  preserves f
    (match chat_id ctx with
     | None => mret tt
     | Some chatId =>
         try_catch
           (result ← download env config url;
            if negb (success result)
            then
              telegram env
                (EvEditMessageText chatId statusMessage
                   (10060 :: lit " Error: " ++ interpolate (error result))) ;;
              mret tt
            else
              telegram env (EvEditMessageText chatId statusMessage TEXT_COMPLETE) ;;
              sendVideo env ctx result url ;;
              catch_ignore (telegram env (EvDeleteMessage chatId statusMessage) ;; mret tt))
           (fun error_ =>
              telegram env
                (EvEditMessageText chatId statusMessage
                   (10060 :: lit " Failed to process: " ++ errorMessage error_)) ;;
              mret tt)
     end).
Proof.
  intros Hsilent.
  assert (forall ev, match ev with EvReply (55357 :: _) => False | _ => True end
                     -> silent ev) as Hs.
  { intros ev Hev. apply Hsilent. intros text ->. exact Hev. }
  destruct (chat_id ctx) as [chatId|]; [|apply preserves_ret].
  apply preserves_try_catch.
  - apply preserves_bind; [apply preserves_download; intros; apply Hs; exact I|].
    intros result. destruct (negb (success result)).
    + apply preserves_bind; [apply preserves_telegram, Hs; exact I|].
      intros; apply preserves_ret.
    + apply preserves_bind; [apply preserves_telegram, Hs; exact I|]. intros _.
      apply preserves_bind;
        [apply preserves_sendVideo; intros; apply Hs; exact I|]. intros _.
      apply preserves_try_catch; [|intros; apply preserves_ret].
      apply preserves_bind; [apply preserves_telegram, Hs; exact I|].
      intros; apply preserves_ret.
  - intros e. apply preserves_bind; [apply preserves_telegram, Hs; exact I|].
    intros; apply preserves_ret.
Qed.

End Aspect.

End PreservationFacts.

(** ** Sessions and answers across a message *)
Module HandlerFacts.
Import JsString Runtime RuntimeFacts Temp Downloader DownloadFacts Bot BotFacts
  PreservationFacts.

Lemma statusMessages_app (events more : list Event) :
  statusMessages (events ++ more)
  = (statusMessages events + statusMessages more)%nat.
Proof. unfold statusMessages. rewrite omap_app, length_app. reflexivity. Qed.

Section WithEnv.
Variable env : Env.
Variable accessControl : Access.AccessControl.
Variable config : DownloaderConfig.

Lemma sessions_reply (text : list Z) :
  preserves userSessions (reply env text ;; mret tt).
Proof. intros w. apply reply_sessions. Qed.

(** Processing a link never writes the session map. *)
Lemma sessions_processUrl (ctx : Context) (url : list Z) (userId : Z) :
  preserves userSessions (processUrl env config ctx url userId).
Proof.
  unfold processUrl.
  apply preserves_bind;
    [apply (preserves_telegram userSessions (fun _ => True)); auto|].
  intros statusMessage.
  apply (preserves_processUrl_rest userSessions (fun _ => True)); auto.
Qed.

(** X11.  Whatever the message and whoever sent it, when the handler is done
    every session is as it was before, except perhaps the sender's, and that
    one is then marked idle: the handler writes no session but the sender's
    and never leaves it in progress. *)
Theorem onMessage_sessions (ctx : Context) (w : World) (u : Z) :
  let w' := snd (onMessage env accessControl config ctx w) in
  userSessions w' !! u = userSessions w !! u
  \/ (from_id ctx = Some u
      /\ exists t, userSessions w' !! u
                   = Some {| isProcessing := false; lastRequestTime := t |}).
Proof.
  intros w'. subst w'. unfold onMessage.
  destruct (from_id ctx) as [userId|]; [|left; reflexivity].
  destruct (userId =? 0); [left; reflexivity|].
  destruct (message_text ctx) as [[|c text]|]; [left; reflexivity | | left; reflexivity].
  destruct (negb (Access.isAllowed accessControl userId));
    [left; rewrite sessions_reply; reflexivity|].
  erewrite bind_ok by reflexivity. cbv beta.
  destruct (match userSessions w !! userId with
            | Some s => isProcessing s
            | None => false
            end); [left; rewrite sessions_reply; reflexivity|].
  assert (exists b w1, tooSoonAfter env (userSessions w !! userId) w = (Ok b, w1)
                       /\ userSessions w1 = userSessions w) as (b & w1 & E & Hs).
  { destruct (userSessions w !! userId) as [s|]; simpl; eauto. }
  erewrite bind_ok by exact E. rewrite <- Hs.
  destruct b; [left; rewrite sessions_reply; reflexivity|].
  destruct (Url.extractUrls (c :: text)) as [|url urls];
    [left; rewrite sessions_reply; reflexivity|].
  set (batch := forEach (url :: urls) (fun url => processUrl env config ctx url userId)).
  set (started := with_sessions
                    (<[userId := {| isProcessing := true;
                                    lastRequestTime := now_at env (tick w1) |}]>
                       (userSessions w1)) (bump w1)).
  destruct (batch started) as [o w2] eqn:Eb.
  assert (o <> Pending) as Ho.
  { pose proof (settles_forEach (url :: urls)
                  (fun url => processUrl env config ctx url userId)
                  (fun x => settles_processUrl env config ctx x userId) started) as H.
    fold batch in H. rewrite Eb in H. exact H. }
  assert (userSessions w2 = userSessions started) as Hkeep.
  { pose proof (preserves_forEach userSessions (url :: urls)
                  (fun url => processUrl env config ctx url userId)
                  (fun x => sessions_processUrl ctx x userId) started) as H.
    fold batch in H. rewrite Eb in H. exact H. }
  rewrite (runBatch_outcome env config ctx userId (url :: urls) w1 w2 o Eb Ho).
  simpl. destruct (decide (u = userId)) as [->|Hne].
  - right. split; [reflexivity|]. eexists. apply lookup_insert_eq.
  - left. rewrite lookup_insert_ne by congruence. rewrite Hkeep. simpl.
    rewrite lookup_insert_ne by congruence. reflexivity.
Qed.

(** X12.  A message from a sender who is not on the allow-list starts
    nothing: no file is touched, no session is written, no child is spawned;
    all that can come of it is the one answer that access is denied. *)
Theorem onMessage_turned_away (ctx : Context) (userId : Z) (w : World) :
  from_id ctx = Some userId ->
  Access.isAllowed accessControl userId = false ->
  let w' := snd (onMessage env accessControl config ctx w) in
  fs w' = fs w
  /\ userSessions w' = userSessions w
  /\ (trace w' = trace w \/ trace w' = trace w ++ [EvReply TEXT_DENIED]).
Proof.
  intros Hfrom Hdenied w'. subst w'. unfold onMessage. rewrite Hfrom, Hdenied.
  destruct (userId =? 0); [auto|].
  destruct (message_text ctx) as [[|c text]|]; [auto | | auto].
  cbn [negb]. unfold reply, telegram, mbind, M_bind.
  destruct (telegram_refused env (tick w)); simpl; auto.
Qed.

(** X13.  Delivery falls back step by step and always cleans up: the file is
    sent as a video; if the chat service refuses that, as a document; if it
    refuses that too, the user is told that sending failed; only when that
    message is refused as well does the exception of the last refusal leave
    [sendVideo].  In all four cases the file, and nothing but the file, has
    been removed by then. *)
Theorem sendVideo_fallbacks (ctx : Context) (result : DownloadResult) (url : list Z)
    (filePath_ : list (list Z)) (w : World) :
  filePath result = Some filePath_ ->
  let caption := buildCaption url (title result) in
  let o := fst (sendVideo env ctx result url w) in
  let w' := snd (sendVideo env ctx result url w) in
  fs w' = filter (fun entry => negb (path_within filePath_ (fst entry))) (fs w)
  /\ match telegram_refused env (tick w),
           telegram_refused env (S (tick w)),
           telegram_refused env (S (S (tick w))) with
     | None, _, _ =>
         o = Ok tt /\ trace w' = trace w ++ [EvVideo filePath_ caption]
     | Some _, None, _ =>
         o = Ok tt /\ trace w' = trace w ++ [EvDocument filePath_ caption]
     | Some _, Some _, None =>
         o = Ok tt
         /\ trace w' = trace w ++ [EvReply (10060 :: lit " Failed to send file: "
                                            ++ interpolate (title result))]
     | Some _, Some _, Some message =>
         o = Throw (JsError message) /\ trace w' = trace w
     end.
Proof.
  intros Hfile caption o w'. subst o w'. unfold sendVideo. rewrite Hfile. fold caption.
  unfold try_finally, try_catch, catch_ignore, try_catch, cleanupTempDir, try_catch,
    reply, telegram, mbind, M_bind.
  destruct (telegram_refused env (tick w)) as [m1|] eqn:E1; cbn [tick bump record];
    [|simpl; auto].
  destruct (telegram_refused env (S (tick w))) as [m2|] eqn:E2; cbn [tick bump record];
    [|simpl; auto].
  destruct (telegram_refused env (S (S (tick w)))) as [m3|] eqn:E3; simpl; auto.
Qed.

Section Responsive.
Hypothesis responsive : forall n, telegram_refused env n = None.

Lemma telegram_responsive (ev : Event) (w : World) :
  telegram env ev w = (Ok (Z.of_nat (tick w)), bump (record ev w)).
Proof. unfold telegram. rewrite responsive. reflexivity. Qed.

Lemma processUrl_returns (ctx : Context) (url : list Z) (userId : Z) (w : World) :
  fst (processUrl env config ctx url userId w) = Ok tt.
Proof.
  unfold processUrl, reply. erewrite bind_ok by apply telegram_responsive.
  destruct (chat_id ctx) as [chatId|]; [|reflexivity].
  set (w1 := bump _). set (statusMessage := Z.of_nat _).
  match goal with
  | |- fst (try_catch ?b ?h w1) = _ => set (body := b); set (handler := h)
  end.
  assert (settles body) as Hsettles.
  { apply settles_bind; [apply settles_download|]. intros result.
    destruct (negb (success result)).
    - apply settles_bind; [apply settles_telegram | intros; apply settles_ret].
    - apply settles_bind; [apply settles_telegram|]. intros _.
      apply settles_bind; [apply settles_sendVideo|]. intros _.
      apply settles_catch_ignore.
      apply settles_bind; [apply settles_telegram | intros; apply settles_ret]. }
  specialize (Hsettles w1). unfold try_catch.
  destruct (body w1) as [[[] | e |] w2]; [reflexivity | | contradiction].
  unfold handler. erewrite bind_ok by apply telegram_responsive. reflexivity.
Qed.

Lemma processUrl_status (ctx : Context) (url : list Z) (userId : Z) (w : World) :
  statusMessages (trace (snd (processUrl env config ctx url userId w)))
  = S (statusMessages (trace w)).
Proof.
  unfold processUrl, reply. erewrite bind_ok by apply telegram_responsive.
  rewrite (preserves_processUrl_rest (fun w => statusMessages (trace w))
             (fun ev => forall text, ev <> EvReply (55357 :: text))).
  - cbn [trace bump record]. rewrite statusMessages_app.
    replace (statusMessages [EvReply TEXT_DOWNLOADING]) with 1%nat
      by (vm_compute; reflexivity).
    lia.
  - reflexivity.
  - reflexivity.
  - intros ev w0 Hev. cbn [trace record]. rewrite statusMessages_app.
    assert (statusMessages [ev] = 0%nat) as ->; [|lia].
    destruct ev as [a| |text|c m t|c m|s c|s c]; try reflexivity.
    destruct text as [|c text]; [reflexivity|].
    destruct (decide (c = 55357)) as [->|Hc]; [destruct (Hev text); reflexivity|].
    unfold statusMessages. simpl.
    destruct (c =? 55357) eqn:Ec; [apply Z.eqb_eq in Ec; contradiction|].
    reflexivity.
  - auto.
Qed.

Lemma forEach_processUrl (ctx : Context) (userId : Z) (urls : list (list Z)) (w : World) :
  let run := forEach urls (fun url => processUrl env config ctx url userId) w in
  fst run = Ok tt
  /\ statusMessages (trace (snd run)) = (statusMessages (trace w) + length urls)%nat.
Proof.
  revert w. induction urls as [|url urls IH]; intros w; simpl.
  - split; [reflexivity | lia].
  - pose proof (processUrl_returns ctx url userId w) as Hret.
    pose proof (processUrl_status ctx url userId w) as Hcount.
    destruct (processUrl env config ctx url userId w) as [o w1] eqn:E.
    simpl in Hret, Hcount. subst o. erewrite bind_ok by exact E.
    destruct (IH w1) as [IH1 IH2].
    split; [exact IH1|]. rewrite IH2, Hcount. lia.
Qed.

(** X14.  With a chat service that refuses nothing, a batch runs to its end
    and returns normally, whatever the downloads do, and every link of it is
    taken up: the batch sends one status message for each of its links. *)
Theorem batch_takes_up_every_link (ctx : Context) (userId : Z) (urls : list (list Z))
    (w : World) :
  let run := runBatch env config ctx userId urls w in
  fst run = Ok tt
  /\ statusMessages (trace (snd run)) = (statusMessages (trace w) + length urls)%nat.
Proof.
  intros run. subst run.
  set (started := with_sessions
                    (<[userId := {| isProcessing := true;
                                    lastRequestTime := now_at env (tick w) |}]>
                       (userSessions w)) (bump w)).
  destruct (forEach_processUrl ctx userId urls started) as [Hret Hcount].
  destruct (forEach urls (fun url => processUrl env config ctx url userId) started)
    as [o w1] eqn:Eb.
  simpl in Hret, Hcount. subst o.
  rewrite (runBatch_outcome env config ctx userId urls w w1 (Ok tt) Eb) by discriminate.
  split; [reflexivity | exact Hcount].
Qed.

End Responsive.

End WithEnv.

Lemma onMessage_turned_away_witness :
  let w' := snd (onMessage (Scenario.calmEnv 1000) Scenario.allowList Scenario.config49
                   (Scenario.message 5 "https://youtu.be/x1") Scenario.emptyWorld) in
  fs w' = [] /\ userSessions w' = ∅.
Proof.
  destruct (onMessage_turned_away (Scenario.calmEnv 1000) Scenario.allowList
              Scenario.config49 (Scenario.message 5 "https://youtu.be/x1") 5
              Scenario.emptyWorld eq_refl eq_refl) as (Hfs & Hsessions & _).
  split; [exact Hfs | exact Hsessions].
Defined.

Lemma sendVideo_fallbacks_witness :
  let result :=
    {| success := true;
       filePath := Some (path_join Scenario.workspace (lit "My Clip.mp4"));
       title := Some (lit "My Clip"); error := None; fileSize := Some 1000 |} in
  let w :=
    {| fs := [(Scenario.workspace, Dir);
              (path_join Scenario.workspace (lit "My Clip.mp4"), File 1000)];
       userSessions := ∅; tick := 0; trace := [] |} in
  let w' := snd (sendVideo Scenario.firstRefusedEnv (Scenario.message 7 "x") result
                   (lit "https://youtu.be/x1") w) in
  fs w' = [(Scenario.workspace, Dir)]
  /\ trace w' = [EvDocument (path_join Scenario.workspace (lit "My Clip.mp4"))
                   (buildCaption (lit "https://youtu.be/x1") (Some (lit "My Clip")))].
Proof.
  intros result w w'.
  destruct (sendVideo_fallbacks Scenario.firstRefusedEnv (Scenario.message 7 "x") result
              (lit "https://youtu.be/x1") _ w eq_refl) as [Hfs [_ Htrace]].
  split; [exact Hfs | exact Htrace].
Defined.

Lemma batch_takes_up_every_link_witness :
  statusMessages
    (trace (snd (runBatch (Scenario.calmEnv 1000) Scenario.config49
                   (Scenario.message 7 "x") 7
                   [lit "https://youtu.be/x1"; lit "https://youtu.be/x2"]
                   Scenario.emptyWorld)))
  = 2%nat.
Proof.
  apply (batch_takes_up_every_link (Scenario.calmEnv 1000) Scenario.config49
           (fun _ => eq_refl)).
Defined.

End HandlerFacts.

(** ** The units of a link *)
Module LinkFacts.
Import JsString JsStringFacts Url UrlFacts.

Section Units.
Variable P : Z -> Prop.

Lemma matchRep_units (ranges : list (Z * Z)) (s : list Z) :
  (forall c, classMatches ranges c = true -> P c) ->
  forall (min : nat) (max : option nat) (prev : option Z) (k : Cont) (rest : list Z),
    matchRep ranges min max prev s k = Some rest ->
    exists prev' mid s', s = mid ++ s' /\ Forall P mid /\ k prev' s' = Some rest.
Proof.
  intros Hclass. induction s as [|c s IH]; intros min max prev k rest; simpl.
  - destruct min; [|discriminate]. intros H. exists prev, [], []. auto.
  - assert (match min with
            | O => k prev (c :: s)
            | S _ => None
            end = Some rest ->
            exists prev' mid s', c :: s = mid ++ s' /\ Forall P mid /\ k prev' s' = Some rest)
      as Hstop.
    { destruct min; [|discriminate]. intros H. exists prev, [], (c :: s). auto. }
    destruct (classMatches ranges c) eqn:Ec; [|exact Hstop].
    destruct (match max with
              | Some O => false
              | _ => true
              end); [|exact Hstop].
    simpl.
    destruct (matchRep ranges (Nat.pred min) (Nat.pred <$> max) (Some c) s k) as [r|] eqn:E;
      [|exact Hstop].
    intros [= <-]. destruct (IH _ _ _ _ _ E) as (prev' & mid & s' & -> & Hmid & Hk).
    exists prev', (c :: mid), s'. split; [reflexivity|]. split; [|exact Hk].
    constructor; [apply Hclass, Ec | exact Hmid].
Qed.

Lemma matchRegex_units (r : Regex) :
  regexUnits P r ->
  forall (prev : option Z) (s : list Z) (k : Cont) (rest : list Z),
    matchRegex r prev s k = Some rest ->
    exists prev' mid s', s = mid ++ s' /\ Forall P mid /\ k prev' s' = Some rest.
Proof.
  induction r as [p | ranges | ranges min max | r IH | r1 IH1 r2 IH2 |];
    intros Hr prev s k rest; simpl in *.
  - destruct s as [|c s]; [discriminate|].
    destruct (chrMatches p c) eqn:Ec; [|discriminate].
    intros H. exists (Some c), [c], s. auto.
  - destruct s as [|c s]; [discriminate|].
    destruct (classMatches ranges c) eqn:Ec; [|discriminate].
    intros H. exists (Some c), [c], s. auto.
  - apply matchRep_units, Hr.
  - destruct (matchRegex r prev s k) as [r'|] eqn:E.
    + intros [= <-]. apply (IH Hr _ _ _ _ E).
    + intros H. exists prev, [], s. auto.
  - destruct Hr as [Hr1 Hr2]. intros H.
    destruct (IH1 Hr1 _ _ _ _ H) as (prev1 & mid1 & s1 & -> & Hmid1 & H1).
    destruct (IH2 Hr2 _ _ _ _ H1) as (prev2 & mid2 & s2 & -> & Hmid2 & H2).
    exists prev2, (mid1 ++ mid2), s2. rewrite app_assoc.
    split; [reflexivity|]. split; [apply Forall_app; auto | exact H2].
  - destruct (xorb (isWordCharOpt prev) (isWordCharOpt (head s))); [|discriminate].
    intros H. exists prev, [], s. auto.
Qed.

Lemma scan_units (r : Regex) (s : list Z) :
  regexUnits P r ->
  forall (prev : option Z) (skip : nat) (u : list Z),
    u ∈ scan r prev s skip -> Forall P u.
Proof.
  intros Hr. induction s as [|c s IH]; intros prev skip u; simpl.
  - intros H. apply elem_of_nil in H. contradiction.
  - destruct skip as [|n]; [|apply IH].
    destruct (matchHere r prev (c :: s)) as [rest|] eqn:E; [|apply IH].
    intros H. apply elem_of_cons in H as [-> | H]; [|eapply IH, H].
    destruct (matchRegex_units r Hr _ _ _ _ E) as (prev' & mid & s' & Es & Hmid & [= ->]).
    change (S (length s)) with (length (c :: s)). rewrite Es.
    rewrite length_app, Nat.add_sub, take_app_length. exact Hmid.
Qed.

End Units.

(** The tail class is the largest of the pattern and closed under change of
    case. *)
Lemma tailClass_letters (c : Z) :
  isUpperAscii c || isLowerAscii c = true -> inRanges tailClass c = true.
Proof.
  unfold isUpperAscii, isLowerAscii, inRanges, tailClass. simpl existsb.
  rewrite !orb_true_iff, !andb_true_iff, !Z.leb_le. lia.
Qed.

Lemma tailClass_variants (c v : Z) :
  v ∈ caseVariants c -> inRanges tailClass v = true -> inRanges tailClass c = true.
Proof.
  unfold caseVariants. intros Hv Hin.
  destruct (isUpperAscii c) eqn:Eu;
    [apply tailClass_letters; rewrite Eu; reflexivity|].
  destruct (isLowerAscii c) eqn:El;
    [apply tailClass_letters; rewrite El, orb_true_r; reflexivity|].
  apply list_elem_of_singleton in Hv as ->. exact Hin.
Qed.

Lemma chrMatches_tailClass (p c : Z) :
  inRanges tailClass p = true -> chrMatches p c = true -> inRanges tailClass c = true.
Proof.
  intros Hp H. unfold chrMatches in H. apply existsb_exists in H as (v & Hv & E).
  apply Z.eqb_eq in E as <-. apply (tailClass_variants c p); [|exact Hp].
  apply list_elem_of_In, Hv.
Qed.

Lemma classMatches_tailClass (ranges : list (Z * Z)) (c : Z) :
  (forall x, inRanges ranges x = true -> inRanges tailClass x = true) ->
  classMatches ranges c = true -> inRanges tailClass c = true.
Proof.
  intros Hsub H. unfold classMatches in H. apply existsb_exists in H as (v & Hv & E).
  apply (tailClass_variants c v); [apply list_elem_of_In, Hv | apply Hsub, E].
Qed.

Lemma hostClass_tailClass (x : Z) :
  inRanges hostClass x = true -> inRanges tailClass x = true.
Proof.
  unfold inRanges, hostClass, tailClass. simpl existsb.
  rewrite !orb_true_iff, !andb_true_iff, !Z.leb_le. lia.
Qed.

Lemma tldClass_tailClass (x : Z) :
  inRanges tldClass x = true -> inRanges tailClass x = true.
Proof.
  unfold inRanges, tldClass, tailClass. simpl existsb.
  rewrite !orb_true_iff, !andb_true_iff, !Z.leb_le. lia.
Qed.

Lemma URL_REGEX_units : regexUnits (fun c => inRanges tailClass c = true) URL_REGEX.
Proof.
  unfold URL_REGEX, seqOf, chars. simpl.
  repeat split;
    try (intros c; apply chrMatches_tailClass; reflexivity);
    intros c; apply classMatches_tailClass;
    first [exact hostClass_tailClass | exact tldClass_tailClass | auto].
Qed.

Lemma lowerUnit_h (c : Z) (more : list Z) :
  lowerUnit c ++ more = 104 :: drop 1 (lowerUnit c ++ more) -> c = 104 \/ c = 72.
Proof.
  unfold lowerUnit.
  repeat match goal with
         | |- context [if ?b then _ else _] => destruct b eqn:?
         end; simpl; intros [= E]; try lia.
  all: unfold isUpperAscii in *; lia.
Qed.

(** X15.  Every unit of an extracted link is an ASCII letter, a digit, or
    one of the marks the pattern's tail class lists.  So a link holds no
    white space, no double quote and no angle bracket, which lets the caption
    put it between the quotes of an attribute as it is; and it opens with the
    letter h in either case, never with a dash, so the child that gets it as
    its last argument cannot take it for an option. *)
Theorem extractUrls_units (text u : list Z) :
  u ∈ extractUrls text ->
  Forall (fun c => inRanges tailClass c = true) u
  /\ (32 ∉ u) /\ (34 ∉ u) /\ (60 ∉ u) /\ (62 ∉ u)
  /\ exists c rest, u = c :: rest /\ (c = 104 \/ c = 72).
Proof.
  rewrite extractUrls_Set_new. unfold Set_new. rewrite foldl_Set_add_elem, elem_of_nil.
  intros [[] | H].
  assert (Forall (fun c => inRanges tailClass c = true) u) as Hunits.
  { eapply scan_units; [apply URL_REGEX_units | exact H]. }
  assert (forall x, inRanges tailClass x = false -> x ∉ u) as Hnot.
  { intros x Hx Hin. rewrite Forall_forall in Hunits. rewrite (Hunits x Hin) in Hx.
    discriminate. }
  split; [exact Hunits|].
  do 4 (split; [apply Hnot; reflexivity|]).
  destruct (scan_scheme _ _ _ _ H) as (scheme & tail_ & -> & Hscheme).
  destruct scheme as [|c scheme]; [destruct Hscheme; discriminate|].
  exists c, (scheme ++ tail_). split; [reflexivity|].
  unfold toLowerCase in Hscheme. simpl flat_map in Hscheme.
  apply (lowerUnit_h c (flat_map lowerUnit scheme)).
  destruct Hscheme as [E | E]; rewrite E; reflexivity.
Qed.

Lemma extractUrls_units_witness :
  Forall (fun c => inRanges tailClass c = true) (lit "HTTPS://Example.com/a?b=1").
Proof.
  apply (extractUrls_units (lit "see HTTPS://Example.com/a?b=1 <now>")
           (lit "HTTPS://Example.com/a?b=1")).
  vm_compute. left.
Defined.

End LinkFacts.

(** ** Allow-lists put together *)
Module AllowListFacts.
Import JsString JsStringFacts Access AccessFacts.

Lemma split_nonempty (sep : Z) (s : list Z) : split sep s <> [].
Proof.
  destruct s as [|c s]; simpl; [discriminate|].
  destruct (c =? sep); [discriminate|]. destruct (split sep s); discriminate.
Qed.

Lemma split_app (sep : Z) (a b : list Z) :
  split sep (a ++ sep :: b) = split sep a ++ split sep b.
Proof.
  induction a as [|c a IH]; simpl.
  - rewrite Z.eqb_refl. reflexivity.
  - destruct (c =? sep); [rewrite IH; reflexivity|].
    rewrite IH. pose proof (split_nonempty sep a) as Hne.
    destruct (split sep a) as [|piece pieces]; [contradiction | reflexivity].
Qed.

(** X16.  Joining two configuration strings with a comma gives the union of
    their allow-lists: a user is admitted by the joined string exactly when
    one of the two admits them.  So neither the order of the identifiers nor
    their repetition matters, and adding identifiers shuts nobody out. *)
Theorem isAllowed_union (a b : list Z) (userId : Z) :
  isAllowed (newAccessControl (a ++ 44 :: b)) userId
  = isAllowed (newAccessControl a) userId || isAllowed (newAccessControl b) userId.
Proof.
  apply eq_true_iff_eq. rewrite orb_true_iff. unfold isAllowed.
  rewrite !bool_decide_eq_true, !elem_of_allowedUserIds, split_app. split.
  - intros (token & Hin & E). apply elem_of_app in Hin as [Hin | Hin]; eauto.
  - intros [(token & Hin & E) | (token & Hin & E)]; exists token;
      (split; [apply elem_of_app; auto | exact E]).
Qed.

End AllowListFacts.

(** ** Deadlines out of range *)
Module DeadlineFacts.
Import JsString Runtime RuntimeFacts Temp Downloader DownloadFacts TimeoutFacts.

Section WithEnv.
Variable env : Env.
Variable config : DownloaderConfig.

(** X17.  A configured time limit that is zero or negative, or so large
    that its milliseconds pass 2^31 - 1, does not switch the deadline off: the
    timer then fires after one millisecond, and every download whose child is
    not over by then is ended as a timeout, its workspace removed. *)
Theorem deadline_out_of_range (url : list Z) (w w2 : World) (tempDir : list (list Z)) :
  downloadTimeout config <= 0 \/ 2147483 < downloadTimeout config ->
  createTempDir env (uuid_at env (tick w)) (bump w) = (Ok tempDir, w2) ->
  (forall te,
      firstExit (child_events (child_at env (tick (bump w2)) (runYtDlp_args url tempDir))) 0
      = Some te ->
      1 <= te) ->
  exists w',
    download env config url w = (Ok (failure (lit "Download timeout")), w')
    /\ workspaceGone tempDir w'.
Proof.
  intros Hrange Hdir Hexit. apply (download_timeout env config url w w2 tempDir Hdir).
  intros te Hte. specialize (Hexit te Hte).
  unfold timerDelay.
  destruct ((downloadTimeout config * 1000 <? 1)
            || (2147483647 <? downloadTimeout config * 1000)) eqn:E; [exact Hexit|].
  apply orb_false_iff in E as [E1 E2]. apply Z.ltb_ge in E1, E2. lia.
Qed.

End WithEnv.

Lemma deadline_out_of_range_witness :
  exists w',
    download (Scenario.calmEnv 1000) {| downloadTimeout := 2592000; maxFileSizeMB := 49 |}
      (lit "https://youtu.be/x1") Scenario.emptyWorld
    = (Ok (failure (lit "Download timeout")), w').
Proof.
  edestruct deadline_out_of_range
    with (env := Scenario.calmEnv 1000)
         (config := {| downloadTimeout := 2592000; maxFileSizeMB := 49 |})
         (url := lit "https://youtu.be/x1") (w := Scenario.emptyWorld)
         (tempDir := Scenario.workspace)
    as (w' & E & _);
    [right; simpl; lia | reflexivity | intros te [= <-]; lia |].
  exists w'. exact E.
Defined.

End DeadlineFacts.
